(** * gtfstidy: stop de-duplication engine

    A shallow embedding of the geospatial stop-deduplication code of
    gtfstidy (package [processors]):

    - the generic disjoint-set forest [UnionFind[T]]
      (processors/toofasttripremover.go, second unit);
    - the 2-D tree over latitude/longitude with its haversine range search
      (kdtree source unit);
    - the name normaliser [normalize] and the processor
      [ExtendParentStops.Run] (processors/extendparentstops.go).

    Conventions of the embedding.

    - Go [int] is a 64-bit two's complement integer: it is a [Z] and every
      arithmetic result goes through [wrap_int].
    - Go [float64] coordinates are idealised as real numbers ([R]); [math.Sin],
      [math.Cos], [math.Sqrt] are the real functions, [math.Atan2] is
      [Atan2] below.
    - A Go [map[K]V] is a [gmap K V]; reading a missing key yields the zero
      value of [V], which the accessors below spell out.
    - Recursion whose termination depends on the state ([FindSet]) carries
      a call-depth budget; [None] stands for a call that does not return
      (or, in [Run], for a nil-pointer panic). *)

From Stdlib Require Import Reals Lra ZArith Lia Ascii String.
From stdpp Require Import gmap strings list relations sorting.

Open Scope Z_scope.

(** ** Machine integers *)

Definition int_min : Z := - 2 ^ 63.
Definition int_max : Z := 2 ^ 63 - 1.

(** The value a 64-bit signed integer holds after an operation whose
    mathematical result is [z]. *)
Definition wrap_int (z : Z) : Z := (z + 2 ^ 63) mod 2 ^ 64 - 2 ^ 63.

Definition in_int_range (z : Z) : Prop := int_min ≤ z ≤ int_max.

(** ** The disjoint-set forest: [UnionFind[T comparable]] *)

Module UF.
Section UnionFind.
(** [T comparable]: decidable equality, and usable as a map key. *)
Context {T : Type} `{Countable T}.
(** The zero value of [T] (the empty string for [UnionFind[string]]). *)
Variable zero : T.

Record UnionFind : Type := mkUnionFind {
  parent : gmap T T;
  rank : gmap T Z;
  size : gmap T Z;
  numSets : Z;
  isPreferredParent : gmap T bool
}.

(** Map reads [uf.parent[i]], [uf.rank[i]], [uf.size[i]],
    [uf.isPreferredParent[i]]: a missing key reads as the zero value. *)
Definition parent_of (uf : UnionFind) (i : T) : T := default zero (parent uf !! i).
Definition rank_of (uf : UnionFind) (i : T) : Z := default 0 (rank uf !! i).
Definition size_of (uf : UnionFind) (i : T) : Z := default 0 (size uf !! i).
Definition preferred (uf : UnionFind) (i : T) : bool :=
  default false (isPreferredParent uf !! i).

(** Map writes. *)
Definition set_parent (uf : UnionFind) (i v : T) : UnionFind :=
  mkUnionFind (<[i := v]> (parent uf)) (rank uf) (size uf) (numSets uf)
              (isPreferredParent uf).
Definition set_rank (uf : UnionFind) (i : T) (v : Z) : UnionFind :=
  mkUnionFind (parent uf) (<[i := v]> (rank uf)) (size uf) (numSets uf)
              (isPreferredParent uf).
Definition set_size (uf : UnionFind) (i : T) (v : Z) : UnionFind :=
  mkUnionFind (parent uf) (rank uf) (<[i := v]> (size uf)) (numSets uf)
              (isPreferredParent uf).
Definition set_numSets (uf : UnionFind) (v : Z) : UnionFind :=
  mkUnionFind (parent uf) (rank uf) (size uf) v (isPreferredParent uf).
Definition set_preferred (uf : UnionFind) (i : T) (v : bool) : UnionFind :=
  mkUnionFind (parent uf) (rank uf) (size uf) (numSets uf)
              (<[i := v]> (isPreferredParent uf)).

Definition NewUnionFind : UnionFind := mkUnionFind ∅ ∅ ∅ 0 ∅.

Definition InitKey (uf : UnionFind) (k : T) : UnionFind :=
  let uf := set_parent uf k k in
  let uf := set_rank uf k 0 in
  let uf := set_size uf k 1 in
  set_numSets uf (wrap_int (numSets uf + 1)).

Definition MarkAsParent (uf : UnionFind) (key : T) : UnionFind :=
  set_preferred uf key true.

(** [FindSet] with an explicit bound on the depth of the recursion. *)
Fixpoint FindSet_rec (depth : nat) (uf : UnionFind) (i : T)
  : option (UnionFind * T) :=
  match depth with
  | O => None
  | S depth' =>
      uf ← (if decide (parent_of uf i ≠ i)
            then '(uf1, r) ← FindSet_rec depth' uf (parent_of uf i);
                 Some (set_parent uf1 i r)
            else Some uf);
      Some (uf, parent_of uf i)
  end.

(** A chain of parent links that ends in a root visits each key of the
    parent map at most once, possibly after one unregistered key, so it
    is never longer than this. *)
Definition max_depth (uf : UnionFind) : nat := S (S (base.size (parent uf))).

Definition FindSet (uf : UnionFind) (i : T) : option (UnionFind * T) :=
  FindSet_rec (max_depth uf) uf i.

Definition IsSameSet (uf : UnionFind) (i j : T) : option (UnionFind * bool) :=
  '(uf, ri) ← FindSet uf i;
  '(uf, rj) ← FindSet uf j;
  Some (uf, bool_decide (ri = rj)).

(** [uf.parent[child] = root; uf.size[root] += uf.size[child]] *)
Definition attach (uf : UnionFind) (child root : T) : UnionFind :=
  let uf := set_parent uf child root in
  set_size uf root (wrap_int (size_of uf root + size_of uf child)).

Definition UnionSet (uf : UnionFind) (x y : T) : option UnionFind :=
  '(uf, xRoot) ← FindSet uf x;
  '(uf, yRoot) ← FindSet uf y;
  if decide (xRoot = yRoot) then Some uf
  else
    let uf := set_numSets uf (wrap_int (numSets uf - 1)) in
    if preferred uf xRoot && negb (preferred uf yRoot) then
      Some (attach uf yRoot xRoot)
    else if preferred uf yRoot && negb (preferred uf xRoot) then
      Some (attach uf xRoot yRoot)
    else if bool_decide (rank_of uf xRoot > rank_of uf yRoot) then
      Some (attach uf yRoot xRoot)
    else
      let uf1 := attach uf xRoot yRoot in
      if bool_decide (rank_of uf1 xRoot = rank_of uf1 yRoot)
      then Some (set_rank uf1 yRoot (wrap_int (rank_of uf1 yRoot + 1)))
      else Some uf1.

Definition NumDisjointSets (uf : UnionFind) : Z := numSets uf.

Definition SizeOfSet (uf : UnionFind) (i : T) : option (UnionFind * Z) :=
  '(uf, r) ← FindSet uf i;
  Some (uf, size_of uf r).

(** [Apply] ranges over the keys of [uf.parent]; Go leaves the order
    unspecified, so the order of the visit, [keys] (a rearrangement of
    the keys of the map), is an argument.  The callback acts on a state
    of type [S] and may fail. *)
Fixpoint Apply_keys {S : Type} (keys : list T) (f : T → T → S → option S)
    (uf : UnionFind) (st : S) : option (UnionFind * S) :=
  match keys with
  | [] => Some (uf, st)
  | key :: keys' =>
      '(uf, p) ← FindSet uf key;
      st ← f key p st;
      Apply_keys keys' f uf st
  end.

(** Call sequences: [InitKey] on each id of a list, and [UnionSet] on
    each pair of a list, in order. *)
Definition InitKeys (uf : UnionFind) (ids : list T) : UnionFind :=
  foldl InitKey uf ids.

Fixpoint UnionAll (uf : UnionFind) (pairs : list (T * T)) : option UnionFind :=
  match pairs with
  | [] => Some uf
  | (x, y) :: pairs' => uf ← UnionSet uf x y; UnionAll uf pairs'
  end.

End UnionFind.
End UF.

(** ** The 2-D tree over (latitude, longitude) *)

#[global] Instance Rlt_decision (x y : R) : Decision (x < y)%R := Rlt_dec x y.
#[global] Instance Rle_decision (x y : R) : Decision (x <= y)%R := Rle_dec x y.
#[global] Instance Rgt_decision (x y : R) : Decision (x > y)%R := Rgt_dec x y.
#[global] Instance Rge_decision (x y : R) : Decision (x >= y)%R := Rge_dec x y.

(** [sort.SliceStable(x, less)]: the sorted rearrangement of [x] in which
  elements that [less] does not order keep their original order.  The
  element at the head goes in front of the first element of the sorted
  rest that is not [less] than it. *)
Section SliceStable.
Context {A : Type} (less : A → A → Prop) `{∀ x y, Decision (less x y)}.

Fixpoint place (x : A) (l : list A) : list A :=
  match l with
  | [] => [x]
  | y :: l' => if decide (less y x) then y :: place x l' else x :: y :: l'
  end.

Fixpoint SliceStable (l : list A) : list A :=
  match l with
  | [] => []
  | x :: l' => place x (SliceStable l')
  end.
End SliceStable.

(** Earth radius in kilometers *)
Definition EarthRadiusKm : R := 6371%R.

(** [math.Atan2(y, x)] on real numbers. *)
Definition Atan2 (y x : R) : R :=
if decide (0 < x)%R then atan (y / x)
else if decide (x < 0)%R then
  (if decide (0 <= y)%R then atan (y / x) + PI else atan (y / x) - PI)%R
else if decide (0 < y)%R then (PI / 2)%R
else if decide (y < 0)%R then (- (PI / 2))%R
else 0%R.

(** Haversine distance in km between two lat/lon points *)
Definition Haversine (lat1 lon1 lat2 lon2 : R) : R :=
(let dLat := (lat2 - lat1) * PI / 180 in
 let dLon := (lon2 - lon1) * PI / 180 in
 let a := sin (dLat / 2) * sin (dLat / 2) +
          cos (lat1 * PI / 180) * cos (lat2 * PI / 180) *
          sin (dLon / 2) * sin (dLon / 2) in
 let c := 2 * Atan2 (sqrt a) (sqrt (1 - a)) in
 EarthRadiusKm * c)%R.

Definition coordDegrees (radiusKm lat : R) (cd : Z) : R :=
(let rad := radiusKm / EarthRadiusKm * (180 / PI) in
 if decide (cd = 0%Z) then rad             (* latitude *)
 else rad / cos (lat * PI / 180))%R.      (* longitude *)

Module KD.
Section KDTree.
(** The payload type [T any]. *)
Context {T : Type}.

(** Point holds lat/lon and a generic payload of type T *)
Record Point : Type := mkPoint { Lat : R; Lon : R; Data : T }.

(** Node in a KD-tree; [Nil] is the nil [*Node[T]].  Axis: 0 = lat,
    1 = lon. *)
Inductive Node : Type :=
| Nil
| mkNode (Point : Point) (Left Right : Node) (Axis : Z).

(** [depth % 2] and [depth + 1] on Go ints. *)
Definition axis_of (depth : Z) : Z := Z.rem depth 2.
Definition deeper (depth : Z) : Z := wrap_int (depth + 1).

(** The [less] closure handed to [sort.SliceStable]. *)
Definition less_on (axis : Z) (p q : Point) : Prop :=
  if decide (axis = 0) then (Lat p < Lat q)%R else (Lon p < Lon q)%R.

#[global] Instance less_on_dec axis p q : Decision (less_on axis p q).
Proof. unfold less_on. destruct (decide (axis = 0)); apply _. Defined.

(** BuildKDTree builds a balanced KD-tree from points slice.  The
    recursion is on the two halves of the sorted slice; [call_budget]
    bounds its depth and is never exhausted when it starts at the
    length of the slice. *)
Fixpoint BuildKDTree_rec (call_budget : nat) (points : list Point) (depth : Z)
  : Node :=
  match call_budget, points with
  | _, [] => Nil
  | O, _ :: _ => Nil
  | S budget, _ :: _ =>
      let axis := axis_of depth in
      let points := SliceStable (less_on axis) points in
      let median := (length points / 2)%nat in
      match points !! median with
      | None => Nil
      | Some pt =>
          mkNode pt
            (BuildKDTree_rec budget (take median points) (deeper depth))
            (BuildKDTree_rec budget (drop (S median) points) (deeper depth))
            axis
      end
  end.

Definition BuildKDTree (points : list Point) (depth : Z) : Node :=
  BuildKDTree_rec (length points) points depth.

(** Insert adds a new point to the tree *)
Fixpoint Insert (root : Node) (point : Point) (depth : Z) : Node :=
  match root with
  | Nil => mkNode point Nil Nil (axis_of depth)
  | mkNode rootPoint l r axis =>
      let '(key, rootKey) :=
        if decide (axis = 0) then (Lat point, Lat rootPoint)
        else (Lon point, Lon rootPoint) in
      if decide (key < rootKey)%R
      then mkNode rootPoint (Insert l point (deeper depth)) r axis
      else mkNode rootPoint l (Insert r point (deeper depth)) axis
  end.

(** [SearchRange] appends to [*results]; the slice is threaded through. *)
Fixpoint SearchRange (node : Node) (query : Point) (radiusKm : R) (depth : Z)
    (results : list Point) : list Point :=
  match node with
  | Nil => results
  | mkNode nodePoint l r _ =>
      let distance :=
        Haversine (Lat query) (Lon query) (Lat nodePoint) (Lon nodePoint) in
      let results :=
        if decide (distance <= radiusKm)%R then results ++ [nodePoint]
        else results in
      let cd := axis_of depth in
      let '(queryCoord, nodeCoord) :=
        if decide (cd = 0) then (Lat query, Lat nodePoint)
        else (Lon query, Lon nodePoint) in
      let delta := coordDegrees radiusKm (Lat query) cd in
      (* Search left subtree if it may contain points within radius *)
      let results :=
        if decide (queryCoord - delta <= nodeCoord)%R
        then SearchRange l query radiusKm (deeper depth) results
        else results in
      (* Search right subtree if it may contain points within radius *)
      if decide (queryCoord + delta >= nodeCoord)%R
      then SearchRange r query radiusKm (deeper depth) results
      else results
  end.

(** The points stored in a tree, node first. *)
Fixpoint points_of (node : Node) : list Point :=
  match node with
  | Nil => []
  | mkNode p l r _ => p :: points_of l ++ points_of r
  end.

(** Brute-force search, as [linearSearch] of the package's tests. *)
Definition linearSearch (points : list Point) (query : Point) (radiusKm : R)
  : list Point :=
  filter (λ p, (Haversine (Lat p) (Lon p) (Lat query) (Lon query) <= radiusKm)%R)
         points.
End KDTree.
Arguments Point : clear implicits.
Arguments Node : clear implicits.
End KD.

(** ** Name normalisation: [normalize] and [ConsiderSame] *)

(** Go strings are byte strings; after [unidecode.Unidecode] a name is
    ASCII, so a [string] of [ascii] characters holds it.  The helpers
    below are the functions of Go's [strings] and [regexp] packages that
    [normalize] calls, each restricted to the pattern it is called with. *)

Module Text.
Open Scope char_scope.

Definition is_upper (c : ascii) : bool :=
  (65 <=? nat_of_ascii c)%nat && (nat_of_ascii c <=? 90)%nat.
Definition is_lower (c : ascii) : bool :=
  (97 <=? nat_of_ascii c)%nat && (nat_of_ascii c <=? 122)%nat.
Definition is_digit (c : ascii) : bool :=
  (48 <=? nat_of_ascii c)%nat && (nat_of_ascii c <=? 57)%nat.

(** [\w]: letters, digits and the underscore. *)
Definition is_word (c : ascii) : bool :=
  is_upper c || is_lower c || is_digit c || Ascii.eqb c "_".

(** [\s] of Go's regexp: tab, newline, form feed, carriage return, space. *)
Definition is_space (c : ascii) : bool :=
  let n := nat_of_ascii c in
  (n =? 9)%nat || (n =? 10)%nat || (n =? 12)%nat || (n =? 13)%nat || (n =? 32)%nat.

(** [unicode.IsSpace] on ASCII: [\s] and the vertical tab. *)
Definition is_unicode_space (c : ascii) : bool :=
  is_space c || (nat_of_ascii c =? 11)%nat.

Definition lower (c : ascii) : ascii :=
  if is_upper c then ascii_of_nat (nat_of_ascii c + 32) else c.

Fixpoint is_prefix (p s : list ascii) : bool :=
  match p, s with
  | [], _ => true
  | _ :: _, [] => false
  | a :: p', b :: s' => Ascii.eqb a b && is_prefix p' s'
  end.

(** [strings.ToLower] *)
Definition ToLower (s : list ascii) : list ascii := lower <$> s.

(** [strings.ReplaceAll(s, old, new)] for a non-empty [old]: the
    non-overlapping occurrences of [old], leftmost first.  [skip] counts
    the characters of the current occurrence still to be dropped. *)
Fixpoint ReplaceAll_from (skip : nat) (s old new : list ascii) : list ascii :=
  match s with
  | [] => []
  | c :: rest =>
      match skip with
      | S k => ReplaceAll_from k rest old new
      | O =>
          if is_prefix old s
          then new ++ ReplaceAll_from (length old - 1) rest old new
          else c :: ReplaceAll_from 0 rest old new
      end
  end.

Definition ReplaceAll (s old new : list ascii) : list ascii :=
  ReplaceAll_from 0 s old new.

(** [strings.Join(strings.Fields(s), " ")] *)
Fixpoint Fields_from (cur : list ascii) (s : list ascii) : list (list ascii) :=
  match s with
  | [] => if cur is [] then [] else [cur]
  | c :: rest =>
      if is_unicode_space c
      then (if cur is [] then Fields_from [] rest else cur :: Fields_from [] rest)
      else Fields_from (cur ++ [c]) rest
  end.

Definition Fields (s : list ascii) : list (list ascii) := Fields_from [] s.

Fixpoint Join (elems : list (list ascii)) (sep : list ascii) : list ascii :=
  match elems with
  | [] => []
  | [e] => e
  | e :: elems' => e ++ sep ++ Join elems' sep
  end.

(** [regexp.MustCompile(`\s*\([^)]*\)`).ReplaceAllString(s, "")].
    A match at the head of [s] is a run of [\s], an opening parenthesis
    and everything up to the first closing one; [paren_match] is its
    length. *)
Fixpoint until_close (s : list ascii) : option nat :=
  match s with
  | [] => None
  | c :: rest => if Ascii.eqb c ")" then Some 1%nat else S <$> until_close rest
  end.

Fixpoint paren_match (s : list ascii) : option nat :=
  match s with
  | [] => None
  | c :: rest =>
      if is_space c then S <$> paren_match rest
      else if Ascii.eqb c "(" then S <$> until_close rest
      else None
  end.

Fixpoint strip_parens_from (skip : nat) (s : list ascii) : list ascii :=
  match s with
  | [] => []
  | c :: rest =>
      match skip with
      | S k => strip_parens_from k rest
      | O =>
          match paren_match s with
          | Some n => strip_parens_from (n - 1) rest
          | None => c :: strip_parens_from 0 rest
          end
      end
  end.

Definition strip_parens (s : list ascii) : list ascii := strip_parens_from 0 s.

(** [regexp.MustCompile(`[^\w\s]`).ReplaceAllString(s, "")] *)
Definition strip_punctuation (s : list ascii) : list ascii :=
  filter (λ c, is_word c || is_space c = true) s.

(** [regexp.MustCompile(`\b(w1|...|wn)\b` + tail).ReplaceAllString(s, "")]
    where every [wi] begins and ends with a word character and [tail] is
    empty or [[ \.]?].  At a position that follows a non-word character
    (or starts the string) the first alternative that is a prefix of the
    rest and is followed by a non-word character (or ends the string)
    is removed, together with one following space or dot when [tail]
    asks for it. *)
Definition ends_word (s : list ascii) : bool :=
  match s with
  | [] => true
  | c :: _ => negb (is_word c)
  end.

Fixpoint word_match (alts : list (list ascii)) (s : list ascii) : option nat :=
  match alts with
  | [] => None
  | w :: alts' =>
      if is_prefix w s && ends_word (drop (length w) s) then Some (length w)
      else word_match alts' s
  end.

Definition tail_match (tail : bool) (s : list ascii) : nat :=
  match s with
  | c :: _ => if tail && (Ascii.eqb c " " || Ascii.eqb c ".") then 1 else 0
  | [] => 0
  end.

Fixpoint strip_words_from (alts : list (list ascii)) (tail : bool)
    (skip : nat) (prev_word : bool) (s : list ascii) : list ascii :=
  match s with
  | [] => []
  | c :: rest =>
      match skip with
      | S k => strip_words_from alts tail k (is_word c) rest
      | O =>
          match (if prev_word then None else word_match alts s) with
          | Some n =>
              strip_words_from alts tail (n + tail_match tail (drop n s) - 1)
                               (is_word c) rest
          | None => c :: strip_words_from alts tail 0 (is_word c) rest
          end
      end
  end.

Definition strip_words (alts : list string) (tail : bool) (s : list ascii)
  : list ascii :=
  strip_words_from (list_ascii_of_string <$> alts) tail 0 false s.

End Text.

(** The replacement table of [normalize], in the order of the source
    text.  It is a Go map: the [range] over it meets the entries in an
    order that Go leaves unspecified. *)
Definition replacements : list (string * string) :=
  [ (" hauptbahnhof", " hbf"); (" bahnhof", " bf");
    ("hauptbahnhof ", "hbf "); ("bahnhof ", "bf ");
    ("strasse", "str"); ("platz", "pl");
    (" station", " stn"); (" street", " st"); (" avenue", " ave");
    (" boulevard", " blvd"); (" road", " rd"); (" drive", " dr");
    (" court", " ct"); (" square", " sq"); (" parkway", " pkwy");
    (" highway", " hwy"); (" circle", " cir"); (" lane", " ln");
    (" place", " pl"); (" terrace", " ter"); (" expressway", " expy");
    (" junction", " jct"); (" intersection", " int"); (" terminal", " term");
    (" airport", " apt"); (" downtown", " dtwn"); (" ferry", " fry") ]%string.

Section Normalize.
(** [unidecode.Unidecode] of github.com/mozillazg/go-unidecode, which is
    not part of the repository: transliteration to ASCII. *)
Variable Unidecode : string → string.
(** The order in which this call's [range replacements] yields the
    entries of the table. *)
Variable range_replacements : list (string * string).

Definition normalize (name : string) : string :=
  (* Remove diacritics *)
  let name := list_ascii_of_string (Unidecode name) in
  (* Convert to lowercase for case-insensitive comparison *)
  let name := Text.ToLower name in
  (* Remove any parenthetical content *)
  let name := Text.strip_parens name in
  (* Replace hyphens with spaces *)
  let name := Text.ReplaceAll name ["-"%char] [" "%char] in
  (* Remove punctuation (excluding letters, numbers, and whitespace) *)
  let name := Text.strip_punctuation name in
  (* Remove platform/track/vehicle references *)
  let name :=
    Text.strip_words ["bussteig"; "gleis"; "bahnsteig"; "bus"; "zug"]%string
                     false name in
  (* Remove transit agency/operator names *)
  let name :=
    Text.strip_words ["db"; "mvv"; "vrr"; "rmv"; "bvg"; "sbb"; "oebb"; "sncf";
                      "trenitalia"]%string false name in
  (* Normalize whitespace (collapse multiple spaces into one) *)
  let name := Text.Join (Text.Fields name) [" "%char] in
  (* Replace common long terms with abbreviations *)
  let name :=
    foldl (λ name '(k, v),
             Text.ReplaceAll name (list_ascii_of_string k) (list_ascii_of_string v))
          name range_replacements in
  (* Remove remaining transport-related abbreviations or prefixes *)
  let name :=
    Text.strip_words ["s+u"; "s"; "u"; "rb"; "re"; "tram"; "bus"; "bhf"]%string
                     true name in
  (* Final whitespace cleanup *)
  let name := Text.Join (Text.Fields name) [" "%char] in
  string_of_list_ascii name.
End Normalize.

(** should two names be considered "the same": [fuzzy.Ratio] of
    github.com/paul-mannino/go-fuzzywuzzy is not part of the repository
    and is a parameter, as is the [normalize] call (one function for the
    calls made here, whatever order their [range] takes). *)
Definition ConsiderSame (normalize : string → string)
    (Ratio : string → string → Z) (left right : string) (threshold : Z) : bool :=
  let similarity := Ratio (normalize left) (normalize right) in
  bool_decide (threshold ≤ similarity)%Z.

Definition TOL_IS_SAME : Z := 85.
Definition radiusKm : R := (5 / 10)%R.

(** ** The processor [ExtendParentStops] *)

(** [gtfs.Stop] of github.com/patrickbr/gtfsparser, with the fields the
    processor reads or writes.  A [*gtfs.Stop] is represented by the id of
    the stop it points to: the feed is the store of the stop objects, and
    [Parent_station = Some q] is a pointer to the stop stored under [q]
    (so [s.Parent_station.Id] is [q]); [None] is the nil pointer. *)
Module gtfs.
Record Stop : Type := mkStop {
  Id : string;
  Name : string;
  Lat : R;
  Lon : R;
  Location_type : Z;
  Parent_station : option string;
  Timezone : string
}.

(** [stop.Parent_station = p] *)
Definition with_Parent_station (stop : Stop) (p : option string) : Stop :=
  mkStop (Id stop) (Name stop) (Lat stop) (Lon stop) (Location_type stop) p
         (Timezone stop).
End gtfs.

Definition createParentStopFrom (orig : gtfs.Stop) (id : string) : gtfs.Stop :=
  gtfs.mkStop id (gtfs.Name orig) (gtfs.Lat orig) (gtfs.Lon orig) 1 None
              (gtfs.Timezone orig).

(** Modelled from the spec: [BuildKDTreeParallelLimited], whose source is
    not in the repository snapshot.  The spec asks that a parallel build
    "must still produce a structurally valid index (same median-selection
    rule) regardless of worker count", which is [BuildKDTree]. *)
Definition BuildKDTreeParallelLimited {T : Type} (points : list (KD.Point T))
    (depth : Z) : KD.Node T :=
  KD.BuildKDTree points depth.

Module EPS.
Import UF.
Section Run.
(** The calls [normalize(name)] and [fuzzy.Ratio(a, b)]. *)
Variable normalize : string → string.
Variable Ratio : string → string → Z.
(** [range feed.Stops] and, in [uf.Apply], [range uf.parent]: the order
    in which the [n]-th loop of [Run] meets the entries of the map. *)
Variable range_Stops : nat → gmap string gtfs.Stop → list (string * gtfs.Stop).
Variable range_parent : gmap string string → list string.

Abbreviation Feed := (gmap string gtfs.Stop).
Abbreviation UnionFind := (UnionFind (T := string)).

Definition par (id : string) : string := ("par::" +:+ id)%string.

(** First loop: one point and one [InitKey] per stop. *)
Definition register (stops : list (string * gtfs.Stop))
  : list (KD.Point gtfs.Stop) * UnionFind :=
  foldl (λ '(points, uf) '(_, s),
           (points ++ [KD.mkPoint (gtfs.Lat s) (gtfs.Lon s) s],
            InitKey uf (gtfs.Id s)))
        ([], NewUnionFind) stops.

(** Second loop: the hierarchy of the feed is seeded into the forest. *)
Fixpoint seed (stops : list (string * gtfs.Stop)) (uf : UnionFind)
  : option UnionFind :=
  match stops with
  | [] => Some uf
  | (_, s) :: stops' =>
      uf ← (match gtfs.Parent_station s with
            | Some parent => UnionSet "" uf (gtfs.Id s) parent
            | None => Some uf
            end);
      seed stops' uf
  end.

(** Third loop: every stop is united with the stops in range whose name
    is considered the same. *)
Fixpoint unite_results (s : gtfs.Stop) (norm : string)
    (results : list (KD.Point gtfs.Stop)) (uf : UnionFind) : option UnionFind :=
  match results with
  | [] => Some uf
  | p :: results' =>
      let o := KD.Data p in
      uf ← (if ConsiderSame normalize Ratio norm (normalize (gtfs.Name o)) TOL_IS_SAME
            then UnionSet "" uf (gtfs.Id s) (gtfs.Id o)
            else Some uf);
      unite_results s norm results' uf
  end.

Fixpoint propose (root : KD.Node gtfs.Stop) (stops : list (string * gtfs.Stop))
    (uf : UnionFind) : option UnionFind :=
  match stops with
  | [] => Some uf
  | (_, s) :: stops' =>
      let query := KD.mkPoint (gtfs.Lat s) (gtfs.Lon s) s in
      let results := KD.SearchRange root query radiusKm 0 [] in
      let norm := normalize (gtfs.Name s) in
      uf ← unite_results s norm results uf;
      propose root stops' uf
  end.

(** [feed.Stops[parID] = createParentStopFrom(orig, parID)] unless the
    key exists. *)
Definition ensure_parent (feed : Feed) (parID : string) (orig : gtfs.Stop) : Feed :=
  if decide (parID ∈ dom feed) then feed
  else <[parID := createParentStopFrom orig parID]> feed.

(** Fourth loop: existing parent_station references are remapped to
    their "par::<id>" versions.  The loop visits the stops that were in
    the map when it started; the records it adds have no parent and would
    be skipped.  A stop is read from, and written back to, the store. *)
Definition remap_stop (feed : Feed) (key : string) : Feed :=
  match feed !! key with
  | Some stop =>
      match gtfs.Parent_station stop with
      | Some parent =>
          let parID := par parent in
          let feed := ensure_parent feed parID stop in
          <[key := gtfs.with_Parent_station stop (Some parID)]> feed
      | None => feed
      end
  | None => feed
  end.

Definition remap (keys : list string) (feed : Feed) : Feed :=
  foldl remap_stop feed keys.

(** The callback of [uf.Apply]; a nil [orig] or [stop] is dereferenced
    and panics. *)
Definition assign_parent (key parent : string) (feed : Feed) : option Feed :=
  let stop := feed !! key in
  let parID := par parent in
  feed ← (if decide (parID ∈ dom feed) then Some feed
          else orig ← feed !! parent;
               Some (<[parID := createParentStopFrom orig parID]> feed));
  stop ← stop;
  Some (<[key := gtfs.with_Parent_station stop (Some parID)]> feed).

(** Last loop: ensure all stops have a parent station. *)
Definition backfill_stop (feed : Feed) (key : string) : Feed :=
  match feed !! key with
  | Some stop =>
      if decide (gtfs.Location_type stop = 0 ∧ gtfs.Parent_station stop = None)
      then
        let parID := par (gtfs.Id stop) in
        let feed := ensure_parent feed parID stop in
        <[key := gtfs.with_Parent_station stop (Some parID)]> feed
      else feed
  | None => feed
  end.

Definition backfill (keys : list string) (feed : Feed) : Feed :=
  foldl backfill_stop feed keys.

(** The forest after the first two loops, and after the third. *)
Definition seeded (feed : Feed) : option UnionFind :=
  seed (range_Stops 1 feed) (register (range_Stops 0 feed)).2.

Definition clustered (feed : Feed) : option UnionFind :=
  let root := BuildKDTreeParallelLimited (register (range_Stops 0 feed)).1 0 in
  uf ← seeded feed;
  propose root (range_Stops 2 feed) uf.

(** [Run] returns the feed as it leaves it and the two numbers [prev]
    and [after] that its message is printed from. *)
Definition Run (feed : Feed) : option (Feed * Z * Z) :=
  let '(points, uf) := register (range_Stops 0 feed) in
  let root := BuildKDTreeParallelLimited points 0 in
  uf ← seed (range_Stops 1 feed) uf;
  let prev := NumDisjointSets uf in
  uf ← propose root (range_Stops 2 feed) uf;
  let feed := remap (range_Stops 3 feed).*1 feed in
  '(uf, feed) ← Apply_keys "" (range_parent (parent uf)) assign_parent uf feed;
  let feed := backfill (range_Stops 4 feed).*1 feed in
  let after := NumDisjointSets uf in
  Some (feed, prev, after).

(** What Go guarantees about a [range] over a map. *)
Definition ranges_ok : Prop :=
  (∀ n (m : Feed), range_Stops n m ≡ₚ map_to_list m) ∧
  (∀ m : gmap string string, range_parent m ≡ₚ elements (dom m)).

End Run.
End EPS.

(** ** Further functions of the package *)

(** [latLonBoundingBox]: the results are [(minLat, maxLat, minLon, maxLon)]. *)
Definition latLonBoundingBox (lat lon radiusKm : R) : R * R * R * R :=
(let dLat := (radiusKm / EarthRadiusKm) * (180 / PI) in
 let dLon := dLat / cos (lat * PI / 180) in
 (lat - dLat, lat + dLat, lon - dLon, lon + dLon))%R.

(** [Print] on a [UnionFind[string]]: [Apply] with a callback that
    prints the line ["key -> parent"]; the state of the callback is the
    list of the lines printed so far.  ([%v] prints a string as it is.)
    As for [Apply], the order of the visit is an argument. *)
Definition newline : string := String (ascii_of_nat 10) EmptyString.

Definition Print (keys : list string) (uf : UF.UnionFind (T := string))
  : option (UF.UnionFind (T := string) * list string) :=
  UF.Apply_keys "" keys
    (λ key parent out, Some (out ++ [(key +:+ " -> " +:+ parent +:+ newline)%string]))
    uf [].

(** ** Stop hierarchies: [TopLevelStop] *)

(** [TopLevelStop(stop, feed)] follows the [Parent_station] pointers from
    [stop] to a stop that has none.  A [*gtfs.Stop] is the id of a stop
    in the store of the stop objects, [stops] (the Go function receives
    the feed but does not read it).  [steps] bounds the iterations of
    the loop: [None] stands for a loop that does not end, or for a
    pointer that is nil. *)
Fixpoint TopLevelStop_loop (steps : nat) (stops : gmap string gtfs.Stop)
    (stop : string) : option string :=
  match steps with
  | O => None
  | S steps' =>
      s ← stops !! stop;
      match gtfs.Parent_station s with
      | Some parent => TopLevelStop_loop steps' stops parent
      | None => Some stop
      end
  end.

(** A chain of parent pointers that ends passes through every stop of
    the store at most once, so it takes no more iterations than this. *)
Definition TopLevelStop (stop : string) (stops : gmap string gtfs.Stop)
  : option string :=
  TopLevelStop_loop (S (size stops)) stops stop.

(** ** Trips *)

(** [gtfs.Trip], [gtfs.StopTime], [gtfs.Route] and [gtfs.Frequency] of
    github.com/patrickbr/gtfsparser, with the fields that the
    processors read or write.  The code reads a time only through
    [SecondsSinceMidnight()], so a time is held as that number (a Go
    [int]).  The stop of a stop time, [Stop()], is a [*gtfs.Stop]: the id
    of the stop in the store. *)
Module Trips.

(** A [*string].  [Headsign] points to a string of the trip's own, or,
    once [ExtendTripHeadSign] has run, to the [Name] field of a stop
    object: [NameOf id] is [&stop.Name] for the stop stored under [id]. *)
Inductive StringPtr : Type :=
| NilPtr
| OwnString (s : string)
| NameOf (stop : string).

Record StopTime : Type := mkStopTime {
  Stop : string;
  Arrival_time : Z;
  Departure_time : Z
}.

Record Route : Type := mkRoute {
  Route_Id : string;
  Route_Type : Z
}.

Record Trip : Type := mkTrip {
  Route_of : Route;
  Headsign : StringPtr;
  StopTimes : list StopTime
}.

Record Frequency : Type := mkFrequency {
  Start_time : Z;
  End_time : Z;
  Headway_secs : Z
}.

(** [t.Headsign = p] *)
Definition with_Headsign (t : Trip) (p : StringPtr) : Trip :=
  mkTrip (Route_of t) p (StopTimes t).

(** [*p], which panics on nil. *)
Definition deref (stops : gmap string gtfs.Stop) (p : StringPtr) : option string :=
  match p with
  | NilPtr => None
  | OwnString s => Some s
  | NameOf stop => gtfs.Name <$> stops !! stop
  end.
End Trips.

(** [NumTrips]: the number of trips that a frequency entry encodes. *)
Definition NumTrips (f : Trips.Frequency) : Z :=
  let duration := wrap_int (Trips.End_time f - Trips.Start_time f) in
  if decide (duration < 0 ∨ Trips.Headway_secs f ≤ 0) then 0
  else wrap_int (Z.quot duration (Trips.Headway_secs f)).

(** ** The processor [ExtendTripHeadSign] *)

Module ETH.
Import Trips.

Record Feed : Type := mkFeed {
  Stops : gmap string gtfs.Stop;
  Trips : gmap string Trip
}.

Section Run.
(** [range feed.Trips]: the order in which the loop meets the trips. *)
Variable range_Trips : gmap string Trip → list (string * Trip).

(** The body of the loop: a trip whose headsign is not empty is left
    alone; otherwise the headsign becomes a pointer to the name of the
    stop of the last stop time.  Reading through a nil headsign and
    indexing an empty [StopTimes] panic. *)
Definition extend_headsign (stops : gmap string gtfs.Stop) (t : Trip) : option Trip :=
  h ← deref stops (Headsign t);
  (* If already present, do not overwrite *)
  if decide (h ≠ "") then Some t
  else
    (* Take last stations name *)
    st ← last (StopTimes t);
    Some (with_Headsign t (NameOf (Stop st))).

Fixpoint Run_loop (stops : gmap string gtfs.Stop) (todo : list (string * Trip))
    (trips : gmap string Trip) : option (gmap string Trip) :=
  match todo with
  | [] => Some trips
  | (id, t) :: todo' =>
      t ← extend_headsign stops t;
      Run_loop stops todo' (<[id := t]> trips)
  end.

Definition Run (feed : Feed) : option Feed :=
  trips ← Run_loop (Stops feed) (range_Trips (Trips feed)) (Trips feed);
  Some (mkFeed (Stops feed) trips).
End Run.
End ETH.

(** ** The processor [TooFastTripRemover] *)

(** Define distance thresholds for different route types in kilometers *)
Definition distanceThresholds : gmap Z R :=
  list_to_map [ (0, 1%R); (1, 1%R); (2, 10%R); (3, 1%R); (4, 5%R); (5, 5%R);
                (6, 5%R); (7, 5%R); (11, 5%R); (12, 5%R) ].

Module TFT.
Import Trips.

(** The speed limits: the condition under which the trip is deleted. *)
Definition over_limit (routeType : Z) (speed : R) : Prop :=
  (routeType = 0 ∧ (speed > 100)%R) ∨      (* Tram *)
  (routeType = 1 ∧ (speed > 150)%R) ∨      (* Subway *)
  (routeType = 2 ∧ (speed > 500)%R) ∨      (* Rail *)
  (routeType = 3 ∧ (speed > 150)%R) ∨      (* Bus *)
  (routeType = 4 ∧ (speed > 80)%R) ∨       (* Ferry *)
  (routeType = 5 ∧ (speed > 30)%R) ∨       (* Cable car *)
  (routeType = 6 ∧ (speed > 50)%R) ∨       (* Gondola *)
  (routeType = 7 ∧ (speed > 50)%R) ∨       (* Funicular *)
  (routeType = 11 ∧ (speed > 50)%R) ∨      (* Trolleybus *)
  (routeType = 12 ∧ (speed > 150)%R).      (* Monorail *)

#[global] Instance over_limit_dec routeType speed : Decision (over_limit routeType speed).
Proof. unfold over_limit. apply _. Defined.

(** Speed in km/h over [dist] metres in [inter] seconds; an interval of
    zero seconds counts as one minute. *)
Definition speed_of (dist : R) (inter : Z) : R :=
  if decide (inter = 0) then (dist / 1000 / (60 / 3600))%R
  else (dist / 1000 / (IZR inter / 3600))%R.

Section Run.
(** [distSApprox] is defined elsewhere in the package and
    [gtfs.GetTypeFromExtended], [feed.DeleteTrip] and
    [feed.CleanTransfers] in github.com/patrickbr/gtfsparser; none is part
    of the sources at hand.  The feed is any type with its trips;
    distances are real numbers of metres between two stops. *)
Variable Feed : Type.
Variable Trips_of : Feed → gmap string Trip.
Variable DeleteTrip : Feed → string → Feed.
Variable CleanTransfers : Feed → Feed.
Variable distSApprox : string → string → R.
Variable GetTypeFromExtended : Z → Z.
(** [range feed.Trips] in the first and in the second loop. *)
Variable range_Trips : nat → gmap string Trip → list (string * Trip).

(** The test of both loops on the distance and the interval reached. *)
Definition too_fast (t : Trip) (dist : R) (inter : Z) : bool :=
  let speed := speed_of dist inter in
  let routeType := GetTypeFromExtended (Route_Type (Route_of t)) in
  bool_decide (dist >= 1000 * default 0%R (distanceThresholds !! routeType))%R
  && bool_decide (over_limit routeType speed).

(** The inner loop of the first pass, from index [i] on: [prev] is
    [t.StopTimes[i-1]] and [rest] is [t.StopTimes[i:]].  It returns
    whether the trip is deleted. *)
Fixpoint first_loop (t : Trip) (prev last : StopTime) (dist : R)
    (rest : list StopTime) : bool :=
  match rest with
  | [] => false
  | cur :: rest' =>
      let dist := (dist + distSApprox (Stop prev) (Stop cur))%R in
      let inter := wrap_int (Arrival_time cur - Departure_time last) in
      if too_fast t dist inter then true
      else if decide (inter ≠ 0) then first_loop t cur cur 0 rest'
      else first_loop t cur last dist rest'
  end.

Definition first_pass (t : Trip) : bool :=
  match StopTimes t with
  | [] => false
  | first :: rest => first_loop t first first 0 rest
  end.

(** The innermost loop of the second pass for one [j]: [from] is
    [t.StopTimes[j]]. *)
Fixpoint second_loop (t : Trip) (from prev : StopTime) (dist : R)
    (rest : list StopTime) : bool :=
  match rest with
  | [] => false
  | cur :: rest' =>
      let dist := (dist + distSApprox (Stop prev) (Stop cur))%R in
      let inter := wrap_int (Arrival_time cur - Departure_time from) in
      if too_fast t dist inter then true
      else second_loop t from cur dist rest'
  end.

(** The loop over [j], from [j] on ([from_j] is [t.StopTimes[j:]]):
    [DeleteTrip] is called once for every [j] whose inner loop breaks. *)
Fixpoint second_pass_from (t : Trip) (id : string) (from_j : list StopTime)
    (feed : Feed) : Feed :=
  match from_j with
  | [] => feed
  | st_j :: rest =>
      let feed := if second_loop t st_j st_j 0 rest then DeleteTrip feed id
                  else feed in
      second_pass_from t id rest feed
  end.

Definition second_pass (t : Trip) (id : string) (feed : Feed) : Feed :=
  match StopTimes t with
  | [] => feed
  | _ :: from_1 => second_pass_from t id from_1 feed
  end.

(** A [range] over the trips whose body deletes trips: an entry that is
    removed before it is reached is not produced. *)
Definition for_each_trip (body : string → Trip → Feed → Feed)
    (todo : list (string * Trip)) (feed : Feed) : Feed :=
  foldl (λ feed '(id, t),
           if decide (id ∈ dom (Trips_of feed)) then body id t feed else feed)
        feed todo.

(** [Run] returns the feed as it leaves it and the number of trips that
    its message reports as removed. *)
Definition Run (feed : Feed) : Feed * Z :=
  let bef := Z.of_nat (size (Trips_of feed)) in
  let feed :=
    for_each_trip (λ id t feed, if first_pass t then DeleteTrip feed id else feed)
                  (range_Trips 0 (Trips_of feed)) feed in
  let feed :=
    for_each_trip (λ id t feed, second_pass t id feed)
                  (range_Trips 1 (Trips_of feed)) feed in
  (* delete transfers *)
  let feed := CleanTransfers feed in
  (feed, wrap_int (bef - Z.of_nat (size (Trips_of feed)))).
End Run.
End TFT.
(** * Properties of the embedding *)

(** ** Machine integers *)

Lemma wrap_int_id z : in_int_range z → wrap_int z = z.
Proof.
  unfold in_int_range, int_min, int_max, wrap_int. intros Hz.
  rewrite Z.mod_small; lia.
Qed.

Lemma wrap_int_range z : in_int_range (wrap_int z).
Proof.
  unfold in_int_range, int_min, int_max, wrap_int.
  pose proof (Z.mod_pos_bound (z + 2 ^ 63) (2 ^ 64)). lia.
Qed.

Module UFFacts.
Import UF.
Section Climb.
Context {T : Type} `{Countable T}.

(** [climb p i l r]: following the parent links [p] from [i] passes the
    non-root keys [l] (beginning with [i] itself unless [i] is a root)
    and stops at the root [r]. *)
Inductive climb (p : T → T) : T → list T → T → Prop :=
| climb_root r : p r = r → climb p r [] r
| climb_step i l r : p i ≠ i → climb p (p i) l r → climb p i (i :: l) r.

Definition root_in (p : T → T) (i r : T) : Prop := ∃ l, climb p i l r.

Lemma climb_det p i l r l' r' :
  climb p i l r → climb p i l' r' → l = l' ∧ r = r'.
Proof.
  intros Hc. revert l' r'.
  induction Hc as [r Hr|i l r Hi Hc IH]; intros l' r' Hc'.
  - inversion Hc'; subst; [done | congruence].
  - inversion Hc' as [|? l0 ? ? Hc0]; subst; [congruence|].
    destruct (IH _ _ Hc0) as [-> ->]. done.
Qed.

Lemma root_in_det p i r r' : root_in p i r → root_in p i r' → r = r'.
Proof. intros [l Hl] [l' Hl']. by destruct (climb_det _ _ _ _ _ _ Hl Hl'). Qed.

Lemma climb_end_root p i l r : climb p i l r → p r = r.
Proof. induction 1; done. Qed.

Lemma root_in_root p i r : root_in p i r → p r = r.
Proof. intros [l Hl]. by eapply climb_end_root. Qed.

Lemma root_in_self p r : p r = r → root_in p r r.
Proof. intros. exists []. by constructor. Qed.

Lemma root_in_step p i r : p i ≠ i → root_in p (p i) r → root_in p i r.
Proof. intros Hi [l Hl]. exists (i :: l). by constructor. Qed.

Lemma root_in_inv p i r :
  root_in p i r → (p i = i ∧ r = i) ∨ (p i ≠ i ∧ root_in p (p i) r).
Proof.
  intros [l Hl]. inversion Hl; subst; [by left|]. right. split; [done|]. by eexists.
Qed.

Lemma root_in_of_root p r s : p r = r → root_in p r s → s = r.
Proof. intros Hr Hs. apply root_in_inv in Hs as [[_ ->]|[? _]]; done. Qed.

Lemma root_in_ind' (p : T → T) (P : T → T → Prop) :
  (∀ r, p r = r → P r r) →
  (∀ i r, p i ≠ i → root_in p (p i) r → P (p i) r → P i r) →
  ∀ i r, root_in p i r → P i r.
Proof.
  intros Hroot Hstep i r [l Hl].
  induction Hl; [by apply Hroot|]. apply Hstep; [done| by eexists |done].
Qed.

(** A key met on the way is followed by a suffix of the same chain. *)
Lemma climb_from_member p i l r j :
  climb p i l r → j ∈ l → ∃ l1 l2, l = l1 ++ l2 ∧ climb p j l2 r.
Proof.
  induction 1 as [r Hr|i l r Hi Hc IH]; intros Hj.
  - by apply elem_of_nil in Hj.
  - apply elem_of_cons in Hj as [->|Hj].
    + exists [], (i :: l). split; [done|]. by constructor.
    + destruct (IH Hj) as (l1 & l2 & -> & Hc2).
      exists (i :: l1), l2. done.
Qed.

Lemma climb_NoDup p i l r : climb p i l r → NoDup l.
Proof.
  induction 1 as [r Hr|i l r Hi Hc IH]; [constructor|].
  constructor; [|done]. intros Hin.
  destruct (climb_from_member _ _ _ _ _ Hc Hin) as (l1 & l2 & Hl & Hc2).
  assert (Hc3 : climb p i (i :: l) r) by by constructor.
  destruct (climb_det _ _ _ _ _ _ Hc2 Hc3) as [-> _].
  apply (f_equal length) in Hl. rewrite length_app in Hl. simpl in Hl. lia.
Qed.

(** *** Redirecting one parent link *)

Definition redirects (p p' : T → T) (i v : T) : Prop :=
  ∀ j, p' j = if decide (j = i) then v else p j.

(** Path compression: pointing a non-root key at its own root. *)
Lemma root_in_compress p p' i r :
  redirects p p' i r → root_in p i r → p i ≠ i →
  ∀ j s, root_in p' j s ↔ root_in p j s.
Proof.
  intros Hp' Hir Hi.
  assert (Hr : p r = r) by by eapply root_in_root.
  assert (Hne : r ≠ i) by congruence.
  assert (Hr' : p' r = r) by (rewrite Hp'; by case_decide).
  intros j s. split.
  - revert j s. apply root_in_ind'.
    + intros j Hj. rewrite Hp' in Hj. case_decide; [congruence|].
      by apply root_in_self.
    + intros j s Hj Hs IH. rewrite Hp' in Hj, IH, Hs. case_decide as Hji.
      * subst j. apply root_in_of_root in IH as ->; done.
      * by apply root_in_step.
  - revert j s. apply root_in_ind'.
    + intros j Hj. apply root_in_self. rewrite Hp'. case_decide; congruence.
    + intros j s Hj Hs IH. destruct (decide (j = i)) as [->|Hji].
      * assert (s = r) as ->.
        { eapply root_in_det; [|exact Hir]. by apply root_in_step. }
        apply root_in_step; rewrite Hp'; case_decide; try done.
        by apply root_in_self.
      * apply root_in_step; rewrite Hp'; case_decide; done.
Qed.

(** Linking the root [x] below the root [y]. *)
Lemma root_in_link p p' x y :
  redirects p p' x y → p x = x → p y = y → x ≠ y →
  ∀ j s, root_in p' j s ↔
         (root_in p j s ∧ s ≠ x) ∨ (root_in p j x ∧ s = y).
Proof.
  intros Hp' Hx Hy Hxy.
  assert (Hy' : p' y = y) by (rewrite Hp'; by case_decide).
  assert (Hx' : p' x = y) by (rewrite Hp'; by case_decide).
  intros j s. split.
  - revert j s. apply root_in_ind'.
    + intros j Hj. rewrite Hp' in Hj. case_decide; [congruence|].
      left. split; [by apply root_in_self | done].
    + intros j s Hj Hs IH. rewrite Hp' in Hj, IH, Hs. case_decide as Hjx.
      * subst j. right. split; [by apply root_in_self|].
        destruct IH as [[Hys _]|[Hyx _]].
        -- by apply root_in_of_root in Hys.
        -- apply root_in_of_root in Hyx; done.
      * destruct IH as [[Hys Hsx]|[Hyx ->]].
        -- left. split; [by apply root_in_step | done].
        -- right. split; [by apply root_in_step | done].
  - intros [[Hjs Hsx]|[Hjx ->]].
    + revert Hsx. revert j s Hjs. refine (root_in_ind' p _ _ _).
      * intros r Hr Hrx. apply root_in_self. rewrite Hp'. by case_decide.
      * intros j s Hj Hs IH Hsx.
        assert (j ≠ x) by congruence.
        apply root_in_step; rewrite Hp'; case_decide; try done. by apply IH.
    + remember x as x0 eqn:Hx0 in Hjx. revert Hx0. revert j x0 Hjx.
      refine (root_in_ind' p _ _ _).
      * intros r Hr ->. apply root_in_step; [congruence|].
        rewrite Hx'. by apply root_in_self.
      * intros j s Hj Hs IH ->.
        assert (j ≠ x) by congruence.
        apply root_in_step; rewrite Hp'; case_decide; try done. by apply IH.
Qed.

(** [InitKey]: making [k] a root of its own. *)
Lemma root_in_reset p p' k :
  redirects p p' k k → ∀ j r, root_in p j r → ∃ r', root_in p' j r'.
Proof.
  intros Hp'. apply (root_in_ind' p (λ j _, ∃ r', root_in p' j r')).
  - intros r Hr. exists r. apply root_in_self. rewrite Hp'. by case_decide.
  - intros j s Hj _ [r' IH]. destruct (decide (j = k)) as [->|Hjk].
    + exists k. apply root_in_self. rewrite Hp'. by case_decide.
    + exists r'. apply root_in_step; rewrite Hp'; case_decide; done.
Qed.
End Climb.

Section Forest.
Context {T : Type} `{Countable T}.
Variable zero : T.

Abbreviation UnionFind := (@UnionFind T _ _).
Abbreviation parent_of := (parent_of zero).
Abbreviation FindSet_rec := (FindSet_rec zero).
Abbreviation FindSet := (FindSet zero).
Abbreviation UnionSet := (UnionSet zero).
Abbreviation IsSameSet := (IsSameSet zero).

Implicit Types (uf : UnionFind) (i j k r s x y : T).

(** [root_of uf i r]: [r] is the root that the parent links lead to
    from [i]. *)
Definition root_of uf i r : Prop := root_in (parent_of uf) i r.

Definition same_set uf a b : Prop := ∃ r, root_of uf a r ∧ root_of uf b r.

(** Well-formed forests: every chain of parent links ends in a root,
    stored parents are registered keys or the zero key, and the counter
    is a Go [int]. *)
Record uf_wf uf : Prop := {
  wf_total : ∀ i, ∃ r, root_of uf i r;
  wf_closed : ∀ i v, parent uf !! i = Some v → v ∈ dom (parent uf) ∨ v = zero;
  wf_count : in_int_range (numSets uf)
}.

(** What a [FindSet] may change: parent links, never the partition. *)
Record same_forest uf uf' : Prop := {
  sf_rank : rank uf' = rank uf;
  sf_size : size uf' = size uf;
  sf_numSets : numSets uf' = numSets uf;
  sf_preferred : isPreferredParent uf' = isPreferredParent uf;
  sf_roots : ∀ j s, root_of uf' j s ↔ root_of uf j s
}.

Lemma same_forest_refl uf : same_forest uf uf.
Proof. by split. Qed.

Lemma same_forest_trans uf1 uf2 uf3 :
  same_forest uf1 uf2 → same_forest uf2 uf3 → same_forest uf1 uf3.
Proof.
  intros [] []. split; try congruence.
  intros j s. etrans; eauto.
Qed.

Lemma same_forest_is_root uf uf' i :
  same_forest uf uf' → parent_of uf' i = i ↔ parent_of uf i = i.
Proof.
  intros Hsf. split; intros Hi.
  - apply root_in_self in Hi. apply Hsf in Hi. apply root_in_inv in Hi.
    destruct Hi as [[? _]|[? Hi]]; [done|].
    apply root_in_root in Hi. done.
  - apply root_in_self in Hi. apply Hsf in Hi. apply root_in_inv in Hi.
    destruct Hi as [[? _]|[? Hi]]; [done|].
    apply root_in_root in Hi. done.
Qed.

Lemma same_forest_preferred uf uf' i :
  same_forest uf uf' → preferred uf' i = preferred uf i.
Proof. intros []. unfold preferred. congruence. Qed.

Lemma same_forest_rank_of uf uf' i :
  same_forest uf uf' → rank_of uf' i = rank_of uf i.
Proof. intros []. unfold rank_of. congruence. Qed.

Lemma parent_of_set_parent uf i v :
  redirects (parent_of uf) (parent_of (set_parent uf i v)) i v.
Proof.
  intros j. unfold UF.parent_of. simpl. rewrite lookup_insert.
  repeat case_decide; simplify_eq; done.
Qed.

Lemma parent_of_registered uf i :
  parent_of uf i ≠ zero → i ∈ dom (parent uf).
Proof.
  unfold UF.parent_of. intros Hi. apply elem_of_dom.
  destruct (parent uf !! i); [by eexists | done].
Qed.

Lemma parent_of_closed uf i :
  uf_wf uf → parent_of uf i ∈ dom (parent uf) ∨ parent_of uf i = zero.
Proof.
  intros Hwf. unfold UF.parent_of.
  destruct (parent uf !! i) as [v|] eqn:Hv; simpl; [|by right].
  by eapply wf_closed.
Qed.

Lemma root_registered uf r :
  parent_of uf r = r → r ∈ dom (parent uf) ∨ r = zero.
Proof.
  intros Hr. destruct (decide (r = zero)); [by right|left].
  apply parent_of_registered. congruence.
Qed.

Lemma root_of_registered uf i r :
  root_of uf i r → r ∈ dom (parent uf) ∨ r = zero.
Proof. intros Hr. apply root_registered. by eapply root_in_root. Qed.

(** Every key of a chain after its first one is a key of the map. *)
Lemma climb_registered uf i l r :
  uf_wf uf → climb (parent_of uf) i l r →
  ∀ x, x ∈ l → x = i ∨ x ∈ dom (parent uf).
Proof.
  intros Hwf. induction 1 as [r Hr|i l r Hi Hc IH]; intros x Hx.
  - by apply elem_of_nil in Hx.
  - apply elem_of_cons in Hx as [->|Hx]; [by left|right].
    destruct (IH _ Hx) as [->|]; [|done].
    inversion Hc as [|? ? ? Hpi]; subst; [by apply elem_of_nil in Hx|].
    destruct (parent_of_closed uf i Hwf) as [|Hz]; [done|].
    apply parent_of_registered. congruence.
Qed.

Lemma climb_length uf i l r :
  uf_wf uf → climb (parent_of uf) i l r → (length l < max_depth uf)%nat.
Proof.
  intros Hwf Hc. unfold max_depth.
  destruct l as [|i0 l]; simpl; [lia|].
  assert (i0 = i) as -> by by inversion Hc.
  pose proof (climb_NoDup _ _ _ _ Hc) as Hnd.
  apply NoDup_cons in Hnd as [Hi Hnd].
  assert (Hsub : l ⊆+ elements (dom (parent uf))).
  { apply NoDup_submseteq; [done|]. intros x Hx. apply elem_of_elements.
    destruct (climb_registered _ _ _ _ Hwf Hc x) as [->|]; [set_solver|done|done]. }
  apply submseteq_length in Hsub.
  change (length (elements (dom (parent uf)))) with (base.size (dom (parent uf))) in Hsub.
  rewrite size_dom in Hsub. lia.
Qed.

Lemma FindSet_rec_spec uf i l r depth :
  climb (parent_of uf) i l r → (length l < depth)%nat →
  ∃ uf', FindSet_rec depth uf i = Some (uf', r) ∧
         same_forest uf uf' ∧
         dom (parent uf') = dom (parent uf) ∪ list_to_set l ∧
         (∀ j v, parent uf' !! j = Some v → parent uf !! j = Some v ∨ v = r) ∧
         (parent_of uf i ≠ i → parent uf' !! i = Some r).
Proof.
  intros Hc. revert depth.
  induction Hc as [r Hr|i l r Hi Hc IH]; intros [|depth] Hlen; simpl in *; try lia.
  - exists uf. rewrite decide_False by (intros ?; done). simpl. rewrite Hr.
    split_and!; [done|apply same_forest_refl|set_solver|auto|done].
  - rewrite decide_True by done.
    destruct (IH depth) as (uf1 & -> & Hsf & Hdom & Hval & _); [lia|]. simpl.
    pose proof (parent_of_set_parent uf1 i r) as Hred.
    assert (Hir1 : root_of uf1 i r).
    { apply Hsf. apply root_in_step; [done|by eexists]. }
    assert (Hi1 : parent_of uf1 i ≠ i).
    { intros Hi1. by apply (same_forest_is_root _ _ _ Hsf) in Hi1. }
    exists (set_parent uf1 i r). split_and!.
    + f_equal. f_equal. rewrite (Hred i). by rewrite decide_True.
    + destruct Hsf. split; simpl; try done.
      intros j s. rewrite <- sf_roots0.
      by apply (root_in_compress _ _ _ _ Hred).
    + simpl. rewrite dom_insert_L, Hdom. set_solver.
    + simpl. intros j v. rewrite lookup_insert. case_decide.
      * intros [= <-]. by right.
      * apply Hval.
    + intros _. simpl. apply lookup_insert_eq.
Qed.

(** How far the parent map may change: the keys it may gain and the
    parents it may newly store. *)
Record links_within uf uf' (keys vals : gset T) : Prop := {
  lw_keep : dom (parent uf) ⊆ dom (parent uf');
  lw_keys : dom (parent uf') ⊆ dom (parent uf) ∪ keys;
  lw_vals : ∀ j v, parent uf' !! j = Some v →
                   parent uf !! j = Some v ∨ v ∈ vals
}.

Lemma links_within_trans uf1 uf2 uf3 K1 V1 K2 V2 :
  links_within uf1 uf2 K1 V1 → links_within uf2 uf3 K2 V2 →
  links_within uf1 uf3 (K1 ∪ K2) (V1 ∪ V2).
Proof.
  intros [] []. split.
  - by etrans.
  - clear -lw_keys0 lw_keys1. set_solver.
  - intros j v Hv. destruct (lw_vals1 _ _ Hv) as [Hv'|]; [|right; set_solver].
    destruct (lw_vals0 _ _ Hv'); [by left|right; set_solver].
Qed.

Lemma links_within_wf_closed uf uf' K V :
  uf_wf uf → links_within uf uf' K V →
  (∀ v, v ∈ V → parent_of uf v = v) →
  ∀ i v, parent uf' !! i = Some v → v ∈ dom (parent uf') ∨ v = zero.
Proof.
  intros Hwf [] HV i v Hv. destruct (lw_vals0 _ _ Hv) as [Hold|Hnew].
  - destruct (wf_closed _ Hwf _ _ Hold); [left; set_solver|by right].
  - destruct (root_registered uf v (HV _ Hnew)); [left; set_solver|by right].
Qed.

Lemma FindSet_spec uf i :
  uf_wf uf →
  ∃ uf' r, FindSet uf i = Some (uf', r) ∧ root_of uf i r ∧
           same_forest uf uf' ∧ uf_wf uf' ∧
           links_within uf uf' {[i]} {[r]} ∧
           (parent_of uf i ≠ i → parent uf' !! i = Some r).
Proof.
  intros Hwf. destruct (wf_total _ Hwf i) as [r [l Hc]].
  destruct (FindSet_rec_spec uf i l r (max_depth uf) Hc)
    as (uf' & Hf & Hsf & Hdom & Hval & Hrec).
  { by eapply climb_length. }
  assert (Hlw : links_within uf uf' {[i]} {[r]}).
  { split; [set_solver| |].
    - rewrite Hdom. intros x. rewrite elem_of_union, elem_of_list_to_set.
      intros [?|Hx]; [set_solver|].
      destruct (climb_registered _ _ _ _ Hwf Hc x Hx) as [->|]; set_solver.
    - intros j v Hv. destruct (Hval _ _ Hv); [by left|right; set_solver]. }
  exists uf', r. split_and!; [done|by exists l|done| |done|done].
  split.
  - intros j. destruct (wf_total _ Hwf j) as [s Hs]. exists s. by apply Hsf.
  - eapply links_within_wf_closed; [done..|].
    intros v ->%elem_of_singleton. by eapply climb_end_root.
  - destruct Hsf as [_ _ -> _ _]. apply Hwf.
Qed.

(** *** Union *)

(** The root that survives [UnionSet] when [xRoot ≠ yRoot]. *)
Definition survivor uf xRoot yRoot : T :=
  if preferred uf xRoot && negb (preferred uf yRoot) then xRoot
  else if preferred uf yRoot && negb (preferred uf xRoot) then yRoot
  else if bool_decide (rank_of uf xRoot > rank_of uf yRoot) then xRoot
  else yRoot.

Definition absorbed uf xRoot yRoot : T :=
  if decide (survivor uf xRoot yRoot = xRoot) then yRoot else xRoot.

Lemma survivor_cases uf rx ry :
  rx ≠ ry →
  (survivor uf rx ry = rx ∧ absorbed uf rx ry = ry) ∨
  (survivor uf rx ry = ry ∧ absorbed uf rx ry = rx).
Proof.
  intros Hne. unfold absorbed. case_decide as Hs; [by left|right].
  split; [|done]. unfold survivor in *.
  repeat (case_match; try done).
Qed.

Lemma root_of_parent_eq uf uf' :
  parent uf' = parent uf → ∀ j s, root_of uf' j s ↔ root_of uf j s.
Proof.
  intros Hp j s. unfold root_of.
  assert (Hf : ∀ k, UF.parent_of zero uf' k = UF.parent_of zero uf k)
    by (intros k; unfold UF.parent_of; by rewrite Hp).
  split; revert j s; apply root_in_ind'; intros.
  - apply root_in_self. congruence.
  - rewrite ?Hf in *. apply root_in_step; [congruence|done].
  - apply root_in_self. congruence.
  - rewrite <- ?Hf in *. apply root_in_step; [congruence|done].
Qed.

(** The state [UnionSet uf x y] ends in when the roots are distinct:
    the link of [absorbed] below [survivor], whatever the bookkeeping. *)
Definition linked uf uf' l w : Prop :=
  parent uf' = <[l := w]> (parent uf) ∧
  isPreferredParent uf' = isPreferredParent uf ∧
  numSets uf' = wrap_int (numSets uf - 1).

Lemma linked_roots uf uf' l w :
  linked uf uf' l w → parent_of uf l = l → parent_of uf w = w → l ≠ w →
  ∀ j s, root_of uf' j s ↔
         (root_of uf j s ∧ s ≠ l) ∨ (root_of uf j l ∧ s = w).
Proof.
  intros (Hp & _ & _) Hl Hw Hlw j s.
  etrans; [apply (root_of_parent_eq (set_parent uf l w) uf'); by rewrite Hp|].
  apply root_in_link; [apply parent_of_set_parent|done..].
Qed.

Lemma UnionSet_spec uf x y :
  uf_wf uf →
  ∃ uf' rx ry,
    UnionSet uf x y = Some uf' ∧ root_of uf x rx ∧ root_of uf y ry ∧
    uf_wf uf' ∧
    links_within uf uf' {[x; y; rx; ry]} {[rx; ry]} ∧
    isPreferredParent uf' = isPreferredParent uf ∧
    (rx = ry → same_forest uf uf') ∧
    (rx ≠ ry →
     numSets uf' = wrap_int (numSets uf - 1) ∧
     ∀ j s, root_of uf' j s ↔
            (root_of uf j s ∧ s ≠ absorbed uf rx ry) ∨
            (root_of uf j (absorbed uf rx ry) ∧ s = survivor uf rx ry)).
Proof.
  intros Hwf.
  destruct (FindSet_spec uf x Hwf) as (uf1 & rx & Hf1 & Hrx & Hsf1 & Hwf1 & Hlw1 & _).
  destruct (FindSet_spec uf1 y Hwf1) as (uf2 & ry & Hf2 & Hry & Hsf2 & Hwf2 & Hlw2 & _).
  pose proof (same_forest_trans _ _ _ Hsf1 Hsf2) as Hsf.
  pose proof (links_within_trans _ _ _ _ _ _ _ Hlw1 Hlw2) as Hlw.
  apply Hsf1 in Hry.
  assert (Hrx_root : parent_of uf rx = rx) by by eapply root_in_root.
  assert (Hry_root : parent_of uf ry = ry) by by eapply root_in_root.
  destruct (decide (rx = ry)) as [Heq|Hne].
  { exists uf2, rx, ry. split_and!; try done.
    - unfold UF.UnionSet. rewrite Hf1. simpl. rewrite Hf2. simpl.
      by rewrite decide_True.
    - destruct Hlw. split; [done|clear -lw_keys0; set_solver|].
      intros j v Hv. destruct (lw_vals0 _ _ Hv) as [|Hv']; [by left|right].
      clear -Hv'. set_solver.
    - by destruct Hsf. }
  (* distinct roots: every branch links [absorbed] below [survivor] *)
  set (w := survivor uf rx ry). set (l := absorbed uf rx ry).
  assert (Hlink : ∃ uf',
    (let uf := set_numSets uf2 (wrap_int (numSets uf2 - 1)) in
     if preferred uf rx && negb (preferred uf ry)
     then Some (attach uf ry rx)
     else if preferred uf ry && negb (preferred uf rx)
     then Some (attach uf rx ry)
     else if bool_decide (rank_of uf rx > rank_of uf ry)
     then Some (attach uf ry rx)
     else let uf1 := attach uf rx ry in
          if bool_decide (rank_of uf1 rx = rank_of uf1 ry)
          then Some (set_rank uf1 ry (wrap_int (rank_of uf1 ry + 1)))
          else Some uf1) = Some uf' ∧ linked uf2 uf' l w).
  { subst w l. unfold absorbed, survivor.
    rewrite <- !(same_forest_preferred uf uf2) by done.
    rewrite <- !(same_forest_rank_of uf uf2) by done.
    cbn zeta.
    change (preferred (set_numSets uf2 ?v)) with (preferred uf2).
    change (rank_of (set_numSets uf2 ?v)) with (rank_of uf2).
    destruct (preferred uf2 rx && negb (preferred uf2 ry)) eqn:E1.
    { rewrite decide_True by done. eexists; split; [done|]. by split. }
    destruct (preferred uf2 ry && negb (preferred uf2 rx)) eqn:E2.
    { rewrite decide_False by done. eexists; split; [done|]. by split. }
    destruct (bool_decide (rank_of uf2 rx > rank_of uf2 ry)) eqn:E3.
    { rewrite decide_True by done. eexists; split; [done|]. by split. }
    rewrite decide_False by done.
    case_match; eexists; (split; [done|]); by split. }
  destruct Hlink as (uf3 & Htail & Hlinked).
  exists uf3, rx, ry.
  assert (Hrun : UnionSet uf x y = Some uf3).
  { rewrite <- Htail. unfold UF.UnionSet. rewrite Hf1. simpl. rewrite Hf2. simpl.
    by rewrite decide_False. }
  assert (Hrx2 : parent_of uf2 rx = rx) by by apply (same_forest_is_root uf).
  assert (Hry2 : parent_of uf2 ry = ry) by by apply (same_forest_is_root uf).
  assert (Hlw_cases : (w = rx ∧ l = ry) ∨ (w = ry ∧ l = rx))
    by by apply survivor_cases.
  assert (Hl2 : parent_of uf2 l = l) by (destruct Hlw_cases as [[_ ->]|[_ ->]]; done).
  assert (Hw2 : parent_of uf2 w = w) by (destruct Hlw_cases as [[-> _]|[-> _]]; done).
  assert (Hlw_ne : l ≠ w) by (destruct Hlw_cases as [[-> ->]|[-> ->]]; done).
  assert (Hwdef : w = survivor uf rx ry) by done.
  assert (Hldef : l = absorbed uf rx ry) by done.
  clearbody l w.
  pose proof (linked_roots _ _ _ _ Hlinked Hl2 Hw2 Hlw_ne) as Hroots.
  assert (Hlw3 : links_within uf uf3 {[x; y; rx; ry]} {[rx; ry]}).
  { destruct Hlinked as (Hp & _ & _). destruct Hlw. split.
    - rewrite Hp, dom_insert_L. clear -lw_keep0. set_solver.
    - rewrite Hp, dom_insert_L.
      destruct Hlw_cases as [[_ Hl]|[_ Hl]]; clear -lw_keys0 Hl; set_solver.
    - intros j v. rewrite Hp, lookup_insert. case_decide.
      + intros [= <-]. right.
        destruct Hlw_cases as [[Hw _]|[Hw _]]; clear -Hw; set_solver.
      + intros Hv. destruct (lw_vals0 _ _ Hv) as [|Hv']; [by left|right].
        clear -Hv'. set_solver. }
  split_and!; try done.
  - split.
    + intros j. destruct (wf_total _ Hwf2 j) as [s Hs].
      destruct (decide (s = l)) as [->|Hsl].
      * exists w. apply Hroots. by right.
      * exists s. apply Hroots. by left.
    + eapply links_within_wf_closed; [exact Hwf|exact Hlw3|].
      intros v. rewrite elem_of_union, !elem_of_singleton. by intros [->| ->].
    + destruct Hlinked as (_ & _ & ->). apply wrap_int_range.
  - destruct Hlinked as (_ & -> & _). by destruct Hsf.
  - intros _. split.
    + destruct Hlinked as (_ & _ & ->). by destruct Hsf as [_ _ -> _ _].
    + intros j s. rewrite Hroots. destruct Hsf as [_ _ _ _ Hr].
      rewrite <- Hldef, <- Hwdef.
      split; (intros [[? ?]|[? ?]]; [left|right]; (split; [by apply Hr|done])).
Qed.

(** *** Construction and bookkeeping preserve well-formedness *)

Lemma NewUnionFind_wf : uf_wf NewUnionFind.
Proof.
  assert (Hp : ∀ i, parent_of NewUnionFind i = zero).
  { intros i. unfold UF.parent_of. simpl. by rewrite lookup_empty. }
  split.
  - intros i. exists zero. destruct (decide (i = zero)) as [->|Hi].
    + by apply root_in_self.
    + apply root_in_step; rewrite Hp; [done|]. by apply root_in_self.
  - intros i v. simpl. by rewrite lookup_empty.
  - unfold in_int_range, int_min, int_max. simpl. lia.
Qed.

Lemma parent_of_InitKey uf k :
  redirects (parent_of uf) (parent_of (InitKey uf k)) k k.
Proof. apply (parent_of_set_parent uf k k). Qed.

Lemma InitKey_wf uf k : uf_wf uf → uf_wf (InitKey uf k).
Proof.
  intros Hwf. split.
  - intros i. destruct (wf_total _ Hwf i) as [r Hr].
    eapply root_in_reset; [apply parent_of_InitKey|done].
  - intros i v. simpl. rewrite dom_insert_L, lookup_insert. case_decide.
    + intros [= <-]. left. set_solver.
    + intros Hv. destruct (wf_closed _ Hwf _ _ Hv); [left; set_solver|by right].
  - apply wrap_int_range.
Qed.

Lemma MarkAsParent_roots uf key j s :
  root_of (MarkAsParent uf key) j s ↔ root_of uf j s.
Proof. by apply root_of_parent_eq. Qed.

Lemma MarkAsParent_wf uf key : uf_wf uf → uf_wf (MarkAsParent uf key).
Proof.
  intros [Ht Hc Hn]. split; [|done..].
  intros i. destruct (Ht i) as [r Hr]. exists r. by apply MarkAsParent_roots.
Qed.

Lemma preferred_MarkAsParent uf key k :
  preferred (MarkAsParent uf key) k = if decide (k = key) then true else preferred uf k.
Proof.
  unfold preferred. simpl. rewrite lookup_insert.
  repeat case_decide; simplify_eq; done.
Qed.

(** *** Sets *)

Lemma root_of_det uf i r r' : root_of uf i r → root_of uf i r' → r = r'.
Proof. apply root_in_det. Qed.

Lemma same_set_refl uf a : uf_wf uf → same_set uf a a.
Proof. intros Hwf. destruct (wf_total _ Hwf a) as [r Hr]. by exists r. Qed.

Lemma same_set_sym uf a b : same_set uf a b → same_set uf b a.
Proof. intros (r & ? & ?). by exists r. Qed.

Lemma same_set_trans uf a b c : same_set uf a b → same_set uf b c → same_set uf a c.
Proof.
  intros (r & Ha & Hb) (r' & Hb' & Hc).
  rewrite (root_of_det _ _ _ _ Hb Hb') in Ha. by exists r'.
Qed.

Lemma same_set_root uf a b r : root_of uf a r → same_set uf a b ↔ root_of uf b r.
Proof.
  intros Ha. split.
  - intros (r' & Ha' & Hb). by rewrite (root_of_det _ _ _ _ Ha Ha').
  - intros Hb. by exists r.
Qed.

Lemma same_forest_same_set uf uf' a b :
  same_forest uf uf' → same_set uf' a b ↔ same_set uf a b.
Proof.
  intros [_ _ _ _ Hr]. unfold same_set. by setoid_rewrite Hr.
Qed.

(** [UnionSet x y] merges the set of [x] with the set of [y] and
    nothing else. *)
Definition merged (E : relation T) (x y : T) : relation T :=
  λ a b, E a b ∨ (E a x ∧ E y b) ∨ (E a y ∧ E x b).

Ltac unify_roots :=
  repeat match goal with
  | H1 : root_of ?uf ?i ?r, H2 : root_of ?uf ?i ?r' |- _ =>
      assert (r = r') by exact (root_of_det _ _ _ _ H1 H2);
      clear H2; simplify_eq
  end.

Lemma UnionSet_same_set uf x y :
  uf_wf uf →
  ∃ uf', UnionSet uf x y = Some uf' ∧ uf_wf uf' ∧
         ∀ a b, same_set uf' a b ↔ merged (same_set uf) x y a b.
Proof.
  intros Hwf.
  destruct (UnionSet_spec uf x y Hwf)
    as (uf' & rx & ry & Hrun & Hrx & Hry & Hwf' & _ & _ & Heq & Hne).
  exists uf'. split_and!; [done..|]. intros a b. unfold merged.
  destruct (wf_total _ Hwf a) as [ra Ha]. destruct (wf_total _ Hwf b) as [rb Hb].
  rewrite !(same_set_root uf a _ ra) by done.
  rewrite (same_set_root uf y b ry), (same_set_root uf x b rx) by done.
  destruct (decide (rx = ry)) as [Hxy|Hxy].
  { rewrite (same_forest_same_set uf uf') by auto.
    rewrite (same_set_root uf a b ra) by done. subst ry. split; [by left|].
    intros [?|[[Hax Hb']|[Hax Hb']]]; by unify_roots. }
  destruct (Hne Hxy) as [_ Hroots].
  assert (Hto : ∀ j rj, root_of uf j rj →
              root_of uf' j (if decide (rj = absorbed uf rx ry)
                             then survivor uf rx ry else rj)).
  { intros j rj Hj. apply Hroots. case_decide; subst; [by right|by left]. }
  split.
  - intros (s & Has & Hbs). apply Hroots in Has, Hbs.
    destruct (survivor_cases uf rx ry Hxy) as [[Hw Hl]|[Hw Hl]];
      rewrite Hw, Hl in *;
      destruct Has as [[Has ?]|[Has ->]], Hbs as [[Hbs ?]|[Hbs ?]];
      unify_roots; auto.
  - intros Hcase.
    exists (if decide (ra = absorbed uf rx ry) then survivor uf rx ry else ra).
    split; [by apply Hto|].
    destruct (survivor_cases uf rx ry Hxy) as [[Hw Hl]|[Hw Hl]];
      rewrite Hw, Hl in *;
      destruct Hcase as [Hb'|[[Hax Hb']|[Hay Hb']]]; unify_roots;
      specialize (Hto _ _ Hb); repeat case_decide; simplify_eq; done.
Qed.
End Forest.
End UFFacts.

(** ** Sequences of union-find calls *)

Section Closure.
Context {A : Type}.

(** The pairs handed to [UnionSet], as a relation, and its reflexive,
    symmetric and transitive closure. *)
Definition unioned (pairs : list (A * A)) : relation A := λ a b, (a, b) ∈ pairs.
Definition connected (pairs : list (A * A)) : relation A := rtsc (unioned pairs).

Lemma rtsc_pointwise (R R' : relation A) a b :
  (∀ u v, R u v ↔ R' u v) → rtsc R a b ↔ rtsc R' a b.
Proof.
  intros HR. unfold rtsc.
  split; apply rtc_subrel; intros u v [?|?]; (left + right); by apply HR.
Qed.

Lemma merged_step (E : relation A) `{!Equivalence E} x y a c b :
  E a c → UFFacts.merged E x y c b → UFFacts.merged E x y a b.
Proof.
  intros Hac [?|[[? ?]|[? ?]]]; unfold UFFacts.merged.
  - left. by etrans.
  - right; left. split; [by etrans|done].
  - right; right. split; [by etrans|done].
Qed.

Lemma rtsc_merged (R : relation A) x y a b :
  rtsc (λ u v, R u v ∨ (u = x ∧ v = y)) a b ↔
  UFFacts.merged (rtsc R) x y a b.
Proof.
  split.
  - induction 1 as [a|a c b Hac _ IH]; [by left|].
    destruct Hac as [[Hac|[-> ->]]|[Hca|[-> ->]]].
    + eapply merged_step; [apply _|by apply rtsc_lr|done].
    + destruct IH as [?|[[? ?]|[? ?]]].
      * right; left. done.
      * left. etrans; [symmetry|]; done.
      * by left.
    + eapply merged_step; [apply _|by apply rtsc_rl|done].
    + destruct IH as [?|[[? ?]|[? ?]]].
      * right; right. done.
      * by left.
      * left. etrans; [symmetry|]; done.
  - assert (Hsub : ∀ u v, rtsc R u v → rtsc (λ u v, R u v ∨ u = x ∧ v = y) u v).
    { intros u v. apply rtc_subrel. intros ? ? [?|?]; [left|right]; by left. }
    assert (Hxy : rtsc (λ u v, R u v ∨ u = x ∧ v = y) x y).
    { apply rtsc_lr. by right. }
    intros [?|[[? ?]|[? ?]]].
    + by apply Hsub.
    + etrans; [by apply Hsub|]. etrans; [exact Hxy|]. by apply Hsub.
    + etrans; [by apply Hsub|]. etrans; [symmetry; exact Hxy|]. by apply Hsub.
Qed.

Lemma connected_snoc pairs x y a b :
  connected (pairs ++ [(x, y)]) a b ↔
  UFFacts.merged (connected pairs) x y a b.
Proof.
  unfold connected. rewrite <- rtsc_merged. apply rtsc_pointwise.
  intros u v. unfold unioned. rewrite elem_of_app, list_elem_of_singleton.
  naive_solver.
Qed.

Lemma connected_nil a b : connected [] a b ↔ a = b.
Proof.
  split; [|by intros ->].
  induction 1 as [|? ? ? [Hin|Hin]]; [done|..]; by apply elem_of_nil in Hin.
Qed.
End Closure.

Module UFSeq.
Import UF UFFacts.
Section Sequences.
Context {T : Type} `{Countable T}.
Variable zero : T.

Abbreviation UnionFind := (@UnionFind T _ _).
Abbreviation parent_of := (parent_of zero).
Abbreviation FindSet := (FindSet zero).
Abbreviation UnionSet := (UnionSet zero).
Abbreviation UnionAll := (UnionAll zero).
Abbreviation IsSameSet := (IsSameSet zero).
Abbreviation root_of := (root_of zero).
Abbreviation same_set := (same_set zero).
Abbreviation uf_wf := (uf_wf zero).

Implicit Types (uf : UnionFind) (i j k r s x y : T).

Lemma InitKeys_wf uf ids : uf_wf uf → uf_wf (InitKeys uf ids).
Proof.
  revert uf. induction ids as [|k ids IH]; intros uf Hwf; [done|].
  simpl. apply IH. by apply InitKey_wf.
Qed.

Lemma InitKeys_parent uf ids k :
  parent (InitKeys uf ids) !! k =
  if decide (k ∈ ids) then Some k else parent uf !! k.
Proof.
  revert uf. induction ids as [|k' ids IH]; intros uf.
  - case_decide as Hk; [by apply elem_of_nil in Hk|done].
  - change (InitKeys uf (k' :: ids)) with (InitKeys (InitKey uf k') ids).
    rewrite IH. simpl. rewrite lookup_insert.
    repeat case_decide; simplify_eq; try done; set_solver.
Qed.

Lemma InitKeys_root uf ids k : k ∈ ids → root_of (InitKeys uf ids) k k.
Proof.
  intros Hk. apply root_in_self. unfold UF.parent_of.
  rewrite InitKeys_parent. by rewrite decide_True.
Qed.

Lemma InitKeys_dom uf ids :
  dom (parent (InitKeys uf ids)) = dom (parent uf) ∪ list_to_set ids.
Proof.
  apply set_eq. intros k. rewrite elem_of_dom, InitKeys_parent.
  rewrite elem_of_union, elem_of_list_to_set, elem_of_dom.
  case_decide; [|tauto]. split; [by right|by eexists].
Qed.

Lemma IsSameSet_spec uf a b :
  uf_wf uf →
  ∃ uf' res, IsSameSet uf a b = Some (uf', res) ∧
             (res = true ↔ same_set uf a b) ∧
             uf_wf uf' ∧ same_forest zero uf uf'.
Proof.
  intros Hwf.
  destruct (FindSet_spec zero uf a Hwf) as (uf1 & ra & Hf1 & Hra & Hsf1 & Hwf1 & _).
  destruct (FindSet_spec zero uf1 b Hwf1) as (uf2 & rb & Hf2 & Hrb & Hsf2 & Hwf2 & _).
  exists uf2, (bool_decide (ra = rb)).
  unfold UF.IsSameSet. rewrite Hf1. simpl. rewrite Hf2. simpl.
  split_and!; [done| |done|by eapply same_forest_trans].
  apply Hsf1 in Hrb. rewrite bool_decide_eq_true.
  rewrite (same_set_root zero uf a b ra) by done.
  split; [by intros ->|]. intros Hb. by eapply root_of_det.
Qed.

Lemma UnionAll_connected (ids : list T) uf done pairs :
  uf_wf uf →
  (∀ a b, a ∈ ids → b ∈ ids → same_set uf a b ↔ connected done a b) →
  (∀ x y, (x, y) ∈ pairs → x ∈ ids ∧ y ∈ ids) →
  ∃ uf', UnionAll uf pairs = Some uf' ∧ uf_wf uf' ∧
         ∀ a b, a ∈ ids → b ∈ ids →
                same_set uf' a b ↔ connected (done ++ pairs) a b.
Proof.
  revert uf done. induction pairs as [|[x y] pairs IH]; intros uf done Hwf Hinv Hreg.
  - exists uf. rewrite app_nil_r. done.
  - destruct (UnionSet_same_set zero uf x y Hwf) as (uf1 & Hu & Hwf1 & Hm).
    destruct (Hreg x y) as [Hx Hy]; [set_solver|].
    destruct (IH uf1 (done ++ [(x, y)])) as (uf' & Hrun & Hwf' & Hinv'); [done| |set_solver|].
    { intros a b Ha Hb. rewrite Hm, connected_snoc. unfold merged.
      rewrite !Hinv by done. done. }
    exists uf'. simpl. rewrite Hu. simpl.
    split_and!; [done..|]. intros a b Ha Hb.
    rewrite Hinv' by done. by rewrite <- app_assoc.
Qed.
End Sequences.
End UFSeq.

(** ** The union-find claims *)

Module UFClaims.
Import UF UFFacts UFSeq.
Section Claims.
Context {T : Type} `{Countable T}.
Variable zero : T.

Abbreviation UnionFind := (@UnionFind T _ _).
Abbreviation parent_of := (parent_of zero).
Abbreviation FindSet := (FindSet zero).
Abbreviation UnionSet := (UnionSet zero).
Abbreviation UnionAll := (UnionAll zero).
Abbreviation IsSameSet := (IsSameSet zero).
Abbreviation root_of := (root_of zero).
Abbreviation same_set := (same_set zero).
Abbreviation uf_wf := (uf_wf zero).

Implicit Types (uf : UnionFind) (i j k r s x y : T).

(** The states a client of the package can produce. *)
Inductive reachable : UnionFind → Prop :=
| reach_new : reachable NewUnionFind
| reach_InitKey uf k : reachable uf → reachable (InitKey uf k)
| reach_MarkAsParent uf k : reachable uf → reachable (MarkAsParent uf k)
| reach_FindSet uf i uf' r :
    reachable uf → FindSet uf i = Some (uf', r) → reachable uf'
| reach_UnionSet uf x y uf' :
    reachable uf → UnionSet uf x y = Some uf' → reachable uf'.

Lemma reachable_wf uf : reachable uf → uf_wf uf.
Proof.
  induction 1 as [|uf k _ IH|uf k _ IH|uf i uf' r _ IH Hf|uf x y uf' _ IH Hu].
  - apply NewUnionFind_wf.
  - by apply InitKey_wf.
  - by apply MarkAsParent_wf.
  - destruct (FindSet_spec zero uf i IH) as (uf1 & r1 & Hf1 & _ & _ & Hwf & _).
    by simplify_eq.
  - destruct (UnionSet_spec zero uf x y IH) as (uf1 & ? & ? & Hu1 & _ & _ & Hwf & _).
    by simplify_eq.
Qed.

Lemma reachable_InitKeys uf ids : reachable uf → reachable (InitKeys uf ids).
Proof.
  revert uf. induction ids as [|k ids IH]; intros uf Hr; [done|].
  apply IH. by constructor.
Qed.

Lemma reachable_UnionAll uf pairs uf' :
  reachable uf → UnionAll uf pairs = Some uf' → reachable uf'.
Proof.
  revert uf. induction pairs as [|[x y] pairs IH]; intros uf Hr Hrun; simpl in Hrun.
  - by simplify_eq.
  - destruct (UnionSet uf x y) as [uf1|] eqn:Hu; [|done]. simpl in Hrun.
    eapply IH; [|done]. by econstructor.
Qed.

(** C2. After registering [ids] with [InitKey] and any sequence of
    [UnionSet] calls on registered ids, [FindSet(a) == FindSet(b)] (the
    result of [IsSameSet]) holds exactly when [a] and [b] are connected
    in the reflexive, symmetric and transitive closure of the unioned
    pairs; all the calls return. *)
Theorem UnionFind_connectivity (ids : list T) (pairs : list (T * T)) :
  (∀ x y, (x, y) ∈ pairs → x ∈ ids ∧ y ∈ ids) →
  ∃ uf, UnionAll (InitKeys NewUnionFind ids) pairs = Some uf ∧
        ∀ a b, a ∈ ids → b ∈ ids →
          ∃ uf' res, IsSameSet uf a b = Some (uf', res) ∧
                     (res = true ↔ connected pairs a b).
Proof.
  intros Hreg.
  destruct (UnionAll_connected zero ids (InitKeys NewUnionFind ids) [] pairs)
    as (uf & Hrun & Hwf & Hinv); [| |done|].
  { apply InitKeys_wf, NewUnionFind_wf. }
  { intros a b Ha Hb. rewrite connected_nil.
    rewrite (same_set_root zero _ a b a) by by apply InitKeys_root.
    split; [|intros <-; by apply InitKeys_root].
    intros Hb'. symmetry. eapply root_of_det; [by apply InitKeys_root|done]. }
  exists uf. split; [done|]. intros a b Ha Hb.
  destruct (IsSameSet_spec zero uf a b Hwf) as (uf' & res & Hs & Hres & _).
  exists uf', res. split; [done|]. rewrite Hres. by apply Hinv.
Qed.

(** *** Preferred roots *)

(** No [UnionSet] of the sequence merges the set rooted at [r] with a
    set whose root is flagged too. *)
Fixpoint unflagged_merges (r : T) (uf : UnionFind) (pairs : list (T * T)) : Prop :=
  match pairs with
  | [] => True
  | (x, y) :: pairs' =>
      (∀ rx ry, root_of uf x rx → root_of uf y ry → rx ≠ ry →
                (rx = r → preferred uf ry = false) ∧
                (ry = r → preferred uf rx = false)) ∧
      (∀ uf', UnionSet uf x y = Some uf' → unflagged_merges r uf' pairs')
  end.

Lemma flagged_root_kept uf r pairs :
  uf_wf uf → parent_of uf r = r → preferred uf r = true →
  unflagged_merges r uf pairs →
  ∃ uf', UnionAll uf pairs = Some uf' ∧ uf_wf uf' ∧
         parent_of uf' r = r ∧ preferred uf' r = true ∧
         ∀ m, root_of uf m r → root_of uf' m r.
Proof.
  revert uf. induction pairs as [|[x y] pairs IH]; intros uf Hwf Hr Hflag Hguard.
  { exists uf. done. }
  destruct Hguard as [Hg Hrest].
  destruct (UnionSet_spec zero uf x y Hwf)
    as (uf1 & rx & ry & Hu & Hrx & Hry & Hwf1 & _ & Hpref & Heq & Hne).
  assert (Hkeep : ∀ m, root_of uf m r → root_of uf1 m r).
  { intros m Hm. destruct (decide (rx = ry)) as [Hxy|Hxy].
    { by apply (Heq Hxy). }
    destruct (Hne Hxy) as [_ Hroots]. apply Hroots. left. split; [done|].
    destruct (Hg rx ry Hrx Hry Hxy) as [Hgx Hgy].
    unfold absorbed, survivor.
    destruct (decide (rx = r)) as [->|Hrx'].
    - rewrite Hflag, (Hgx eq_refl). simpl. by rewrite decide_True.
    - destruct (decide (ry = r)) as [->|Hry'].
      + rewrite Hflag, (Hgy eq_refl). simpl. by rewrite decide_False.
      + case_decide; done. }
  assert (Hr1 : parent_of uf1 r = r).
  { eapply (root_in_root _ r). apply Hkeep. by apply root_in_self. }
  assert (Hflag1 : preferred uf1 r = true).
  { unfold preferred in *. by rewrite Hpref. }
  destruct (IH uf1 Hwf1 Hr1 Hflag1 (Hrest _ Hu)) as (uf' & Hrun & Hwf' & Hr' & Hflag' & Hkeep').
  exists uf'. simpl. rewrite Hu. simpl. split_and!; [done..|].
  intros m Hm. by apply Hkeep', Hkeep.
Qed.

(** C3 (as amended). Once [MarkAsParent] has flagged the current root
    [r] of a set, [r] stays the root of that set through every sequence
    of [UnionSet] calls that never merges it with a set whose root is
    flagged as well: the calls return, [r] is still a root, the old
    members still belong to it, and [FindSet] of every member of the
    grown set returns [r]. *)
Theorem preferred_root_survives uf0 r pairs :
  reachable uf0 → parent_of uf0 r = r →
  unflagged_merges r (MarkAsParent uf0 r) pairs →
  ∃ uf', UnionAll (MarkAsParent uf0 r) pairs = Some uf' ∧
         parent_of uf' r = r ∧
         (∀ m, root_of uf0 m r → same_set uf' m r) ∧
         (∀ m, same_set uf' m r → ∃ uf'', FindSet uf' m = Some (uf'', r)).
Proof.
  intros Hreach Hr Hguard. apply reachable_wf in Hreach.
  destruct (flagged_root_kept (MarkAsParent uf0 r) r pairs)
    as (uf' & Hrun & Hwf' & Hr' & _ & Hkeep); [by apply MarkAsParent_wf|done| |done|].
  { rewrite preferred_MarkAsParent. by rewrite decide_True. }
  exists uf'. split_and!; [done..| |].
  - intros m Hm. exists r. split; [|by apply root_in_self].
    apply Hkeep. by apply MarkAsParent_roots.
  - intros m (s & Hm & Hrs).
    apply (root_in_of_root _ _ _ Hr') in Hrs. subst s.
    destruct (FindSet_spec zero uf' m Hwf') as (uf'' & r' & Hf & Hr'' & _).
    exists uf''. by rewrite (root_of_det _ _ _ _ _ Hm Hr'').
Qed.

(** When [r] is the only flagged key, no sequence of unions can meet a
    second flagged root. *)
Lemma only_flag_unflagged_merges uf r pairs :
  uf_wf uf → (∀ k, k ≠ r → preferred uf k = false) →
  unflagged_merges r uf pairs.
Proof.
  revert uf. induction pairs as [|[x y] pairs IH]; intros uf Hwf Honly; [done|].
  split.
  - intros rx ry _ _ Hne. split; intros ->; apply Honly; done.
  - intros uf' Hu.
    destruct (UnionSet_spec zero uf x y Hwf)
      as (uf1 & rx & ry & Hu1 & _ & _ & Hwf1 & _ & Hpref & _).
    simplify_eq. apply IH; [done|].
    intros k Hk. unfold preferred. rewrite Hpref. by apply Honly.
Qed.

(** C8 (as amended). [FindSet] has no failure path: in every state the
    package can produce it returns, for every id, registered or not, the
    root of that id.  It compresses the path (an id that is not a root is
    stored with its root as parent) and changes the root of no key.  For
    an id that was never registered the root is that of the zero-value
    key, and the id is thereby silently recorded in the parent map. *)
Theorem FindSet_never_fails uf id :
  reachable uf →
  ∃ uf' r, FindSet uf id = Some (uf', r) ∧ root_of uf id r ∧
           (parent_of uf id ≠ id → parent uf' !! id = Some r) ∧
           (∀ j s, root_of uf' j s ↔ root_of uf j s) ∧
           (id ∉ dom (parent uf) →
            root_of uf zero r ∧ (id ≠ zero → parent uf' !! id = Some r)).
Proof.
  intros Hwf%reachable_wf.
  destruct (FindSet_spec zero uf id Hwf) as (uf' & r & Hf & Hr & Hsf & _ & _ & Hrec).
  exists uf', r. split_and!; [done..|apply Hsf|]. intros Hdom.
  assert (Hp : parent_of uf id = zero).
  { unfold UF.parent_of. apply not_elem_of_dom in Hdom. by rewrite Hdom. }
  split; [|intros Hz; apply Hrec; congruence].
  apply root_in_inv in Hr as [[Hid ->]|[_ Hr]].
  - assert (id = zero) as -> by congruence. by apply root_in_self.
  - by rewrite Hp in Hr.
Qed.

(** C9. A [UnionSet] whose arguments have distinct roots decrements
    [NumDisjointSets] (by exactly one unless the 64-bit counter is at its
    minimum), a [UnionSet] whose arguments share a root leaves it
    unchanged, and [FindSet] never changes it. *)
Theorem NumDisjointSets_frame uf :
  reachable uf →
  (∀ x y, ∃ uf' rx ry,
      UnionSet uf x y = Some uf' ∧ root_of uf x rx ∧ root_of uf y ry ∧
      (rx ≠ ry →
       NumDisjointSets uf' = wrap_int (NumDisjointSets uf - 1) ∧
       (int_min < NumDisjointSets uf →
        NumDisjointSets uf' = NumDisjointSets uf - 1)) ∧
      (rx = ry → NumDisjointSets uf' = NumDisjointSets uf)) ∧
  (∀ i, ∃ uf' r, FindSet uf i = Some (uf', r) ∧
                 NumDisjointSets uf' = NumDisjointSets uf).
Proof.
  intros Hwf%reachable_wf. split.
  - intros x y.
    destruct (UnionSet_spec zero uf x y Hwf)
      as (uf' & rx & ry & Hu & Hrx & Hry & _ & _ & _ & Heq & Hne).
    exists uf', rx, ry. split_and!; [done..| |].
    + intros Hxy. destruct (Hne Hxy) as [Hn _]. unfold NumDisjointSets.
      split; [done|]. intros Hmin. rewrite Hn. apply wrap_int_id.
      pose proof (wf_count _ _ Hwf). unfold in_int_range in *. lia.
    + intros Hxy. by destruct (Heq Hxy).
  - intros i.
    destruct (FindSet_spec zero uf i Hwf) as (uf' & r & Hf & _ & Hsf & _).
    exists uf', r. split; [done|]. by destruct Hsf.
Qed.
End Claims.

(** *** Instances on [UnionFind[string]] *)

Definition uf_ab : UnionFind (T := string) :=
InitKey (InitKey NewUnionFind "a") "b".

(** Both roots flagged: the rank decides, and the flagged root ["a"] of
  the first argument is attached below ["b"]: after the union,
  [FindSet] of ["a"] returns ["b"]. *)
Lemma preferred_root_can_lose :
let uf := MarkAsParent (MarkAsParent uf_ab "a") "b" in
parent_of "" uf "a" = "a" ∧ preferred uf "a" = true ∧
(uf' ← UnionSet "" uf "a" "b"; snd <$> FindSet "" uf' "a") = Some "b".
Proof. split_and!; vm_compute; reflexivity. Qed.

(** A lookup of a key that was never registered returns normally. *)
Lemma FindSet_unregistered_returns :
FindSet "" NewUnionFind "x" = Some (set_parent NewUnionFind "x" "", "").
Proof. vm_compute. reflexivity. Qed.

Lemma uf_ab_reachable : reachable "" uf_ab.
Proof. repeat constructor. Qed.

Lemma UnionFind_connectivity_witness :
∃ uf, UnionAll "" (InitKeys NewUnionFind ["a"; "b"; "c"]) [("a", "b")] = Some uf ∧
      ∀ a b, a ∈ ["a"; "b"; "c"] → b ∈ ["a"; "b"; "c"] →
        ∃ uf' res, IsSameSet "" uf a b = Some (uf', res) ∧
                   (res = true ↔ connected [("a", "b")] a b).
Proof.
apply (UnionFind_connectivity "" ["a"; "b"; "c"] [("a", "b")]).
intros x y Hxy. apply list_elem_of_singleton in Hxy.
injection Hxy as -> ->. split; repeat constructor.
Defined.

Lemma preferred_root_survives_witness :
∃ uf', UnionAll "" (MarkAsParent uf_ab "a") [("a", "b")] = Some uf' ∧
       parent_of "" uf' "a" = "a" ∧
       (∀ m, root_of "" uf_ab m "a" → same_set "" uf' m "a") ∧
       (∀ m, same_set "" uf' m "a" →
             ∃ uf'', FindSet "" uf' m = Some (uf'', "a")).
Proof.
apply (preferred_root_survives "" uf_ab "a" [("a", "b")]).
- apply uf_ab_reachable.
- reflexivity.
- apply only_flag_unflagged_merges.
  + apply MarkAsParent_wf, reachable_wf, uf_ab_reachable.
  + intros k Hk. rewrite preferred_MarkAsParent.
    destruct (decide (k = "a")) as [Heq|_]; [by destruct Hk|reflexivity].
Defined.

Lemma FindSet_never_fails_witness :
  ∃ uf' r, FindSet "" NewUnionFind "x" = Some (uf', r) ∧
           root_of "" NewUnionFind "x" r ∧
           (parent_of "" NewUnionFind "x" ≠ "x" → parent uf' !! "x" = Some r) ∧
           (∀ j s, root_of "" uf' j s ↔ root_of "" NewUnionFind j s) ∧
           ("x" ∉ dom (parent (NewUnionFind (T := string))) →
            root_of "" NewUnionFind "" r ∧
            ("x" ≠ "" → parent uf' !! "x" = Some r)).
Proof. apply (FindSet_never_fails "" NewUnionFind "x"). constructor. Defined.

Lemma NumDisjointSets_frame_witness :
(∀ x y, ∃ uf' rx ry,
    UnionSet "" uf_ab x y = Some uf' ∧ root_of "" uf_ab x rx ∧
    root_of "" uf_ab y ry ∧
    (rx ≠ ry →
     NumDisjointSets uf' = wrap_int (NumDisjointSets uf_ab - 1) ∧
     (int_min < NumDisjointSets uf_ab →
      NumDisjointSets uf' = NumDisjointSets uf_ab - 1)) ∧
    (rx = ry → NumDisjointSets uf' = NumDisjointSets uf_ab)) ∧
(∀ i, ∃ uf' r, FindSet "" uf_ab i = Some (uf', r) ∧
               NumDisjointSets uf' = NumDisjointSets uf_ab).
Proof. apply (NumDisjointSets_frame "" uf_ab). apply uf_ab_reachable. Defined.

End UFClaims.

(** ** The 2-D tree: ordering invariant *)

Section SliceStableFacts.
Context {A : Type} (less : A → A → Prop) `{∀ x y, Decision (less x y)}.

Lemma place_perm x l : place less x l ≡ₚ x :: l.
Proof.
  induction l as [|y l IH]; simpl; [done|].
  case_decide; [|done]. rewrite IH. apply Permutation_swap.
Qed.

Lemma SliceStable_perm l : SliceStable less l ≡ₚ l.
Proof.
  induction l as [|x l IH]; simpl; [done|].
  by rewrite place_perm, IH.
Qed.

Lemma SliceStable_length l : length (SliceStable less l) = length l.
Proof. apply Permutation_length, SliceStable_perm. Qed.

(** [no_more x y]: [y] is not [less] than [x].  When [less] is a strict
    weak order this is a total preorder and the result is sorted by it. *)
Definition no_more (x y : A) : Prop := ¬ less y x.

Context (less_no_more : ∀ x y, less x y → no_more x y).
Context (no_more_trans : ∀ x y z, no_more x y → no_more y z → no_more x z).

Lemma place_sorted x l :
  StronglySorted no_more l → StronglySorted no_more (place less x l).
Proof.
  induction 1 as [|y l Hl IH Hy]; simpl.
  - repeat constructor.
  - case_decide as Hyx.
    + constructor; [done|]. rewrite place_perm. constructor; [|done].
      by apply less_no_more.
    + constructor; [by constructor|]. constructor; [done|].
      eapply Forall_impl; [done|]. intros z Hz. by eapply no_more_trans.
Qed.

Lemma SliceStable_sorted l : StronglySorted no_more (SliceStable less l).
Proof.
  induction l as [|x l IH]; simpl; [constructor|]. by apply place_sorted.
Qed.
End SliceStableFacts.

Lemma axis_of_even depth : KD.axis_of depth = 0 ↔ Z.even depth = true.
Proof.
  unfold KD.axis_of. rewrite Z.even_spec.
  split.
  - intros Hr. apply Z.rem_divide in Hr; [|done].
    destruct Hr as [k ->]. exists k. lia.
  - intros [k ->]. rewrite Z.mul_comm. by apply Z.rem_mul.
Qed.

(** The parity of the depth alternates, also where [depth + 1] wraps. *)
Lemma axis_of_deeper depth :
  KD.axis_of (KD.deeper depth) = 0 ↔ KD.axis_of depth ≠ 0.
Proof.
  rewrite !axis_of_even. unfold KD.deeper, wrap_int.
  rewrite <- Z.negb_odd, <- (Z.negb_odd depth).
  assert (Z.odd ((depth + 1 + 2 ^ 63) mod 2 ^ 64 - 2 ^ 63) = negb (Z.odd depth)) as ->.
  { rewrite Z.odd_sub.
    replace (Z.odd (2 ^ 63)) with false by reflexivity. rewrite xorb_false_r.
    rewrite (Z.mod_eq _ (2 ^ 64)) by done. rewrite Z.odd_sub, Z.odd_mul.
    replace (Z.odd (2 ^ 64)) with false by reflexivity.
    simpl. rewrite xorb_false_r. rewrite !Z.odd_add.
    replace (Z.odd (2 ^ 63)) with false by reflexivity.
    replace (Z.odd 1) with true by reflexivity.
    destruct (Z.odd depth); reflexivity. }
  destruct (Z.odd depth); simpl; split; congruence.
Qed.

Module KDFacts.
Import KD.
Section Invariant.
Context {T : Type}.
Abbreviation Point := (Point T).
Abbreviation Node := (Node T).

Implicit Types (p q point query : Point) (node root l r : Node) (depth axis : Z).

(** The coordinate a node with the given axis splits on. *)
Definition coord axis p : R := if decide (axis = 0) then Lat p else Lon p.

(** The KD ordering invariant of a tree whose root sits at [depth]. *)
Fixpoint kd_inv depth node : Prop :=
  match node with
  | Nil => True
  | mkNode p l r axis =>
      axis = axis_of depth ∧
      (∀ q, q ∈ points_of l → (coord axis q <= coord axis p)%R) ∧
      (∀ q, q ∈ points_of r → (coord axis q >= coord axis p)%R) ∧
      kd_inv (deeper depth) l ∧ kd_inv (deeper depth) r
  end.

Fixpoint node_count node : nat :=
  match node with
  | Nil => 0
  | mkNode _ l r _ => S (node_count l + node_count r)
  end.

Lemma no_more_less_on axis p q :
  no_more (less_on axis) p q ↔ (coord axis p <= coord axis q)%R.
Proof.
  unfold no_more, less_on, coord. case_decide; split; lra.
Qed.

Lemma SliceStable_less_on_sorted axis (points : list Point) :
  StronglySorted (no_more (less_on axis)) (SliceStable (less_on axis) points).
Proof.
  apply SliceStable_sorted.
  - intros p q. rewrite no_more_less_on. unfold less_on, coord. case_decide; lra.
  - intros p q z. rewrite !no_more_less_on. lra.
Qed.

(** The median cuts the sorted slice into a lower and an upper part. *)
Lemma median_split axis (points sorted : list Point) median pt :
  sorted = SliceStable (less_on axis) points →
  sorted !! median = Some pt →
  (∀ q, q ∈ take median sorted → (coord axis q <= coord axis pt)%R) ∧
  (∀ q, q ∈ drop (S median) sorted → (coord axis q >= coord axis pt)%R) ∧
  pt :: take median sorted ++ drop (S median) sorted ≡ₚ points.
Proof.
  intros -> Hpt.
  pose proof (SliceStable_less_on_sorted axis points) as Hs.
  pose proof (take_drop_middle _ _ _ Hpt) as Hmid.
  rewrite <- Hmid in Hs. split_and!.
  - intros q Hq. apply no_more_less_on.
    eapply StronglySorted_app_1_elem_of; [exact Hs|done|]. by left.
  - intros q Hq. apply Rle_ge, no_more_less_on.
    apply StronglySorted_app_1_r in Hs. apply StronglySorted_cons in Hs as [Hall _].
    by eapply Forall_forall in Hall.
  - etrans; [apply Permutation_middle|]. rewrite Hmid.
    apply SliceStable_perm.
Qed.

Lemma BuildKDTree_rec_inv budget (points : list Point) depth :
  (length points ≤ budget)%nat →
  kd_inv depth (BuildKDTree_rec budget points depth) ∧
  points_of (BuildKDTree_rec budget points depth) ≡ₚ points.
Proof.
  revert points depth.
  induction budget as [|budget IH]; intros [|p0 points] depth Hlen;
    simpl in Hlen; try lia; try done.
  cbn [BuildKDTree_rec].
  set (sorted := SliceStable (less_on (axis_of depth)) (p0 :: points)).
  set (median := (length sorted / 2)%nat).
  assert (Hsl : length sorted = S (length points)).
  { unfold sorted. by rewrite SliceStable_length. }
  assert (Hmed : (median < length sorted)%nat).
  { unfold median. apply Nat.div_lt; lia. }
  destruct (lookup_lt_is_Some_2 sorted median Hmed) as [pt Hpt].
  rewrite Hpt.
  destruct (median_split (axis_of depth) (p0 :: points) sorted median pt eq_refl Hpt)
    as (Hlo & Hhi & Hperm).
  destruct (IH (take median sorted) (deeper depth)) as [Hinv_l Hperm_l].
  { rewrite length_take. lia. }
  destruct (IH (drop (S median) sorted) (deeper depth)) as [Hinv_r Hperm_r].
  { rewrite length_drop. lia. }
  split.
  - simpl. split_and!; [done| | |done|done].
    + intros q. rewrite Hperm_l. apply Hlo.
    + intros q. rewrite Hperm_r. apply Hhi.
  - simpl. by rewrite Hperm_l, Hperm_r.
Qed.

Lemma BuildKDTree_inv (points : list Point) depth :
  kd_inv depth (BuildKDTree points depth) ∧
  points_of (BuildKDTree points depth) ≡ₚ points.
Proof. by apply BuildKDTree_rec_inv. Qed.

(** One step of [Insert] and of [SearchRange], on the splitting
    coordinate. *)
Lemma Insert_left p l r axis point depth :
  (coord axis point < coord axis p)%R →
  Insert (mkNode p l r axis) point depth =
  mkNode p (Insert l point (deeper depth)) r axis.
Proof.
  unfold coord. simpl. destruct (decide (axis = 0)); intros Hlt;
    by rewrite decide_True.
Qed.

Lemma Insert_right p l r axis point depth :
  ¬ (coord axis point < coord axis p)%R →
  Insert (mkNode p l r axis) point depth =
  mkNode p l (Insert r point (deeper depth)) axis.
Proof.
  unfold coord. simpl. destruct (decide (axis = 0)); intros Hlt;
    by rewrite decide_False.
Qed.

Lemma SearchRange_Nil query radiusKm depth results :
  SearchRange Nil query radiusKm depth results = results.
Proof. reflexivity. Qed.

Lemma SearchRange_node p l r axis query radiusKm depth results :
  SearchRange (mkNode p l r axis) query radiusKm depth results =
  let cd := axis_of depth in
  let delta := coordDegrees radiusKm (Lat query) cd in
  let results :=
    if decide (Haversine (Lat query) (Lon query) (Lat p) (Lon p) <= radiusKm)%R
    then results ++ [p] else results in
  let results :=
    if decide (coord cd query - delta <= coord cd p)%R
    then SearchRange l query radiusKm (deeper depth) results else results in
  if decide (coord cd query + delta >= coord cd p)%R
  then SearchRange r query radiusKm (deeper depth) results else results.
Proof. unfold coord. simpl. by destruct (decide (axis_of depth = 0)). Qed.

Lemma Insert_points root point depth :
  points_of (Insert root point depth) ≡ₚ point :: points_of root.
Proof.
  revert depth. induction root as [|p l IHl r IHr axis]; intros depth; simpl; [done|].
  destruct (decide (axis = 0)); case_decide; simpl.
  - rewrite IHl. apply Permutation_swap.
  - rewrite IHr. by rewrite Permutation_swap, <- Permutation_middle.
  - rewrite IHl. apply Permutation_swap.
  - rewrite IHr. by rewrite Permutation_swap, <- Permutation_middle.
Qed.

Lemma Insert_count root point depth :
  node_count (Insert root point depth) = S (node_count root).
Proof.
  revert depth. induction root as [|p l IHl r IHr axis]; intros depth; simpl; [done|].
  destruct (decide (axis = 0)); case_decide; simpl; rewrite ?IHl, ?IHr; lia.
Qed.

Lemma Insert_inv root point depth :
  kd_inv depth root → kd_inv depth (Insert root point depth).
Proof.
  revert depth. induction root as [|p l IHl r IHr axis]; intros depth; simpl.
  { intros _. split_and!; try done; intros q Hq; by apply elem_of_nil in Hq. }
  intros (Hax & Hlo & Hhi & Hl & Hr).
  destruct (decide (axis = 0)) as [Ha|Ha]; case_decide as Hkey; simpl;
    (split_and!; [done|..]); auto.
  - intros q. rewrite Insert_points, elem_of_cons. intros [->|?]; [|by apply Hlo].
    unfold coord. rewrite !decide_True by done. lra.
  - intros q. rewrite Insert_points, elem_of_cons. intros [->|?]; [|by apply Hhi].
    unfold coord. rewrite !decide_True by done. lra.
  - intros q. rewrite Insert_points, elem_of_cons. intros [->|?]; [|by apply Hlo].
    unfold coord. rewrite !decide_False by done. lra.
  - intros q. rewrite Insert_points, elem_of_cons. intros [->|?]; [|by apply Hhi].
    unfold coord. rewrite !decide_False by done. lra.
Qed.

(** [SearchRange] only ever reports points of the tree that lie within
    the radius. *)
Lemma SearchRange_sound node query radiusKm depth results p :
  p ∈ SearchRange node query radiusKm depth results →
  p ∈ results ∨
  (p ∈ points_of node ∧
   (Haversine (Lat query) (Lon query) (Lat p) (Lon p) <= radiusKm)%R).
Proof.
  revert depth results p.
  induction node as [|np l IHl r IHr axis]; intros depth results p; simpl; [by left|].
  set (res1 := if decide (_ <= radiusKm)%R then results ++ [np] else results).
  assert (H1 : ∀ x, x ∈ res1 → x ∈ results ∨
            (x = np ∧ (Haversine (Lat query) (Lon query) (Lat x) (Lon x) <= radiusKm)%R)).
  { intros x. unfold res1. case_decide; [|by left].
    rewrite elem_of_app, list_elem_of_singleton. intros [?| ->]; [by left|by right]. }
  clearbody res1.
  destruct (decide (axis_of depth = 0)); simpl.
  all: set (res2 := if decide (_ <= _)%R then SearchRange l _ _ _ res1 else res1).
  all: assert (H2 : ∀ x, x ∈ res2 → x ∈ res1 ∨
            (x ∈ points_of l ∧ (Haversine (Lat query) (Lon query) (Lat x) (Lon x) <= radiusKm)%R))
    by (intros x; unfold res2; case_decide; [apply IHl|by left]).
  all: clearbody res2.
  all: intros Hp.
  all: assert (H3 : p ∈ res2 ∨
            (p ∈ points_of r ∧ (Haversine (Lat query) (Lon query) (Lat p) (Lon p) <= radiusKm)%R))
    by (revert Hp; case_decide; [apply IHr|by left]).
  all: destruct H3 as [H3|[? ?]]; [|right; split; [set_solver|done]].
  all: destruct (H2 _ H3) as [H4|[? ?]]; [|right; split; [set_solver|done]].
  all: destruct (H1 _ H4) as [?|[-> ?]]; [by left|right; split; [set_solver|done]].
Qed.
End Invariant.
End KDFacts.

(** ** The 2-D tree: claims *)

Module KDClaims.
Import KD KDFacts.

(** C10. Trees built by [BuildKDTree], and trees grown from them by any
    sequence of [Insert] calls, hold exactly the given points and satisfy
    the KD ordering invariant: a node at depth [d] splits on the axis
    [d % 2] (latitude at even depth, longitude at odd depth, alternating
    from each level to the next), no point of its left subtree lies above
    it on that axis and no point of its right subtree below it. [Insert]
    preserves the invariant and adds exactly one node, the new point. *)
Theorem kd_ordering_invariant {T : Type} :
  (∀ (points : list (Point T)) depth,
      kd_inv depth (BuildKDTree points depth) ∧
      points_of (BuildKDTree points depth) ≡ₚ points) ∧
  (∀ (root : Node T) point depth,
      kd_inv depth root →
      kd_inv depth (Insert root point depth) ∧
      node_count (Insert root point depth) = S (node_count root) ∧
      points_of (Insert root point depth) ≡ₚ point :: points_of root) ∧
  (∀ (points inserted : list (Point T)) depth,
      kd_inv depth
        (foldl (λ root point, Insert root point depth)
               (BuildKDTree points depth) inserted)) ∧
  (∀ depth, (axis_of depth = 0 ↔ Z.even depth = true) ∧
            (axis_of (deeper depth) = 0 ↔ axis_of depth ≠ 0)).
Proof.
  split_and!.
  - intros points depth. apply BuildKDTree_inv.
  - intros root point depth Hinv. split_and!.
    + by apply Insert_inv.
    + apply Insert_count.
    + apply Insert_points.
  - intros points inserted depth.
    pose proof (BuildKDTree_inv points depth) as [Hinv _]. revert Hinv.
    generalize (BuildKDTree points depth).
    induction inserted as [|p inserted IH]; intros root Hinv; simpl; [done|].
    by apply IH, Insert_inv.
  - intros depth. split; [apply axis_of_even|apply axis_of_deeper].
Qed.

Definition berlin : Point string := mkPoint 52.52 13.405 "Berlin".
Definition paris : Point string := mkPoint 48.8566 2.3522 "Paris".

Lemma kd_ordering_invariant_witness :
  let root := mkNode berlin Nil Nil 0 in
  kd_inv 0 (Insert root paris 0) ∧
  node_count (Insert root paris 0) = 2%nat ∧
  points_of (Insert root paris 0) ≡ₚ [paris; berlin].
Proof.
  apply (proj1 (proj2 (@kd_ordering_invariant string)) (mkNode berlin Nil Nil 0) paris 0).
  simpl. split_and!; try done; intros q Hq; by apply elem_of_nil in Hq.
Defined.

(** *** Range search across the antimeridian *)

(** The haversine distance of two points on the equator whose half
    longitude difference is, up to sign and up to a half turn, the acute
    angle [α]. *)
Lemma Haversine_equator lon1 lon2 α :
  (0 <= α < PI / 2)%R →
  ((lon2 - lon1) * PI / 180 / 2 = α ∨ (lon2 - lon1) * PI / 180 / 2 = - α ∨
   (lon2 - lon1) * PI / 180 / 2 = PI - α ∨
   (lon2 - lon1) * PI / 180 / 2 = - (PI - α))%R →
  Haversine 0 lon1 0 lon2 = (EarthRadiusKm * (2 * α))%R.
Proof.
  intros Hα Hθ. unfold Haversine. cbv zeta.
  replace ((0 - 0) * PI / 180 / 2)%R with 0%R by lra.
  replace (0 * PI / 180)%R with 0%R by lra.
  rewrite sin_0, cos_0.
  set (θ := ((lon2 - lon1) * PI / 180 / 2)%R) in *.
  assert (Hsq : (sin θ * sin θ = sin α * sin α)%R).
  { destruct Hθ as [-> | [-> | [-> | ->]]];
      rewrite ?sin_neg, ?sin_PI_x; lra. }
  replace (0 * 0 + 1 * 1 * sin θ * sin θ)%R with (sin α * sin α)%R by lra.
  assert (Hsin : (0 <= sin α)%R) by (apply sin_ge_0; lra).
  assert (Hcos : (0 < cos α)%R) by (apply cos_gt_0; lra).
  replace (1 - sin α * sin α)%R with (cos α * cos α)%R
    by (pose proof (sin2_cos2 α) as H2; unfold Rsqr in H2; lra).
  rewrite !sqrt_square by lra.
  unfold Atan2. rewrite decide_True by done.
  change (sin α / cos α)%R with (tan α). rewrite atan_tan by lra. done.
Qed.

Definition stopA : Point string := mkPoint 0 0 "A".
Definition stopB : Point string := mkPoint 0 0 "B".
Definition stopC : Point string := mkPoint 0 (-179.999) "C".

Definition dateline_tree : Node string :=
  Insert (Insert (Insert Nil stopA 0) stopB 0) stopC 0.

Definition dateline_query : Point string := mkPoint 0 179.999 "".

Lemma dateline_tree_shape :
  dateline_tree = mkNode stopA Nil (mkNode stopB (mkNode stopC Nil Nil 0) Nil 1) 0.
Proof.
  unfold dateline_tree.
  change (Insert Nil stopA 0) with (mkNode stopA Nil Nil 0).
  rewrite (Insert_right stopA) by (unfold coord; simpl; lra).
  change (Insert Nil stopB (deeper 0)) with (mkNode stopB Nil Nil 1).
  rewrite (Insert_right stopA) by (unfold coord; simpl; lra).
  rewrite (Insert_left stopB) by (unfold coord; simpl; lra).
  reflexivity.
Qed.

(** From the query point, the stops at longitude 0 are almost half the
    equator away, and [stopC] is about 222 m away. *)
Lemma dateline_far :
  ¬ (Haversine 0 179.999 0 0 <= radiusKm)%R ∧
  ¬ (Haversine 0 0 0 179.999 <= radiusKm)%R.
Proof.
  pose proof PI2_3_2 as Hlo. pose proof PI_4 as Hhi.
  unfold radiusKm.
  rewrite (Haversine_equator 179.999 0 (179.999 * PI / 360)) by (first [split; lra | right; left; lra]).
  rewrite (Haversine_equator 0 179.999 (179.999 * PI / 360)) by (first [split; lra | left; lra]).
  unfold EarthRadiusKm. split; lra.
Qed.

Lemma dateline_near : (Haversine 0 (-179.999) 0 179.999 <= radiusKm)%R.
Proof.
  pose proof PI2_3_2 as Hlo. pose proof PI_4 as Hhi.
  unfold radiusKm.
  rewrite (Haversine_equator (-179.999) 179.999 (0.001 * PI / 180))
    by (first [split; lra | right; right; left; lra]).
  unfold EarthRadiusKm. lra.
Qed.

(** The half width of the search box at the equator for the radius of
    0.5 km: a small positive number of degrees, on both axes. *)
Lemma coordDegrees_equator cd :
  (0 < coordDegrees radiusKm 0 cd < 1)%R.
Proof.
  assert (Hrad : (0 < radiusKm / EarthRadiusKm * (180 / PI) < 1)%R).
  { unfold EarthRadiusKm, radiusKm. pose proof PI2_1 as Hpi.
    assert (Hpos : (0 < PI)%R) by lra.
    replace (5 / 10 / 6371 * (180 / PI))%R with (90 / 6371 / PI)%R by (field; lra).
    split.
    - apply Rdiv_lt_0_compat; lra.
    - apply (Rmult_lt_reg_r PI); [done|].
      replace (90 / 6371 / PI * PI)%R with (90 / 6371)%R by (field; lra). lra. }
  unfold coordDegrees. cbv zeta. case_decide; [done|].
  replace (0 * PI / 180)%R with 0%R by lra. rewrite cos_0.
  replace (radiusKm / EarthRadiusKm * (180 / PI) / 1)%R
    with (radiusKm / EarthRadiusKm * (180 / PI))%R
    by (field; split; [apply PI_neq0|unfold EarthRadiusKm; lra]).
  done.
Qed.

(** C1 fails on the code.  The three stops lie on the equator, [stopC] at
    longitude -179.999; the query point at longitude 179.999 is 222 m
    away from it, across the antimeridian, so the brute-force search with
    the radius of 0.5 km that [Run] uses reports [stopC].  [SearchRange]
    compares raw longitudes, prunes the subtree of [stopC] at the
    longitude-splitting node [stopB], and reports nothing. *)
Theorem SearchRange_misses_across_dateline :
  points_of dateline_tree = [stopA; stopB; stopC] ∧
  kd_inv 0 dateline_tree ∧
  linearSearch [stopA; stopB; stopC] dateline_query radiusKm = [stopC] ∧
  SearchRange dateline_tree dateline_query radiusKm 0 [] = [].
Proof.
  pose proof dateline_far as [Hfar Hfar'].
  pose proof dateline_near as Hnear.
  pose proof (coordDegrees_equator 0) as Hlat.
  pose proof (coordDegrees_equator 1) as Hlon.
  split_and!.
  - by rewrite dateline_tree_shape.
  - unfold dateline_tree. repeat apply Insert_inv. done.
  - unfold linearSearch, dateline_query, stopA, stopB, stopC.
    rewrite !filter_cons, filter_nil. cbn [Lat Lon].
    rewrite !(decide_False _ _ Hfar'). by rewrite (decide_True _ _ Hnear).
  - rewrite dateline_tree_shape.
    (* the root, splitting on latitude: both subtrees are searched *)
    rewrite SearchRange_node. cbv zeta. change (axis_of 0) with 0.
    change (coord 0 dateline_query) with 0%R. change (coord 0 stopA) with 0%R.
    change (Lat stopA) with 0%R. change (Lon stopA) with 0%R.
    change (Lat dateline_query) with 0%R.
    change (Lon dateline_query) with 179.999%R.
    rewrite (decide_False _ _ Hfar).
    rewrite (decide_True (P := (0 - coordDegrees radiusKm 0 0 <= 0)%R)) by lra.
    rewrite (decide_True (P := (0 + coordDegrees radiusKm 0 0 >= 0)%R)) by lra.
    rewrite SearchRange_Nil.
    (* [stopB], splitting on longitude: the left subtree is pruned *)
    rewrite SearchRange_node. cbv zeta. change (axis_of (deeper 0)) with 1.
    change (coord 1 dateline_query) with 179.999%R. change (coord 1 stopB) with 0%R.
    change (Lat stopB) with 0%R. change (Lon stopB) with 0%R.
    change (Lat dateline_query) with 0%R.
    change (Lon dateline_query) with 179.999%R.
    rewrite (decide_False _ _ Hfar).
    rewrite (decide_False (P := (179.999 - coordDegrees radiusKm 0 1 <= 0)%R)) by lra.
    rewrite (decide_True (P := (179.999 + coordDegrees radiusKm 0 1 >= 0)%R)) by lra.
    by rewrite SearchRange_Nil.
Qed.

End KDClaims.

(** ** Name normalisation: claims *)

Module NormalizeClaims.

(** C6 fails on the code.  The entries ["hauptbahnhof " -> "hbf "] and
    ["bahnhof " -> "bf "] of the replacement table overlap, and
    [normalize] ranges over the table in the order the Go map yields.
    In the order of the source text the name becomes ["hbf nord"]; in the
    reverse order ["bahnhof "] is replaced first and the name becomes
    ["hauptbf nord"].  ([Unidecode] leaves an ASCII name as it is.) *)
Theorem normalize_depends_on_range_order (Unidecode : string → string) :
  Unidecode "hauptbahnhof nord" = "hauptbahnhof nord" →
  reverse replacements ≡ₚ replacements ∧
  normalize Unidecode replacements "hauptbahnhof nord" = "hbf nord" ∧
  normalize Unidecode (reverse replacements) "hauptbahnhof nord" = "hauptbf nord".
Proof.
  intros Hascii. split_and!.
  - apply reverse_Permutation.
  - unfold normalize. rewrite Hascii. vm_compute. reflexivity.
  - unfold normalize. rewrite Hascii. vm_compute. reflexivity.
Qed.

Lemma normalize_depends_on_range_order_witness :
  reverse replacements ≡ₚ replacements ∧
  normalize (λ name, name) replacements "hauptbahnhof nord" = "hbf nord" ∧
  normalize (λ name, name) (reverse replacements) "hauptbahnhof nord"
  = "hauptbf nord".
Proof. apply (normalize_depends_on_range_order (λ name, name)). reflexivity. Defined.

End NormalizeClaims.

(** ** Forests over a fixed set of registered keys *)

Module UFSealed.
Import UF UFFacts UFSeq.
Section Sealed.
Context {T : Type} `{Countable T}.
Variable zero : T.

Abbreviation UnionFind := (@UnionFind T _ _).
Abbreviation parent_of := (parent_of zero).
Abbreviation FindSet := (FindSet zero).
Abbreviation UnionSet := (UnionSet zero).
Abbreviation root_of := (root_of zero).
Abbreviation uf_wf := (uf_wf zero).

Implicit Types (uf : UnionFind) (i j k r s x y : T) (D : gset T).

(** [sealed uf D]: the keys of the forest are exactly [D], and so are
    all the parents it stores.  This is what [InitKey] on every key of
    [D] followed by operations on keys of [D] maintains. *)
Record sealed uf D : Prop := {
  sealed_wf : uf_wf uf;
  sealed_dom : dom (parent uf) = D;
  sealed_vals : ∀ i v, parent uf !! i = Some v → v ∈ D
}.

Lemma sealed_parent_of uf D i : sealed uf D → i ∈ D → parent_of uf i ∈ D.
Proof.
  intros [_ Hdom Hvals] Hi. rewrite <- Hdom in Hi.
  apply elem_of_dom in Hi as [v Hv]. unfold UF.parent_of. rewrite Hv.
  by eapply Hvals.
Qed.

Lemma sealed_root uf D i r : sealed uf D → root_of uf i r → i ∈ D → r ∈ D.
Proof.
  intros Hs. revert i r.
  apply (root_in_ind' (parent_of uf) (λ i r, i ∈ D → r ∈ D)); [done|].
  intros i r _ _ IH Hi. apply IH. by apply sealed_parent_of.
Qed.

Lemma links_within_sealed uf uf' D (K V : gset T) :
  sealed uf D → uf_wf uf' → links_within uf uf' K V →
  K ⊆ D → V ⊆ D → sealed uf' D.
Proof.
  intros [_ Hdom Hvals] Hwf' [Hkeep Hkeys Hnew] HK HV. split; [done| |].
  - apply set_eq. intros k. split; intros Hk.
    + apply Hkeys in Hk. rewrite Hdom in Hk. set_solver.
    + apply Hkeep. by rewrite Hdom.
  - intros i v Hv. destruct (Hnew _ _ Hv) as [Hold|Hin]; [by eapply Hvals|].
    by apply HV.
Qed.

Lemma FindSet_sealed uf D i :
  sealed uf D → i ∈ D →
  ∃ uf' r, FindSet uf i = Some (uf', r) ∧ root_of uf i r ∧ r ∈ D ∧
           same_forest zero uf uf' ∧ sealed uf' D.
Proof.
  intros Hs Hi.
  destruct (FindSet_spec zero uf i (sealed_wf _ _ Hs)) as (uf' & r & Hf & Hr & Hsf & Hwf' & Hlw & _).
  assert (Hrd : r ∈ D) by by eapply sealed_root.
  exists uf', r. split_and!; try done.
  eapply links_within_sealed; [done..| |]; set_solver.
Qed.

Lemma UnionSet_sealed uf D x y :
  sealed uf D → x ∈ D → y ∈ D →
  ∃ uf', UnionSet uf x y = Some uf' ∧ sealed uf' D.
Proof.
  intros Hs Hx Hy.
  destruct (UnionSet_spec zero uf x y (sealed_wf _ _ Hs))
    as (uf' & rx & ry & Hu & Hrx & Hry & Hwf' & Hlw & _).
  assert (Hrxd : rx ∈ D) by exact (sealed_root uf D x rx Hs Hrx Hx).
  assert (Hryd : ry ∈ D) by exact (sealed_root uf D y ry Hs Hry Hy).
  exists uf'. split; [done|].
  eapply links_within_sealed; [done..| |]; set_solver.
Qed.

Lemma InitKeys_sealed (ids : list T) :
  sealed (InitKeys NewUnionFind ids) (list_to_set ids).
Proof.
  split.
  - apply InitKeys_wf, NewUnionFind_wf.
  - rewrite InitKeys_dom. simpl. rewrite dom_empty_L. set_solver.
  - intros i v. rewrite InitKeys_parent. case_decide as Hi.
    + intros [= <-]. by apply elem_of_list_to_set.
    + simpl. by rewrite lookup_empty.
Qed.

(** *** Counting the sets *)

(** The roots among the registered keys: one per disjoint set. *)
Definition roots_set uf : gset T :=
  filter (λ k, parent_of uf k = k) (dom (parent uf)).

(** The counter agrees with the number of disjoint sets. *)
Definition counted uf : Prop :=
  NumDisjointSets uf = Z.of_nat (base.size (roots_set uf)).

Lemma numSets_InitKeys uf (ids : list T) :
  0 ≤ numSets uf → numSets uf + Z.of_nat (length ids) ≤ int_max →
  numSets (InitKeys uf ids) = numSets uf + Z.of_nat (length ids).
Proof.
  revert uf. induction ids as [|k ids IH]; intros uf Hlo Hhi; simpl in *; [lia|].
  change (foldl InitKey (InitKey uf k) ids) with (InitKeys (InitKey uf k) ids).
  assert (Hk : numSets (InitKey uf k) = numSets uf + 1).
  { simpl. apply wrap_int_id. unfold in_int_range, int_min, int_max in *. lia. }
  rewrite IH; rewrite Hk; lia.
Qed.

Lemma roots_set_InitKeys (ids : list T) :
  roots_set (InitKeys NewUnionFind ids) = list_to_set ids.
Proof.
  apply set_eq. intros k. unfold roots_set.
  rewrite elem_of_filter, InitKeys_dom. simpl. rewrite dom_empty_L.
  rewrite elem_of_union, elem_of_list_to_set. split; [set_solver|].
  intros Hk. split; [|by right].
  eapply (root_in_root _ k). by apply InitKeys_root.
Qed.

Lemma InitKeys_counted (ids : list T) :
  NoDup ids → Z.of_nat (length ids) ≤ int_max →
  counted (InitKeys NewUnionFind ids) ∧
  NumDisjointSets (InitKeys NewUnionFind ids) = Z.of_nat (length ids).
Proof.
  intros Hnd Hlen. unfold counted, NumDisjointSets.
  rewrite numSets_InitKeys, roots_set_InitKeys by (simpl; lia).
  rewrite size_list_to_set by done. simpl. split; lia.
Qed.

Lemma same_forest_roots_set uf uf' :
  same_forest zero uf uf' → dom (parent uf') = dom (parent uf) →
  roots_set uf' = roots_set uf.
Proof.
  intros Hsf Hdom. apply set_eq. intros k. unfold roots_set.
  rewrite !elem_of_filter, Hdom.
  by rewrite (same_forest_is_root zero uf uf' k Hsf).
Qed.

Lemma FindSet_counted uf D i uf' r :
  sealed uf D → i ∈ D → counted uf → FindSet uf i = Some (uf', r) →
  counted uf'.
Proof.
  intros Hs Hi Hc Hf.
  destruct (FindSet_sealed uf D i Hs Hi) as (uf1 & r1 & Hf1 & _ & _ & Hsf & Hs1).
  simplify_eq. unfold counted, NumDisjointSets in *.
  rewrite (same_forest_roots_set uf uf') by (done || by rewrite !(sealed_dom _ D)).
  by destruct Hsf as [_ _ -> _ _].
Qed.

Lemma UnionSet_counted uf D x y uf' :
  sealed uf D → x ∈ D → y ∈ D → counted uf → UnionSet uf x y = Some uf' →
  counted uf'.
Proof.
  intros Hs Hx Hy Hc Hu.
  destruct (UnionSet_sealed uf D x y Hs Hx Hy) as (uf1 & Hu1 & Hs1).
  destruct (UnionSet_spec zero uf x y (sealed_wf _ _ Hs))
    as (uf2 & rx & ry & Hu2 & Hrx & Hry & _ & _ & _ & Heq & Hne).
  simplify_eq. unfold counted, NumDisjointSets in *.
  assert (Hdom : dom (parent uf') = dom (parent uf))
    by by rewrite !(sealed_dom _ D).
  destruct (decide (rx = ry)) as [Hxy|Hxy].
  { rewrite (same_forest_roots_set uf uf') by auto.
    by destruct (Heq Hxy) as [_ _ -> _ _]. }
  destruct (Hne Hxy) as [Hn Hroots].
  set (l := absorbed uf rx ry) in *. set (w := survivor uf rx ry) in *.
  assert (Hlw : (w = rx ∧ l = ry) ∨ (w = ry ∧ l = rx)) by by apply survivor_cases.
  assert (Hl_root : parent_of uf l = l).
  { destruct Hlw as [[_ ->]|[_ ->]]; by eapply root_in_root. }
  assert (Hw_root : parent_of uf w = w).
  { destruct Hlw as [[-> _]|[-> _]]; by eapply root_in_root. }
  assert (Hl_ne : l ≠ w) by (destruct Hlw as [[-> ->]|[-> ->]]; done).
  assert (Hl_D : l ∈ D).
  { destruct Hlw as [[_ ->]|[_ ->]];
      [exact (sealed_root uf D y ry Hs Hry Hy)|exact (sealed_root uf D x rx Hs Hrx Hx)]. }
  assert (Hset : roots_set uf' = roots_set uf ∖ {[l]}).
  { apply set_eq. intros k. unfold roots_set.
    rewrite elem_of_difference, !elem_of_filter, Hdom, not_elem_of_singleton.
    split.
    - intros [Hk Hkd]. apply root_in_self, Hroots in Hk.
      destruct Hk as [[Hk ?]|[Hk ->]].
      + split_and!; [by eapply root_in_root|done|done].
      + apply (root_in_of_root _ _ _ Hw_root) in Hk. done.
    - intros [[Hk Hkd] Hkl]. split; [|done].
      eapply (root_in_root _ k). apply Hroots. left. split; [by apply root_in_self|done]. }
  assert (Hin : l ∈ roots_set uf).
  { unfold roots_set. apply elem_of_filter. split; [done|].
    by rewrite (sealed_dom _ D). }
  assert (Hsize : base.size (roots_set uf) = S (base.size (roots_set uf'))).
  { rewrite Hset. rewrite (size_difference (roots_set uf) {[l]}) by set_solver.
    rewrite size_singleton.
    assert (base.size (roots_set uf) ≠ 0%nat); [|lia].
    intros Hz. apply size_empty_inv in Hz. set_solver. }
  rewrite Hn, Hc, Hsize. rewrite wrap_int_id; [lia|].
  pose proof (wf_count _ _ (sealed_wf _ _ Hs)) as Hrange.
  unfold in_int_range, int_min, int_max in *. lia.
Qed.
End Sealed.
End UFSealed.

(** ** The processor: the union-find phases *)

Module EPSFacts.
Import UF UFFacts UFSeq UFSealed EPS.
Section Unions.
Variable normalize : string → string.
Variable Ratio : string → string → Z.

Abbreviation Feed := (gmap string gtfs.Stop).
Abbreviation UnionFind := (UnionFind (T := string)).
Abbreviation sealed := (sealed "").
Abbreviation counted := (counted "").
Abbreviation propose := (propose normalize Ratio).
Abbreviation unite_results := (unite_results normalize Ratio).

Implicit Types (feed F : Feed) (uf : UnionFind) (s o stop : gtfs.Stop)
  (k q key : string) (D : gset string).

(** Feeds as the parser hands them over: every stop is stored under its
    own id, and parent references point to stops of the feed. *)
Record feed_wf feed : Prop := {
  wf_ids : ∀ k s, feed !! k = Some s → gtfs.Id s = k;
  wf_refs : ∀ k s q, feed !! k = Some s → gtfs.Parent_station s = Some q →
                     q ∈ dom feed
}.

(** The ids that the first loop registers. *)
Definition registered_ids (stops : list (string * gtfs.Stop)) : list string :=
  (λ ks, gtfs.Id ks.2) <$> stops.

Lemma register_spec stops :
  register stops =
  ((λ ks, KD.mkPoint (gtfs.Lat ks.2) (gtfs.Lon ks.2) ks.2) <$> stops,
   InitKeys NewUnionFind (registered_ids stops)).
Proof.
  unfold register, InitKeys.
  assert (Hgen : ∀ points (uf : UnionFind),
    foldl (λ '(points, uf) '(_, s),
             (points ++ [KD.mkPoint (gtfs.Lat s) (gtfs.Lon s) s],
              InitKey uf (gtfs.Id s))) (points, uf) stops =
    (points ++ ((λ ks, KD.mkPoint (gtfs.Lat ks.2) (gtfs.Lon ks.2) ks.2) <$> stops),
     foldl InitKey uf (registered_ids stops))).
  { induction stops as [|[k s] stops IH]; intros points uf; simpl.
    - by rewrite app_nil_r.
    - rewrite IH. by rewrite <- app_assoc. }
  apply Hgen.
Qed.

(** *** Seeding and proposing: unions on registered ids *)

Definition keeps_count uf uf' : Prop := counted uf → counted uf'.

Lemma UnionSet_registered uf D x y :
  sealed uf D → x ∈ D → y ∈ D →
  ∃ uf', UnionSet "" uf x y = Some uf' ∧ sealed uf' D ∧ keeps_count uf uf'.
Proof.
  intros Hs Hx Hy. destruct (UnionSet_sealed "" uf D x y Hs Hx Hy) as (uf' & Hu & Hs').
  exists uf'. split_and!; [done..|]. intros Hc.
  exact (UnionSet_counted "" uf D x y uf' Hs Hx Hy Hc Hu).
Qed.

Lemma seed_spec stops uf D :
  sealed uf D →
  (∀ k s, (k, s) ∈ stops →
          gtfs.Id s ∈ D ∧ ∀ q, gtfs.Parent_station s = Some q → q ∈ D) →
  ∃ uf', seed stops uf = Some uf' ∧ sealed uf' D ∧ keeps_count uf uf'.
Proof.
  revert uf. induction stops as [|[k s] stops IH]; intros uf Hs Hreg; simpl.
  { exists uf. split_and!; [done..|by intros ?]. }
  destruct (Hreg k s) as [Hid Hpar]; [by left|].
  assert (Hstep : ∃ uf1,
    match gtfs.Parent_station s with
    | Some parent => UnionSet "" uf (gtfs.Id s) parent
    | None => Some uf
    end = Some uf1 ∧ sealed uf1 D ∧ keeps_count uf uf1).
  { destruct (gtfs.Parent_station s) as [q|].
    - apply UnionSet_registered; auto.
    - exists uf. split_and!; [done..|by intros ?]. }
  destruct Hstep as (uf1 & -> & Hs1 & Hc1). simpl.
  destruct (IH uf1 Hs1) as (uf' & Hrun & Hs' & Hc').
  { intros k' s' Hin. apply (Hreg k'). by right. }
  exists uf'. split_and!; [done..|]. intros Hc. by apply Hc', Hc1.
Qed.

Lemma unite_results_spec s norm results uf D :
  sealed uf D → gtfs.Id s ∈ D →
  (∀ p, p ∈ results → gtfs.Id (KD.Data p) ∈ D) →
  ∃ uf', unite_results s norm results uf = Some uf' ∧ sealed uf' D ∧
         keeps_count uf uf'.
Proof.
  revert uf. induction results as [|p results IH]; intros uf Hs Hid Hres; simpl.
  { exists uf. split_and!; [done..|by intros ?]. }
  assert (Hstep : ∃ uf1,
    (if ConsiderSame normalize Ratio norm (normalize (gtfs.Name (KD.Data p))) TOL_IS_SAME
     then UnionSet "" uf (gtfs.Id s) (gtfs.Id (KD.Data p))
     else Some uf) = Some uf1 ∧ sealed uf1 D ∧ keeps_count uf uf1).
  { case_match.
    - apply UnionSet_registered; [done..|]. apply Hres. by left.
    - exists uf. split_and!; [done..|by intros ?]. }
  destruct Hstep as (uf1 & -> & Hs1 & Hc1). simpl.
  destruct (IH uf1 Hs1 Hid) as (uf' & Hrun & Hs' & Hc').
  { intros p' Hin. apply Hres. by right. }
  exists uf'. split_and!; [done..|]. intros Hc. by apply Hc', Hc1.
Qed.

Lemma propose_spec root stops uf D :
  sealed uf D →
  (∀ p, p ∈ KD.points_of root → gtfs.Id (KD.Data p) ∈ D) →
  (∀ k s, (k, s) ∈ stops → gtfs.Id s ∈ D) →
  ∃ uf', propose root stops uf = Some uf' ∧ sealed uf' D ∧ keeps_count uf uf'.
Proof.
  intros Hs Hroot. revert uf Hs.
  induction stops as [|[k s] stops IH]; intros uf Hs Hreg; simpl.
  { exists uf. split_and!; [done..|by intros ?]. }
  destruct (unite_results_spec s (normalize (gtfs.Name s))
              (KD.SearchRange root (KD.mkPoint (gtfs.Lat s) (gtfs.Lon s) s) radiusKm 0 [])
              uf D Hs) as (uf1 & -> & Hs1 & Hc1).
  { apply (Hreg k). by left. }
  { intros p Hp. apply KDFacts.SearchRange_sound in Hp as [Hp|[Hp _]].
    - by apply elem_of_nil in Hp.
    - by apply Hroot. }
  simpl. destruct (IH uf1 Hs1) as (uf' & Hrun & Hs' & Hc').
  { intros k' s' Hin. apply (Hreg k'). by right. }
  exists uf'. split_and!; [done..|]. intros Hc. by apply Hc', Hc1.
Qed.

End Unions.

Section Ranges.
Variable normalize : string → string.
Variable Ratio : string → string → Z.
Variable range_Stops : nat → gmap string gtfs.Stop → list (string * gtfs.Stop).
Variable range_parent : gmap string string → list string.
Hypothesis Hranges : ranges_ok range_Stops range_parent.

Abbreviation Feed := (gmap string gtfs.Stop).
Abbreviation UnionFind := (UnionFind (T := string)).
Abbreviation sealed := (sealed "").
Abbreviation counted := (counted "").
Abbreviation seeded := (seeded range_Stops).
Abbreviation clustered := (clustered normalize Ratio range_Stops).

Implicit Types (feed F : Feed) (uf : UnionFind) (s o stop : gtfs.Stop)
  (k q key : string) (D : gset string).

Lemma range_Stops_elem n feed k s :
  (k, s) ∈ range_Stops n feed ↔ feed !! k = Some s.
Proof.
  destruct Hranges as [Hr _]. rewrite (Hr n feed). apply elem_of_map_to_list.
Qed.

Lemma range_Stops_keys n feed : (range_Stops n feed).*1 ≡ₚ elements (dom feed).
Proof.
  destruct Hranges as [Hr _]. rewrite (Hr n feed).
  apply NoDup_Permutation.
  - apply NoDup_fst_map_to_list.
  - apply NoDup_elements.
  - intros k. rewrite elem_of_elements, elem_of_dom, list_elem_of_fmap.
    split.
    + intros [[k' s] [-> Hin]]. apply elem_of_map_to_list in Hin. by eexists.
    + intros [s Hs]. exists (k, s). split; [done|]. by apply elem_of_map_to_list.
Qed.

Lemma registered_ids_keys feed :
  feed_wf feed → registered_ids (range_Stops 0 feed) = (range_Stops 0 feed).*1.
Proof.
  intros Hwf. unfold registered_ids. apply list_fmap_ext.
  intros i [k s] Hi. simpl. eapply wf_ids; [done|].
  apply (range_Stops_elem 0). by eapply list_elem_of_lookup_2.
Qed.

Lemma registered_sealed feed :
  feed_wf feed → sealed (register (range_Stops 0 feed)).2 (dom feed).
Proof.
  intros Hwf. rewrite register_spec. simpl.
  replace (dom feed) with (list_to_set (C := gset string) (registered_ids (range_Stops 0 feed))).
  { apply InitKeys_sealed. }
  rewrite registered_ids_keys by done. apply set_eq. intros k.
  rewrite elem_of_list_to_set, range_Stops_keys. apply elem_of_elements.
Qed.

Lemma registered_counted feed :
  feed_wf feed → Z.of_nat (base.size feed) ≤ int_max →
  counted (register (range_Stops 0 feed)).2 ∧
  NumDisjointSets (register (range_Stops 0 feed)).2 = Z.of_nat (base.size feed).
Proof.
  intros Hwf Hsize. rewrite register_spec. simpl.
  assert (Hlen : length (registered_ids (range_Stops 0 feed)) = base.size feed).
  { rewrite registered_ids_keys by done. rewrite range_Stops_keys.
    by rewrite <- size_dom. }
  rewrite <- Hlen in *. apply InitKeys_counted; [|done].
  rewrite registered_ids_keys by done. rewrite range_Stops_keys. apply NoDup_elements.
Qed.

Lemma index_points feed p :
  feed_wf feed →
  p ∈ KD.points_of (BuildKDTreeParallelLimited (register (range_Stops 0 feed)).1 0) →
  gtfs.Id (KD.Data p) ∈ dom feed.
Proof.
  intros Hwf. unfold BuildKDTreeParallelLimited.
  rewrite (proj2 (KDFacts.BuildKDTree_inv _ 0)). rewrite register_spec. simpl.
  rewrite list_elem_of_fmap. intros [[k s] [-> Hin]]. simpl.
  apply (range_Stops_elem 0) in Hin.
  rewrite (wf_ids _ Hwf _ _ Hin). apply elem_of_dom. by eexists.
Qed.

Lemma seeded_spec feed :
  feed_wf feed →
  ∃ uf1, seeded feed = Some uf1 ∧ sealed uf1 (dom feed) ∧
         (Z.of_nat (base.size feed) ≤ int_max → counted uf1).
Proof.
  intros Hwf. unfold EPS.seeded.
  destruct (seed_spec (range_Stops 1 feed) (register (range_Stops 0 feed)).2 (dom feed))
    as (uf1 & Hrun & Hs1 & Hc1).
  { by apply registered_sealed. }
  { intros k s Hin%range_Stops_elem. split.
    - rewrite (wf_ids _ Hwf _ _ Hin). apply elem_of_dom. by eexists.
    - intros q Hq. by eapply wf_refs. }
  exists uf1. split_and!; [done..|]. intros Hsize.
  apply Hc1. by apply registered_counted.
Qed.

Lemma clustered_spec feed :
  feed_wf feed →
  ∃ uf1 uf2, seeded feed = Some uf1 ∧ clustered feed = Some uf2 ∧
             sealed uf1 (dom feed) ∧ sealed uf2 (dom feed) ∧
             (Z.of_nat (base.size feed) ≤ int_max → counted uf1 ∧ counted uf2).
Proof.
  intros Hwf. destruct (seeded_spec feed Hwf) as (uf1 & Hseed & Hs1 & Hc1).
  destruct (propose_spec normalize Ratio
              (BuildKDTreeParallelLimited (register (range_Stops 0 feed)).1 0)
              (range_Stops 2 feed) uf1 (dom feed) Hs1) as (uf2 & Hrun & Hs2 & Hc2).
  { intros p. by apply index_points. }
  { intros k s Hin%range_Stops_elem.
    rewrite (wf_ids _ Hwf _ _ Hin). apply elem_of_dom. by eexists. }
  exists uf1, uf2. unfold EPS.clustered. rewrite Hseed. simpl.
  split_and!; [done..|]. intros Hsize. split; [by apply Hc1|by apply Hc2, Hc1].
Qed.
End Ranges.
End EPSFacts.

(** ** The processor: what happens to the feed *)

Module EPSFeed.
Import UF UFFacts UFSeq UFSealed EPS EPSFacts.
Section FeedFacts.
Abbreviation Feed := (gmap string gtfs.Stop).
Abbreviation UnionFind := (UnionFind (T := string)).
Abbreviation sealed := (sealed "").
Abbreviation root_of := (root_of "").

Implicit Types (feed F G : Feed) (uf : UnionFind) (s o stop orig : gtfs.Stop)
  (k q r key parID : string) (D : gset string).

(** [s'] is the stop [s], up to its parent reference. *)
Definition same_stop s s' : Prop :=
  s' = gtfs.with_Parent_station s (gtfs.Parent_station s').

(** [grown G F]: the feed [F] holds the stops of [G], each up to its
    parent reference, and beside them only synthetic parent stations
    ["par::" + q] for ids [q] of [G]; its parent references point into
    [F]. *)
Record grown G F : Prop := {
  g_keep : ∀ k s, G !! k = Some s → ∃ s', F !! k = Some s' ∧ same_stop s s';
  g_new : ∀ k s', F !! k = Some s' → k ∉ dom G →
            (∃ q, q ∈ dom G ∧ k = par q) ∧ gtfs.Id s' = k ∧
            gtfs.Location_type s' = 1 ∧ gtfs.Parent_station s' = None;
  g_refs : ∀ k s' q, F !! k = Some s' → gtfs.Parent_station s' = Some q →
             q ∈ dom F
}.

Lemma same_stop_refl s : same_stop s s.
Proof. by destruct s. Qed.

Lemma same_stop_with_parent s s' p :
  same_stop s s' → same_stop s (gtfs.with_Parent_station s' p).
Proof. unfold same_stop. intros ->. by destruct s. Qed.

Lemma grown_refl G : feed_wf G → grown G G.
Proof.
  intros [Hids Hrefs]. split.
  - intros k s Hs. exists s. split; [done|apply same_stop_refl].
  - intros k s' Hs Hk. destruct Hk. apply elem_of_dom. by eexists.
  - done.
Qed.

Lemma grown_dom G F : grown G F → dom G ⊆ dom F.
Proof.
  intros Hg k [s Hs]%elem_of_dom.
  destruct (g_keep _ _ Hg k s Hs) as (s' & Hs' & _). apply elem_of_dom. by eexists.
Qed.

Lemma grown_wf G F : feed_wf G → grown G F → feed_wf F.
Proof.
  intros [Hids _] Hg. split; [|apply Hg].
  intros k s' Hs'. destruct (decide (k ∈ dom G)) as [Hk|Hk].
  - apply elem_of_dom in Hk as [s Hs].
    destruct (g_keep _ _ Hg k s Hs) as (s'' & Hs'' & Hsame). simplify_eq.
    rewrite Hsame. simpl. by eapply Hids.
  - by destruct (g_new _ _ Hg k s' Hs' Hk) as (_ & ? & _).
Qed.

Lemma ensure_parent_lookup F parID orig k :
  k ∈ dom F → ensure_parent F parID orig !! k = F !! k.
Proof.
  intros Hk. unfold ensure_parent. case_decide as Hp; [done|].
  rewrite lookup_insert_ne; [done|]. intros ->. done.
Qed.

Lemma ensure_parent_dom F parID orig :
  dom (ensure_parent F parID orig) = dom F ∪ {[parID]}.
Proof.
  unfold ensure_parent. case_decide; [set_solver|].
  rewrite dom_insert_L. set_solver.
Qed.

Lemma grown_ensure G F q orig :
  grown G F → q ∈ dom G → grown G (ensure_parent F (par q) orig).
Proof.
  intros Hg Hq. unfold ensure_parent. case_decide as Hp; [done|].
  pose proof (grown_dom _ _ Hg) as Hsub.
  split.
  - intros k s Hs. destruct (g_keep _ _ Hg k s Hs) as (s' & Hs' & Hsame).
    exists s'. split; [|done]. rewrite lookup_insert_ne; [done|].
    intros <-. apply Hp. apply elem_of_dom. by eexists.
  - intros k s'. rewrite lookup_insert. case_decide as Hk.
    + intros [= <-] Hk0. subst k. split_and!; [by exists q|done..].
    + apply Hg.
  - intros k s' q'. rewrite dom_insert_L, lookup_insert. case_decide.
    + by intros [= <-].
    + intros Hs' Hq'. apply elem_of_union_r. by eapply g_refs.
Qed.

Lemma grown_set_parent G F key stop p :
  grown G F → key ∈ dom G → F !! key = Some stop → p ∈ dom F →
  grown G (<[key := gtfs.with_Parent_station stop (Some p)]> F).
Proof.
  intros Hg Hkey Hstop Hp. split.
  - intros k s Hs. destruct (g_keep _ _ Hg k s Hs) as (s' & Hs' & Hsame).
    rewrite lookup_insert. case_decide as Hk.
    + subst k. simplify_eq. eexists. split; [done|]. by apply same_stop_with_parent.
    + by exists s'.
  - intros k s'. rewrite lookup_insert. case_decide as Hk.
    + by subst k.
    + apply Hg.
  - intros k s' q'. rewrite dom_insert_L, lookup_insert. case_decide.
    + intros [= <-]. simpl. intros [= <-]. by apply elem_of_union_r.
    + intros Hs' Hq'. apply elem_of_union_r. by eapply g_refs.
Qed.

(** *** The remapping loop *)

Lemma remap_stop_spec G F key :
  feed_wf G → grown G F → key ∈ dom G → F !! key = G !! key →
  grown G (remap_stop F key) ∧
  dom F ⊆ dom (remap_stop F key) ∧
  (∀ k, k ≠ key → k ∈ dom F → remap_stop F key !! k = F !! k) ∧
  (∀ s q, G !! key = Some s → gtfs.Parent_station s = Some q →
          par q ∈ dom (remap_stop F key)).
Proof.
  intros Hwf Hg Hkey Hsame. unfold remap_stop. rewrite Hsame.
  apply elem_of_dom in Hkey as [s Hs]. rewrite Hs.
  destruct (gtfs.Parent_station s) as [q|] eqn:Hq;
    [|split_and!; [done..|intros s' q' [= <-] Hq'; congruence]].
  assert (Hq0 : q ∈ dom G) by by eapply wf_refs.
  assert (Hkey : key ∈ dom G) by (apply elem_of_dom; by eexists).
  assert (Hkey' : key ∈ dom F) by by eapply grown_dom.
  cbv zeta. split_and!.
  - apply grown_set_parent; [by apply grown_ensure|done| |].
    + rewrite ensure_parent_lookup by done. congruence.
    + rewrite ensure_parent_dom. set_solver.
  - rewrite dom_insert_L, ensure_parent_dom. set_solver.
  - intros k Hk Hkd. rewrite lookup_insert_ne by done. by apply ensure_parent_lookup.
  - intros s' q' ? ?. simplify_eq. rewrite dom_insert_L, ensure_parent_dom. set_solver.
Qed.

Lemma remap_spec G keys F :
  feed_wf G → NoDup keys → (∀ k, k ∈ keys → k ∈ dom G) →
  grown G F → (∀ k, k ∈ keys → F !! k = G !! k) →
  grown G (remap keys F) ∧
  dom F ⊆ dom (remap keys F) ∧
  (∀ k s q, k ∈ keys → G !! k = Some s → gtfs.Parent_station s = Some q →
            par q ∈ dom (remap keys F)).
Proof.
  intros Hwf. revert F.
  induction keys as [|key keys IH]; intros F Hnd Hkeys Hg Hsame; simpl.
  { split_and!; [done..|]. intros k s q Hk. by apply elem_of_nil in Hk. }
  apply NoDup_cons in Hnd as [Hnotin Hnd].
  destruct (remap_stop_spec G F key Hwf Hg) as (Hg1 & Hdom1 & Hother & Hpar);
    [apply Hkeys; by left|apply Hsame; by left|].
  destruct (IH (remap_stop F key) Hnd) as (Hg' & Hdom' & Hpar'); [| done | |].
  { intros k Hk. apply Hkeys. by right. }
  { intros k Hk. rewrite Hother.
    - apply Hsame. by right.
    - intros ->. done.
    - eapply grown_dom; [done|]. apply Hkeys. by right. }
  split_and!; [done|set_solver|].
  intros k s q [->|Hk]%elem_of_cons Hs Hq.
  - apply Hdom'. by eapply Hpar.
  - by eapply Hpar'.
Qed.

(** *** The [Apply] loop *)

(** The stop under [k] refers to the synthetic parent of its root. *)
Definition parented uf F k : Prop :=
  ∃ s' r, F !! k = Some s' ∧ gtfs.Parent_station s' = Some (par r) ∧
          root_of uf k r ∧ r ∈ dom (parent uf) ∧ par r ∈ dom F.

Lemma assign_parent_spec G F key r :
  grown G F → key ∈ dom G → r ∈ dom G →
  ∃ F', assign_parent key r F = Some F' ∧ grown G F' ∧ dom F ⊆ dom F' ∧
        (∃ s', F' !! key = Some s' ∧ gtfs.Parent_station s' = Some (par r)) ∧
        par r ∈ dom F' ∧
        (∀ k, k ≠ key → k ∈ dom F → F' !! k = F !! k).
Proof.
  intros Hg Hkey Hr.
  pose proof (grown_dom _ _ Hg) as Hsub.
  destruct (proj1 (elem_of_dom F key) (Hsub _ Hkey)) as [stop Hstop].
  destruct (proj1 (elem_of_dom F r) (Hsub _ Hr)) as [orig Horig].
  exists (<[key := gtfs.with_Parent_station stop (Some (par r))]>
            (ensure_parent F (par r) orig)).
  split_and!.
  - unfold assign_parent, ensure_parent. rewrite Hstop, Horig.
    by case_decide.
  - apply grown_set_parent; [by apply grown_ensure|done| |].
    + by rewrite ensure_parent_lookup by (apply elem_of_dom; by eexists).
    + rewrite ensure_parent_dom. set_solver.
  - rewrite dom_insert_L, ensure_parent_dom. set_solver.
  - eexists. rewrite lookup_insert_eq. done.
  - rewrite dom_insert_L, ensure_parent_dom. set_solver.
  - intros k Hk Hkd. rewrite lookup_insert_ne by done. by apply ensure_parent_lookup.
Qed.

Lemma parented_same_forest uf uf' F k :
  same_forest "" uf uf' → dom (parent uf') = dom (parent uf) →
  parented uf' F k ↔ parented uf F k.
Proof.
  intros [_ _ _ _ Hroots] Hdom. unfold parented.
  setoid_rewrite Hroots. by setoid_rewrite Hdom.
Qed.

Lemma Apply_spec G keys uf F :
  sealed uf (dom G) → (∀ k, k ∈ keys → k ∈ dom G) → grown G F →
  ∃ uf' F',
    Apply_keys "" keys assign_parent uf F = Some (uf', F') ∧
    same_forest "" uf uf' ∧ sealed uf' (dom G) ∧ grown G F' ∧ dom F ⊆ dom F' ∧
    (∀ k, k ∈ keys ∨ parented uf F k → parented uf F' k).
Proof.
  revert uf F. induction keys as [|key keys IH]; intros uf F Hs Hkeys Hg; simpl.
  { exists uf, F. split_and!; [done|apply same_forest_refl|done..|].
    intros k [Hk|?]; [by apply elem_of_nil in Hk|done]. }
  assert (Hkey : key ∈ dom G) by (apply Hkeys; by left).
  destruct (FindSet_sealed "" uf (dom G) key Hs Hkey)
    as (uf1 & r & -> & Hr & Hrd & Hsf1 & Hs1).
  simpl.
  destruct (assign_parent_spec G F key r Hg Hkey Hrd)
    as (F1 & -> & Hg1 & Hdom1 & (s1 & Hs1' & Hp1) & Hpar1 & Hother).
  simpl.
  destruct (IH uf1 F1 Hs1) as (uf' & F' & Hrun & Hsf' & Hs' & Hg' & Hdom' & Hpar');
    [intros k Hk; apply Hkeys; by right|done|].
  assert (Hdoms : dom (parent uf1) = dom (parent uf)).
  { by rewrite (sealed_dom _ _ _ Hs1), (sealed_dom _ _ _ Hs). }
  exists uf', F'. split_and!; [done|by eapply same_forest_trans|done..|set_solver|].
  intros k Hk. apply (parented_same_forest uf uf1); [done..|].
  apply Hpar'. destruct Hk as [[->|Hk]%elem_of_cons|Hk].
  - right. exists s1, r. split_and!; [done..|by apply Hsf1| |done].
    by rewrite (sealed_dom _ _ _ Hs1).
  - by left.
  - right. apply (parented_same_forest uf uf1); [done..|].
    destruct Hk as (s' & r' & Hs'' & Hp' & Hr' & Hrd' & Hpd).
    destruct (decide (k = key)) as [->|Hne].
    + exists s1, r. split_and!; [done..|by rewrite (sealed_dom _ _ _ Hs)|done].
    + exists s', r'. split_and!; [|done..|by apply Hdom1].
      rewrite Hother; [done..|]. apply elem_of_dom. by eexists.
Qed.

(** *** The last loop *)

Lemma backfill_stop_id F key :
  (∀ k s, F !! k = Some s → gtfs.Location_type s = 0 →
          gtfs.Parent_station s ≠ None) →
  backfill_stop F key = F.
Proof.
  intros Hall. unfold backfill_stop. destruct (F !! key) as [stop|] eqn:Hstop; [|done].
  rewrite decide_False; [done|]. intros [Hl Hp]. by eapply Hall.
Qed.

Lemma backfill_id keys F :
  (∀ k s, F !! k = Some s → gtfs.Location_type s = 0 →
          gtfs.Parent_station s ≠ None) →
  backfill keys F = F.
Proof.
  intros Hall. induction keys as [|key keys IH]; simpl; [done|].
  by rewrite backfill_stop_id.
Qed.
End FeedFacts.
End EPSFeed.

(** ** The remapping loop: what it writes *)

Module EPSRemap.
Import EPS EPSFeed.

Lemma remap_stop_other (F : gmap string gtfs.Stop) (key k : string) :
  k ≠ key → k ∈ dom F → remap_stop F key !! k = F !! k.
Proof.
  intros Hne Hk. unfold remap_stop.
  destruct (F !! key) as [stop|]; [|done].
  destruct (gtfs.Parent_station stop) as [parent|]; [|done].
  rewrite lookup_insert_ne by done. by apply ensure_parent_lookup.
Qed.

Lemma remap_stop_at (F : gmap string gtfs.Stop) (key : string) (s : gtfs.Stop)
    (q : string) :
  F !! key = Some s → gtfs.Parent_station s = Some q →
  remap_stop F key !! key = Some (gtfs.with_Parent_station s (Some (par q))).
Proof.
  intros Hs Hq. unfold remap_stop. rewrite Hs, Hq. by rewrite lookup_insert_eq.
Qed.

Lemma remap_stop_dom (F : gmap string gtfs.Stop) (key k : string) :
  k ∈ dom F → k ∈ dom (remap_stop F key).
Proof.
  intros Hk. unfold remap_stop.
  destruct (F !! key) as [stop|]; [|done].
  destruct (gtfs.Parent_station stop) as [parent|]; [|done].
  rewrite dom_insert_L, ensure_parent_dom. set_solver.
Qed.

Lemma remap_not_in (keys : list string) (F : gmap string gtfs.Stop) (k : string) :
  k ∉ keys → k ∈ dom F → remap keys F !! k = F !! k.
Proof.
  revert F. induction keys as [|key keys IH]; intros F Hk Hdom; [done|].
  apply not_elem_of_cons in Hk as [Hne Hk]. simpl.
  change (foldl remap_stop (remap_stop F key) keys) with (remap keys (remap_stop F key)).
  rewrite IH; [by apply remap_stop_other|done|by apply remap_stop_dom].
Qed.

(** A stop with a parent reference [q] leaves the loop with the
    reference ["par::" + q]. *)
Lemma remap_lookup (keys : list string) (F : gmap string gtfs.Stop) (k : string)
    (s : gtfs.Stop) (q : string) :
  NoDup keys → k ∈ keys → F !! k = Some s → gtfs.Parent_station s = Some q →
  remap keys F !! k = Some (gtfs.with_Parent_station s (Some (par q))).
Proof.
  revert F. induction keys as [|key keys IH]; intros F Hnd Hk Hs Hq.
  { by apply elem_of_nil in Hk. }
  apply NoDup_cons in Hnd as [Hnotin Hnd]. simpl.
  change (foldl remap_stop (remap_stop F key) keys) with (remap keys (remap_stop F key)).
  apply elem_of_cons in Hk as [->|Hk].
  - rewrite remap_not_in; [by apply remap_stop_at|done|].
    apply remap_stop_dom, elem_of_dom. by eexists.
  - apply IH; [done..| |done].
    rewrite remap_stop_other; [done| |apply elem_of_dom; by eexists].
    intros ->. done.
Qed.
End EPSRemap.

(** ** The processor: claims *)

Module EPSClaims.
Import UF UFFacts UFSeq UFSealed EPS EPSFacts EPSFeed EPSRemap.
Section RunClaims.
Variable normalize : string → string.
Variable Ratio : string → string → Z.
Variable range_Stops : nat → gmap string gtfs.Stop → list (string * gtfs.Stop).
Variable range_parent : gmap string string → list string.
Hypothesis Hranges : ranges_ok range_Stops range_parent.

Abbreviation Feed := (gmap string gtfs.Stop).
Abbreviation UnionFind := (UnionFind (T := string)).
Abbreviation sealed := (sealed "").
Abbreviation counted := (counted "").
Abbreviation root_of := (root_of "").
Abbreviation seeded := (seeded range_Stops).
Abbreviation clustered := (clustered normalize Ratio range_Stops).
Abbreviation Run := (Run normalize Ratio range_Stops range_parent).

Implicit Types (feed F G : Feed) (uf : UnionFind) (s o stop orig : gtfs.Stop)
  (k q r key parID : string) (D : gset string).

Lemma Run_spec G :
  feed_wf G →
  ∃ F' uf1 uf2,
    Run G = Some (F', NumDisjointSets uf1, NumDisjointSets uf2) ∧
    seeded G = Some uf1 ∧ clustered G = Some uf2 ∧
    sealed uf1 (dom G) ∧ sealed uf2 (dom G) ∧
    (Z.of_nat (base.size G) ≤ int_max → counted uf1 ∧ counted uf2) ∧
    grown G F' ∧
    (∀ k, k ∈ dom G → parented uf2 F' k) ∧
    (∀ k s q, G !! k = Some s → gtfs.Parent_station s = Some q →
              par q ∈ dom F').
Proof.
  intros Hwf.
  destruct (clustered_spec normalize Ratio range_Stops range_parent Hranges G Hwf)
    as (uf1 & uf2 & Hseed & Hclus & Hs1 & Hs2 & Hcount).
  (* the remapping loop *)
  destruct (remap_spec G (range_Stops 3 G).*1 G Hwf) as (Hg1 & _ & Hpar1).
  { rewrite (range_Stops_keys _ _ Hranges). apply NoDup_elements. }
  { intros k. rewrite (range_Stops_keys _ _ Hranges). apply elem_of_elements. }
  { by apply grown_refl. }
  { done. }
  set (F1 := remap (range_Stops 3 G).*1 G) in *.
  (* the Apply loop *)
  destruct (Apply_spec G (range_parent (parent uf2)) uf2 F1 Hs2)
    as (uf3 & F2 & Happly & Hsf3 & Hs3 & Hg2 & Hdom2 & Hpar2); [|done|].
  { intros k. destruct Hranges as [_ Hrp]. rewrite (Hrp (parent uf2)).
    rewrite elem_of_elements. by rewrite (sealed_dom _ _ _ Hs2). }
  assert (Hall : ∀ k, k ∈ dom G → parented uf2 F2 k).
  { intros k Hk. apply Hpar2. left. destruct Hranges as [_ Hrp].
    rewrite (Hrp (parent uf2)), elem_of_elements. by rewrite (sealed_dom _ _ _ Hs2). }
  (* the last loop finds nothing to do *)
  assert (Hback : backfill (range_Stops 4 F2).*1 F2 = F2).
  { apply backfill_id. intros k s Hs Hloc.
    destruct (decide (k ∈ dom G)) as [Hk|Hk].
    - destruct (Hall k Hk) as (s' & r & Hs' & Hp & _). simplify_eq. congruence.
    - destruct (g_new _ _ Hg2 k s Hs Hk) as (_ & _ & Hloc' & _). congruence. }
  exists F2, uf1, uf2. split_and!; try done.
  - unfold EPS.Run. unfold EPS.seeded in Hseed. unfold EPS.clustered, EPS.seeded in Hclus.
    destruct (register (range_Stops 0 G)) as [points uf0]. simpl in *.
    rewrite Hseed in *. simpl in *. rewrite Hclus. simpl.
    fold F1. rewrite Happly. simpl. rewrite Hback.
    unfold NumDisjointSets. by destruct Hsf3 as [_ _ -> _ _].
  - intros k s q Hs Hq. apply Hdom2. eapply Hpar1; [|done..].
    rewrite (range_Stops_keys _ _ Hranges). apply elem_of_elements, elem_of_dom.
    by eexists.
Qed.

(** C5. After one full pass of [Run] over a feed (which returns), every
    stop that was in the feed at the start is still there and has a
    non-nil [Parent_station]: it refers to the synthetic station
    ["par::" + r] of the root [r] of its cluster, which is in the feed.
    An isolated stop is its own root and refers to its own synthetic
    station. *)
Theorem total_parent_coverage G :
  feed_wf G →
  ∃ F' prev after uf,
    Run G = Some (F', prev, after) ∧ clustered G = Some uf ∧
    ∀ k s, G !! k = Some s →
      ∃ s' r, F' !! k = Some s' ∧ gtfs.Parent_station s' ≠ None ∧
              root_of uf k r ∧ gtfs.Parent_station s' = Some (par r) ∧
              par r ∈ dom F' ∧
              (root_of uf k k → gtfs.Parent_station s' = Some (par k)).
Proof.
  intros Hwf. destruct (Run_spec G Hwf)
    as (F' & uf1 & uf2 & Hrun & _ & Hclus & _ & _ & _ & _ & Hall & _).
  exists F', (NumDisjointSets uf1), (NumDisjointSets uf2), uf2.
  split_and!; [done..|]. intros k s Hs.
  destruct (Hall k) as (s' & r & Hs' & Hp & Hr & _ & Hpd).
  { apply elem_of_dom. by eexists. }
  exists s', r. split_and!; [done|congruence|done..|].
  intros Hk. by rewrite (root_of_det _ _ _ _ _ Hk Hr).
Qed.

(** C7 (as amended). The two numbers of [Run] are the number of
    disjoint sets after the hierarchy-seeding unions (and before the
    proximity unions), and the number of disjoint sets after all unions. *)
Theorem reported_counts G :
  feed_wf G → Z.of_nat (base.size G) ≤ int_max →
  ∃ F' prev after uf1 uf2,
    Run G = Some (F', prev, after) ∧
    seeded G = Some uf1 ∧ clustered G = Some uf2 ∧
    prev = Z.of_nat (base.size (roots_set "" uf1)) ∧
    after = Z.of_nat (base.size (roots_set "" uf2)).
Proof.
  intros Hwf Hsize. destruct (Run_spec G Hwf)
    as (F' & uf1 & uf2 & Hrun & Hseed & Hclus & _ & _ & Hcount & _).
  destruct (Hcount Hsize) as [Hc1 Hc2].
  exists F', (NumDisjointSets uf1), (NumDisjointSets uf2), uf1, uf2.
  by split_and!.
Qed.

(** C4 (as amended). A second run on the feed that a first run produced
    returns and keeps every stop record, but it is not idle.  A run only
    adds records ["par::" + q] for ids [q] that were in the feed when it
    started.  After the first run every stop [k] of the input refers to
    a parent ["par::" + r] that is in the feed; the remapping loop of
    the second run turns that reference of [k] into ["par::par::" + r]
    and stores a record under that id; the record is in the feed that
    the second run leaves, in which [k] refers to the station
    ["par::" + r2] of its set in the second forest. *)
Theorem second_run_adds_parents G :
  feed_wf G →
  ∃ F1 prev1 after1 F2 prev2 after2,
    Run G = Some (F1, prev1, after1) ∧ Run F1 = Some (F2, prev2, after2) ∧
    dom G ⊆ dom F1 ∧ dom F1 ⊆ dom F2 ∧
    (∀ k, k ∈ dom F1 → k ∉ dom G → ∃ q, q ∈ dom G ∧ k = par q) ∧
    (∀ k, k ∈ dom F2 → k ∉ dom F1 → ∃ q, q ∈ dom F1 ∧ k = par q) ∧
    (∀ k, k ∈ dom G →
       ∃ r s1 s1' s2 r2,
         r ∈ dom G ∧
         (* after the first run *)
         F1 !! k = Some s1 ∧ gtfs.Parent_station s1 = Some (par r) ∧
         par r ∈ dom F1 ∧
         (* after the remapping loop of the second run *)
         remap (range_Stops 3 F1).*1 F1 !! k = Some s1' ∧
         gtfs.Parent_station s1' = Some (par (par r)) ∧
         par (par r) ∈ dom (remap (range_Stops 3 F1).*1 F1) ∧
         (* after the second run *)
         par (par r) ∈ dom F2 ∧
         F2 !! k = Some s2 ∧ gtfs.Parent_station s2 = Some (par r2) ∧
         r2 ∈ dom F1 ∧ par r2 ∈ dom F2).
Proof.
  intros Hwf. destruct (Run_spec G Hwf)
    as (F1 & uf1 & uf2 & Hrun1 & _ & _ & _ & Hs2 & _ & Hg1 & Hall1 & _).
  pose proof (grown_wf _ _ Hwf Hg1) as Hwf1.
  destruct (Run_spec F1 Hwf1)
    as (F2 & uf1' & uf2' & Hrun2 & _ & _ & _ & Hs2' & _ & Hg2 & Hall2 & Hpar2).
  exists F1, (NumDisjointSets uf1), (NumDisjointSets uf2),
         F2, (NumDisjointSets uf1'), (NumDisjointSets uf2').
  split_and!; [done|done|by eapply grown_dom|by eapply grown_dom| | |].
  - intros k [s' Hs']%elem_of_dom Hk.
    by destruct (g_new _ _ Hg1 k s' Hs' Hk) as (? & _).
  - intros k [s' Hs']%elem_of_dom Hk.
    by destruct (g_new _ _ Hg2 k s' Hs' Hk) as (? & _).
  - intros k Hk. destruct (Hall1 k Hk) as (s1 & r & Hs1 & Hp1 & _ & Hrd & Hpd).
    assert (Hk1 : k ∈ dom F1) by (apply elem_of_dom; by eexists).
    destruct (Hall2 k Hk1) as (s2 & r2 & Hs2k & Hp2 & _ & Hrd2 & Hpd2).
    assert (Hkeys : k ∈ (range_Stops 3 F1).*1).
    { rewrite (range_Stops_keys _ _ Hranges). by apply elem_of_elements. }
    assert (Hnd : NoDup (range_Stops 3 F1).*1).
    { rewrite (range_Stops_keys _ _ Hranges). apply NoDup_elements. }
    destruct (remap_spec F1 (range_Stops 3 F1).*1 F1 Hwf1 Hnd) as (_ & _ & Hremap).
    { intros k'. rewrite (range_Stops_keys _ _ Hranges). apply elem_of_elements. }
    { by apply grown_refl. }
    { done. }
    exists r, s1, (gtfs.with_Parent_station s1 (Some (par (par r)))), s2, r2.
    split_and!.
    + by rewrite <- (sealed_dom _ _ _ Hs2).
    + done.
    + done.
    + done.
    + by apply remap_lookup.
    + done.
    + by eapply Hremap.
    + by eapply Hpar2.
    + done.
    + done.
    + by rewrite <- (sealed_dom _ _ _ Hs2').
    + done.
Qed.
End RunClaims.

(** *** Concrete feeds *)

(** Go may range over a map in any order; this is one of them. *)
Definition range_sorted (n : nat) (m : gmap string gtfs.Stop)
  : list (string * gtfs.Stop) := map_to_list m.
Definition range_parent_sorted (m : gmap string string) : list string :=
  elements (dom m).

Lemma ranges_sorted_ok : ranges_ok range_sorted range_parent_sorted.
Proof. by split. Qed.

(** A stand-in for [fuzzy.Ratio]: 100 on equal strings, 0 otherwise. *)
Definition exact_Ratio (a b : string) : Z := if String.eqb a b then 100 else 0.

Definition normalize_source_order : string → string :=
  normalize (λ name, name) replacements.

Definition Run_sorted :=
  EPS.Run normalize_source_order exact_Ratio range_sorted range_parent_sorted.

Definition station (id : string) (parent : option string) : gtfs.Stop :=
  gtfs.mkStop id "Hauptbahnhof" 50 8 0 parent "Europe/Berlin".

(** One stop without a parent; a stop ["A"] whose parent is the stop
    ["B"]. *)
Definition feed_A : gmap string gtfs.Stop := {[ "A" := station "A" None ]}.
Definition feed_AB : gmap string gtfs.Stop :=
  <["A" := station "A" (Some "B")]> {[ "B" := station "B" None ]}.

Lemma feed_A_wf : feed_wf feed_A.
Proof.
  unfold feed_A. split.
  - intros k s [<- <-]%lookup_singleton_Some. done.
  - intros k s q [<- <-]%lookup_singleton_Some. done.
Qed.

Lemma feed_AB_wf : feed_wf feed_AB.
Proof.
  unfold feed_AB. split.
  - intros k s. rewrite lookup_insert. case_decide.
    + intros [= <-]. done.
    + intros [<- <-]%lookup_singleton_Some. done.
  - intros k s q. rewrite lookup_insert. case_decide.
    + intros [= <-] [= <-]. set_solver.
    + intros [<- <-]%lookup_singleton_Some. done.
Qed.

Lemma total_parent_coverage_witness :
  ∃ F' prev after uf,
    Run_sorted feed_AB = Some (F', prev, after) ∧
    clustered normalize_source_order exact_Ratio range_sorted feed_AB = Some uf ∧
    ∀ k s, feed_AB !! k = Some s →
      ∃ s' r, F' !! k = Some s' ∧ gtfs.Parent_station s' ≠ None ∧
              root_of "" uf k r ∧ gtfs.Parent_station s' = Some (par r) ∧
              par r ∈ dom F' ∧
              (root_of "" uf k k → gtfs.Parent_station s' = Some (par k)).
Proof.
  apply (total_parent_coverage normalize_source_order exact_Ratio
           range_sorted range_parent_sorted ranges_sorted_ok feed_AB).
  apply feed_AB_wf.
Defined.

Lemma reported_counts_witness :
  ∃ F' prev after uf1 uf2,
    Run_sorted feed_AB = Some (F', prev, after) ∧
    seeded range_sorted feed_AB = Some uf1 ∧
    clustered normalize_source_order exact_Ratio range_sorted feed_AB = Some uf2 ∧
    prev = Z.of_nat (base.size (roots_set "" uf1)) ∧
    after = Z.of_nat (base.size (roots_set "" uf2)).
Proof.
  apply (reported_counts normalize_source_order exact_Ratio
           range_sorted range_parent_sorted ranges_sorted_ok feed_AB).
  - apply feed_AB_wf.
  - vm_compute. discriminate.
Defined.

Lemma second_run_adds_parents_witness :
  ∃ F1 prev1 after1 F2 prev2 after2,
    Run_sorted feed_A = Some (F1, prev1, after1) ∧
    Run_sorted F1 = Some (F2, prev2, after2) ∧
    dom feed_A ⊆ dom F1 ∧ dom F1 ⊆ dom F2 ∧
    (∀ k, k ∈ dom F1 → k ∉ dom feed_A → ∃ q, q ∈ dom feed_A ∧ k = par q) ∧
    (∀ k, k ∈ dom F2 → k ∉ dom F1 → ∃ q, q ∈ dom F1 ∧ k = par q) ∧
    (∀ k, k ∈ dom feed_A →
       ∃ r s1 s1' s2 r2,
         r ∈ dom feed_A ∧
         F1 !! k = Some s1 ∧ gtfs.Parent_station s1 = Some (par r) ∧
         par r ∈ dom F1 ∧
         remap (range_sorted 3 F1).*1 F1 !! k = Some s1' ∧
         gtfs.Parent_station s1' = Some (par (par r)) ∧
         par (par r) ∈ dom (remap (range_sorted 3 F1).*1 F1) ∧
         par (par r) ∈ dom F2 ∧
         F2 !! k = Some s2 ∧ gtfs.Parent_station s2 = Some (par r2) ∧
         r2 ∈ dom F1 ∧ par r2 ∈ dom F2).
Proof.
  apply (second_run_adds_parents normalize_source_order exact_Ratio
           range_sorted range_parent_sorted ranges_sorted_ok feed_A).
  apply feed_A_wf.
Defined.

(** C4 fails on the code: the first run over the single stop ["A"] adds
    ["par::A"]; the second run adds ["par::par::A"]. *)
Lemma second_run_changes_feed :
  ∃ F1 prev1 after1 F2 prev2 after2,
    Run_sorted feed_A = Some (F1, prev1, after1) ∧
    Run_sorted F1 = Some (F2, prev2, after2) ∧
    "par::par::A" ∈ dom F2 ∧ "par::par::A" ∉ dom F1.
Proof.
  assert (Hdom : dom feed_A = {["A"]}) by (unfold feed_A; apply dom_singleton_L).
  destruct (Run_spec normalize_source_order exact_Ratio
              range_sorted range_parent_sorted ranges_sorted_ok feed_A feed_A_wf)
    as (F1 & uf1 & uf2 & Hrun1 & _ & _ & _ & Hs2 & _ & Hg1 & Hall1 & _).
  destruct (Run_spec normalize_source_order exact_Ratio
              range_sorted range_parent_sorted ranges_sorted_ok F1
              (grown_wf _ _ feed_A_wf Hg1))
    as (F2 & uf1' & uf2' & Hrun2 & _ & _ & _ & _ & _ & _ & _ & Hpar2).
  exists F1, (NumDisjointSets uf1), (NumDisjointSets uf2),
         F2, (NumDisjointSets uf1'), (NumDisjointSets uf2').
  split_and!; [done..| |].
  - (* after the first run, "A" refers to "par::A" *)
    destruct (Hall1 "A") as (s' & r & Hs' & Hp & _ & Hr & _).
    { rewrite Hdom. by apply elem_of_singleton. }
    rewrite (sealed_dom _ _ _ Hs2), Hdom in Hr.
    apply elem_of_singleton in Hr. subst r.
    by apply (Hpar2 "A" s' (par "A")).
  - (* the first run only adds "par::" + an id of the feed *)
    intros [s' Hs']%elem_of_dom.
    destruct (g_new _ _ Hg1 _ s' Hs') as ((q & Hq & Heq) & _).
    + rewrite Hdom. by intros ?%elem_of_singleton.
    + rewrite Hdom in Hq. apply elem_of_singleton in Hq. by subst q.
Qed.

(** C7 fails on the code: with the stop ["A"] below the station ["B"],
    two sets are registered, the seeding loop unites them, and [prev] is
    read after it: it is 1, not 2. *)
Lemma prev_is_read_after_seeding :
  NumDisjointSets (register (range_sorted 0 feed_AB)).2 = 2 ∧
  ∃ F' after, Run_sorted feed_AB = Some (F', 1, after).
Proof.
  split; [vm_compute; reflexivity|].
  destruct (Run_spec normalize_source_order exact_Ratio
              range_sorted range_parent_sorted ranges_sorted_ok feed_AB feed_AB_wf)
    as (F' & uf1 & uf2 & Hrun & Hseed & _).
  assert (Hprev : NumDisjointSets <$> seeded range_sorted feed_AB = Some 1)
    by (vm_compute; reflexivity).
  rewrite Hseed in Hprev. simpl in Hprev. injection Hprev as Hprev.
  exists F', (NumDisjointSets uf2). by rewrite <- Hprev.
Qed.

End EPSClaims.

(** ** Haversine distance: further facts *)

Module HaversineFacts.
#[local] Open Scope R_scope.

(** The distance from a point to itself. *)
Lemma Haversine_self lat lon : Haversine lat lon lat lon = 0.
Proof.
  unfold Haversine. cbv zeta.
  replace ((lat - lat) * PI / 180 / 2) with 0 by lra.
  replace ((lon - lon) * PI / 180 / 2) with 0 by lra.
  rewrite sin_0.
  replace (0 * 0 + cos (lat * PI / 180) * cos (lat * PI / 180) * 0 * 0) with 0 by ring.
  rewrite Rminus_0_r, sqrt_0, sqrt_1.
  unfold Atan2. rewrite decide_True by lra.
  replace (0 / 1) with 0 by lra. rewrite atan_0. lra.
Qed.
End HaversineFacts.

(** ** The 2-D tree: range search and shape *)

Module KDMore.
Import HaversineFacts.
Import KD KDFacts.
Section Search.
Context {T : Type}.
Abbreviation Point := (Point T).
Abbreviation Node := (Node T).

Implicit Types (p q point query : Point) (node root l r : Node) (depth axis : Z)
  (results found : list Point).

(** The test of [SearchRange] on a point. *)
Definition within query (radiusKm : R) p : Prop :=
  (Haversine (Lat query) (Lon query) (Lat p) (Lon p) <= radiusKm)%R.

#[global] Instance within_dec query radiusKm p : Decision (within query radiusKm p).
Proof. unfold within. apply _. Defined.

(** The point lies in the box that [latLonBoundingBox] returns. *)
Definition in_box (box : R * R * R * R) p : Prop :=
  let '(minLat, maxLat, minLon, maxLon) := box in
  (minLat <= Lat p <= maxLat ∧ minLon <= Lon p <= maxLon)%R.

Lemma Haversine_sym lat1 lon1 lat2 lon2 :
  Haversine lat1 lon1 lat2 lon2 = Haversine lat2 lon2 lat1 lon1.
Proof.
  unfold Haversine. cbv zeta.
  replace ((lat1 - lat2) * PI / 180 / 2)%R with (- ((lat2 - lat1) * PI / 180 / 2))%R
    by field.
  replace ((lon1 - lon2) * PI / 180 / 2)%R with (- ((lon2 - lon1) * PI / 180 / 2))%R
    by field.
  rewrite !sin_neg.
  set (s1 := sin ((lat2 - lat1) * PI / 180 / 2)).
  set (s2 := sin ((lon2 - lon1) * PI / 180 / 2)).
  set (c1 := cos (lat1 * PI / 180)). set (c2 := cos (lat2 * PI / 180)).
  replace (- s1 * - s1 + c2 * c1 * - s2 * - s2)%R
    with (s1 * s1 + c1 * c2 * s2 * s2)%R by ring.
  done.
Qed.

Lemma linearSearch_within (points : list Point) query radiusKm :
  linearSearch points query radiusKm = filter (within query radiusKm) points.
Proof.
  unfold linearSearch. apply list_filter_iff. intros p. unfold within.
  by rewrite Haversine_sym.
Qed.

Lemma filter_within_node query radiusKm p l r :
  filter (within query radiusKm) (p :: points_of l ++ points_of r) =
  (if decide (within query radiusKm p) then [p] else []) ++
  filter (within query radiusKm) (points_of l) ++
  filter (within query radiusKm) (points_of r).
Proof. rewrite filter_cons, filter_app. by case_decide. Qed.

Lemma filter_none {A} (P : A → Prop) `{∀ x, Decision (P x)} (xs : list A) :
  (∀ x, x ∈ xs → ¬ P x) → filter P xs = [].
Proof.
  induction xs as [|x xs IH]; intros Hno; [done|].
  rewrite filter_cons, decide_False by (apply Hno; set_solver).
  apply IH. intros y Hy. apply Hno. set_solver.
Qed.

Lemma node_test query radiusKm np results :
  (if decide (Haversine (Lat query) (Lon query) (Lat np) (Lon np) <= radiusKm)%R
   then results ++ [np] else results) =
  results ++ (if decide (within query radiusKm np) then [np] else []).
Proof.
  repeat case_decide; unfold within in *; try done. by rewrite app_nil_r.
Qed.

(** [SearchRange] appends to the results it is given; what it appends is
    picked, in the order of [points_of], among the points of the tree
    that pass the distance test. *)
Lemma SearchRange_found node query radiusKm depth results :
  ∃ found, SearchRange node query radiusKm depth results = results ++ found ∧
           found `sublist_of` filter (within query radiusKm) (points_of node).
Proof.
  revert depth results.
  induction node as [|np l IHl r IHr axis]; intros depth results.
  { exists []. by rewrite SearchRange_Nil, app_nil_r. }
  rewrite SearchRange_node. cbv zeta. simpl points_of. rewrite filter_within_node.
  rewrite node_test.
  set (f0 := if decide (within query radiusKm np) then [np] else []).
  destruct (IHl (deeper depth) (results ++ f0)) as (fl & Hl & Hsl).
  destruct (IHr (deeper depth) ((results ++ f0) ++ fl)) as (fr & Hr & Hsr).
  destruct (IHr (deeper depth) (results ++ f0)) as (fr' & Hr' & Hsr').
  repeat case_decide; rewrite ?Hl, ?Hr, ?Hr'.
  - exists (f0 ++ fl ++ fr). split; [by rewrite <- !(assoc_L (++))|].
    by repeat apply sublist_app.
  - exists (f0 ++ [] ++ fr'). split; [by rewrite <- !(assoc_L (++))|].
    repeat apply sublist_app; [done|apply sublist_nil_l|done].
  - exists (f0 ++ fl ++ []). split; [by rewrite app_nil_r, <- !(assoc_L (++))|].
    repeat apply sublist_app; [done..|apply sublist_nil_l].
  - exists (f0 ++ [] ++ []). split; [by rewrite !app_nil_r|].
    repeat apply sublist_app; [done|apply sublist_nil_l..].
Qed.

Lemma SearchRange_keeps node query radiusKm depth results p :
  p ∈ results → p ∈ SearchRange node query radiusKm depth results.
Proof.
  intros Hp. destruct (SearchRange_found node query radiusKm depth results)
    as (found & -> & _). set_solver.
Qed.

(** The two tests that prune a subtree, in terms of the box. *)
Lemma in_box_coord query radiusKm p cd :
  in_box (latLonBoundingBox (Lat query) (Lon query) radiusKm) p →
  (coord cd query - coordDegrees radiusKm (Lat query) cd <= coord cd p ∧
   coord cd p <= coord cd query + coordDegrees radiusKm (Lat query) cd)%R.
Proof.
  unfold in_box, latLonBoundingBox, coordDegrees, coord. cbv zeta.
  intros [Hlat Hlon]. case_decide; lra.
Qed.

(** Every point of the tree that is within the radius and inside the
    bounding box of the query is reported. *)
Lemma SearchRange_complete node query radiusKm depth results p :
  kd_inv depth node → p ∈ points_of node → within query radiusKm p →
  in_box (latLonBoundingBox (Lat query) (Lon query) radiusKm) p →
  p ∈ SearchRange node query radiusKm depth results.
Proof.
  intros Hinv Hp Hw Hbox. revert depth results Hinv Hp.
  induction node as [|np l IHl r IHr axis]; intros depth results Hinv Hp.
  { by apply elem_of_nil in Hp. }
  destruct Hinv as (-> & Hlo & Hhi & Hinvl & Hinvr).
  destruct (in_box_coord query radiusKm p (axis_of depth) Hbox) as [Hb1 Hb2].
  rewrite SearchRange_node. cbv zeta. rewrite node_test.
  simpl in Hp. rewrite elem_of_cons, elem_of_app in Hp.
  destruct Hp as [->|[Hp|Hp]].
  - rewrite (decide_True (P := within query radiusKm np)) by done.
    repeat case_decide; repeat apply SearchRange_keeps; set_solver.
  - specialize (Hlo p Hp).
    rewrite (decide_True (P := (coord (axis_of depth) query - _ <= _)%R)) by lra.
    case_decide; [apply SearchRange_keeps|]; by apply IHl.
  - specialize (Hhi p Hp).
    rewrite (decide_True (P := (coord (axis_of depth) query + _ >= _)%R)) by lra.
    by apply IHr.
Qed.

(** When every point within the radius is inside the box, the search
    is the brute-force filter of the points of the tree. *)
Lemma SearchRange_exact node query radiusKm depth results :
  kd_inv depth node →
  (∀ p, p ∈ points_of node → within query radiusKm p →
        in_box (latLonBoundingBox (Lat query) (Lon query) radiusKm) p) →
  SearchRange node query radiusKm depth results =
  results ++ filter (within query radiusKm) (points_of node).
Proof.
  revert depth results.
  induction node as [|np l IHl r IHr axis]; intros depth results Hinv Hbox.
  { by rewrite SearchRange_Nil, app_nil_r. }
  destruct Hinv as (-> & Hlo & Hhi & Hinvl & Hinvr).
  rewrite SearchRange_node. cbv zeta. simpl points_of. rewrite filter_within_node.
  rewrite node_test.
  set (f0 := if decide (within query radiusKm np) then [np] else []).
  assert (Hl : ∀ res, (if decide (coord (axis_of depth) query
                                  - coordDegrees radiusKm (Lat query) (axis_of depth)
                                  <= coord (axis_of depth) np)%R
              then SearchRange l query radiusKm (deeper depth) res else res)
              = res ++ filter (within query radiusKm) (points_of l)).
  { intros res. case_decide as Hc.
    - apply IHl; [done|]. intros p Hp. apply Hbox. simpl. set_solver.
    - rewrite filter_none; [by rewrite app_nil_r|].
      intros p Hp Hw.
      assert (Hb : in_box (latLonBoundingBox (Lat query) (Lon query) radiusKm) p)
        by (apply Hbox; [simpl; set_solver|done]).
      destruct (in_box_coord query radiusKm p (axis_of depth) Hb) as [Hb1 _].
      specialize (Hlo p Hp). lra. }
  assert (Hr : ∀ res, (if decide (coord (axis_of depth) query
                                  + coordDegrees radiusKm (Lat query) (axis_of depth)
                                  >= coord (axis_of depth) np)%R
              then SearchRange r query radiusKm (deeper depth) res else res)
              = res ++ filter (within query radiusKm) (points_of r)).
  { intros res. destruct (decide (_ >= _)%R) as [Hc|Hc].
    - apply IHr; [done|]. intros p Hp. apply Hbox. simpl. set_solver.
    - rewrite filter_none; [by rewrite app_nil_r|].
      intros p Hp Hw.
      assert (Hb : in_box (latLonBoundingBox (Lat query) (Lon query) radiusKm) p)
        by (apply Hbox; [simpl; set_solver|done]).
      destruct (in_box_coord query radiusKm p (axis_of depth) Hb) as [_ Hb2].
      specialize (Hhi p Hp). lra. }
  rewrite Hl, Hr. by rewrite <- !(assoc_L (++)).
Qed.

(** The centre of the box of a query away from the poles lies in it. *)
Lemma box_centre query radiusKm :
  (0 <= radiusKm)%R → (-90 < Lat query < 90)%R →
  in_box (latLonBoundingBox (Lat query) (Lon query) radiusKm) query.
Proof.
  intros Hr Hlat. pose proof PI_RGT_0 as Hpi.
  unfold in_box, latLonBoundingBox. cbv zeta.
  assert (Hcos : (0 < cos (Lat query * PI / 180))%R) by (apply cos_gt_0; nra).
  assert (Hd : (0 <= radiusKm / EarthRadiusKm * (180 / PI))%R).
  { unfold EarthRadiusKm. apply Rmult_le_pos.
    - apply Rmult_le_pos; [done|]. apply Rlt_le, Rinv_0_lt_compat. lra.
    - apply Rlt_le, Rdiv_lt_0_compat; lra. }
  assert (Hd' : (0 <= radiusKm / EarthRadiusKm * (180 / PI) / cos (Lat query * PI / 180))%R).
  { apply Rmult_le_pos; [done|]. by apply Rlt_le, Rinv_0_lt_compat. }
  lra.
Qed.

(** Trees built by [BuildKDTree] and grown by [Insert]. *)
Definition grown_tree (points inserted : list Point) depth : Node :=
  foldl (λ root point, Insert root point depth) (BuildKDTree points depth) inserted.

Lemma grown_tree_inv points inserted depth :
  kd_inv depth (grown_tree points inserted depth) ∧
  points_of (grown_tree points inserted depth) ≡ₚ points ++ inserted.
Proof.
  unfold grown_tree.
  destruct (BuildKDTree_inv points depth) as [Hinv Hperm]. revert Hinv Hperm.
  generalize (BuildKDTree points depth). revert points.
  induction inserted as [|x inserted IH]; intros points root Hinv Hperm; simpl.
  { by rewrite app_nil_r. }
  destruct (IH (points ++ [x]) (Insert root x depth)) as [Hinv' Hperm'].
  - by apply Insert_inv.
  - rewrite Insert_points, Hperm. by rewrite Permutation_cons_append.
  - split; [done|]. by rewrite Hperm', <- (assoc_L (++)).
Qed.
End Search.

Section Shape.
Context {T : Type}.
Abbreviation Point := (Point T).
Abbreviation Node := (Node T).
Implicit Types (node root l r : Node) (depth axis : Z).

Fixpoint height node : nat :=
  match node with
  | Nil => 0
  | mkNode _ l r _ => S (height l `max` height r)
  end.

(** At every node the left subtree holds as many points as the right
    one, or one more. *)
Fixpoint balanced node : Prop :=
  match node with
  | Nil => True
  | mkNode _ l r _ =>
      (node_count r ≤ node_count l ≤ S (node_count r))%nat ∧
      balanced l ∧ balanced r
  end.

(** The least height of a binary tree of [n] nodes. *)
Definition least_height (n : nat) : nat :=
  match n with
  | O => O
  | _ => S (Nat.log2 n)
  end.

Lemma least_height_mono m n : (m ≤ n)%nat → (least_height m ≤ least_height n)%nat.
Proof.
  intros Hmn. destruct m as [|m], n as [|n]; simpl; try lia.
  apply le_n_S, Nat.log2_le_mono. lia.
Qed.

Lemma log2_half n : (2 ≤ n)%nat → Nat.log2 n = S (Nat.log2 (n / 2)).
Proof.
  intros Hn. pose proof (Nat.div_mod_eq n 2) as Hdm.
  pose proof (Nat.mod_upper_bound n 2 ltac:(lia)) as Hm.
  assert (Hhalf : (0 < n / 2)%nat) by (apply Nat.div_str_pos; lia).
  destruct (decide (n `mod` 2 = 0)%nat) as [Hz|Hodd].
  - replace n with (2 * (n / 2))%nat at 1 by lia. by apply Nat.log2_double.
  - replace n with (2 * (n / 2) + 1)%nat at 1 by lia. by apply Nat.log2_succ_double.
Qed.

Lemma least_height_half n : (0 < n)%nat → least_height n = S (least_height (n / 2)).
Proof.
  intros Hn. destruct (decide (n = 1)%nat) as [->|Hn1]; [done|].
  assert (Hhalf : (0 < n / 2)%nat) by (apply Nat.div_str_pos; lia).
  unfold least_height. destruct n as [|n']; [lia|].
  destruct (S n' / 2)%nat as [|h] eqn:Hh; [lia|]. rewrite <- Hh.
  f_equal. apply log2_half. lia.
Qed.

Lemma BuildKDTree_rec_shape budget (points : list Point) depth :
  (length points ≤ budget)%nat →
  node_count (BuildKDTree_rec budget points depth) = length points ∧
  balanced (BuildKDTree_rec budget points depth) ∧
  height (BuildKDTree_rec budget points depth) = least_height (length points).
Proof.
  revert points depth.
  induction budget as [|budget IH]; intros [|p0 points] depth Hlen;
    simpl in Hlen; try lia; try done.
  cbn [BuildKDTree_rec].
  set (sorted := SliceStable (less_on (axis_of depth)) (p0 :: points)).
  set (median := (length sorted / 2)%nat).
  assert (Hsl : length sorted = S (length points)).
  { unfold sorted. by rewrite SliceStable_length. }
  assert (Hmed : (median < length sorted)%nat).
  { unfold median. apply Nat.div_lt; lia. }
  destruct (lookup_lt_is_Some_2 sorted median Hmed) as [pt Hpt].
  rewrite Hpt.
  assert (Hhalf : (length sorted - S median ≤ median ≤ S (length sorted - S median))%nat).
  { unfold median. pose proof (Nat.div_mod_eq (length sorted) 2).
    pose proof (Nat.mod_upper_bound (length sorted) 2 ltac:(lia)). lia. }
  assert (Hl : length (take median sorted) = median) by (rewrite length_take; lia).
  assert (Hr : length (drop (S median) sorted) = (length sorted - S median)%nat)
    by (by rewrite length_drop).
  destruct (IH (take median sorted) (deeper depth)) as (Hcl & Hbl & Hhl); [lia|].
  destruct (IH (drop (S median) sorted) (deeper depth)) as (Hcr & Hbr & Hhr); [lia|].
  cbn [node_count balanced height length].
  rewrite Hcl, Hcr, Hhl, Hhr, Hl, Hr, <- Hsl. split_and!; try done; try lia.
  rewrite (least_height_half (length sorted)) by lia. f_equal.
  fold median. apply Nat.max_l, least_height_mono. lia.
Qed.
End Shape.
End KDMore.

(** ** The 2-D tree and the haversine distance: further properties *)

Module KDExtras.
Import KD KDFacts HaversineFacts KDMore.

(** X1. [SearchRange] only appends to the slice it is handed, and what
    it appends is a sub-sequence of what the brute-force [linearSearch]
    returns on the points of the tree (taken node first, then the left
    and the right subtree): no point outside the radius is ever
    reported, none is reported more often than the tree holds it, and
    the results found before are left in place. *)
Theorem SearchRange_reports_only_matches {T : Type} (node : Node T) query
    radiusKm depth results :
  ∃ found,
    SearchRange node query radiusKm depth results = results ++ found ∧
    found `sublist_of` linearSearch (points_of node) query radiusKm.
Proof.
  destruct (SearchRange_found node query radiusKm depth results) as (found & Hf & Hs).
  exists found. by rewrite linearSearch_within.
Qed.

(** X2. Completeness inside the bounding box.  In a tree that satisfies
    the KD ordering invariant, every point that is within the radius and
    whose coordinates lie in [latLonBoundingBox] of the query (the
    latitude and longitude deltas that [coordDegrees] prunes with) is
    reported by [SearchRange]. *)
Theorem SearchRange_finds_points_in_box {T : Type} (node : Node T) query
    radiusKm depth results p :
  kd_inv depth node → p ∈ points_of node →
  (Haversine (Lat query) (Lon query) (Lat p) (Lon p) <= radiusKm)%R →
  in_box (latLonBoundingBox (Lat query) (Lon query) radiusKm) p →
  p ∈ SearchRange node query radiusKm depth results.
Proof. intros. by apply SearchRange_complete. Qed.

Definition origin : Point () := mkPoint 0 0 ().

Lemma origin_within : within origin 1 origin.
Proof. unfold within. simpl. rewrite Haversine_self. lra. Qed.

Lemma origin_in_box : in_box (latLonBoundingBox (Lat origin) (Lon origin) 1) origin.
Proof. apply box_centre; simpl; lra. Qed.

Lemma SearchRange_finds_points_in_box_witness :
  origin ∈ SearchRange (mkNode origin Nil Nil 0) origin 1 0 [].
Proof.
  apply (SearchRange_finds_points_in_box (mkNode origin Nil Nil 0) origin 1 0 [] origin).
  - simpl. split_and!; try done; intros q Hq; by apply elem_of_nil in Hq.
  - simpl. apply elem_of_cons; by left.
  - apply origin_within.
  - apply origin_in_box.
Defined.

(** X3. Agreement with the brute-force search.  For a tree built by
    [BuildKDTree] and then grown by any sequence of [Insert] calls, if
    every stored point within the radius lies in [latLonBoundingBox] of
    the query, then [SearchRange] returns exactly the points that
    [linearSearch] returns, up to their order. *)
Theorem SearchRange_agrees_with_linearSearch {T : Type}
    (points inserted : list (Point T)) query radiusKm :
  (∀ p, p ∈ points ++ inserted →
        (Haversine (Lat query) (Lon query) (Lat p) (Lon p) <= radiusKm)%R →
        in_box (latLonBoundingBox (Lat query) (Lon query) radiusKm) p) →
  SearchRange (foldl (λ root point, Insert root point 0) (BuildKDTree points 0) inserted)
              query radiusKm 0 []
  ≡ₚ linearSearch (points ++ inserted) query radiusKm.
Proof.
  intros Hbox.
  destruct (grown_tree_inv points inserted 0) as [Hinv Hperm].
  unfold grown_tree in *.
  rewrite (SearchRange_exact _ query radiusKm 0 [] Hinv).
  - rewrite linearSearch_within. simpl. by rewrite Hperm.
  - intros p Hp. apply Hbox. by rewrite <- Hperm.
Qed.

Lemma SearchRange_agrees_with_linearSearch_witness :
  SearchRange (foldl (λ root point, Insert root point 0) (BuildKDTree [origin] 0) [origin])
              origin 1 0 []
  ≡ₚ linearSearch ([origin] ++ [origin]) origin 1.
Proof.
  apply (SearchRange_agrees_with_linearSearch [origin] [origin] origin 1).
  intros p Hp _.
  assert (p = origin) as -> by set_solver.
  apply origin_in_box.
Defined.

(** X4. Insert, then look up.  After [Insert] of a point into a tree
    that satisfies the ordering invariant, a [SearchRange] around that
    point, with any radius that is not negative, reports it (for a point
    that is not at a pole, where the longitude delta divides by zero). *)
Theorem Insert_then_SearchRange {T : Type} (root : Node T) point depth radiusKm
    results :
  kd_inv depth root → (0 <= radiusKm)%R → (-90 < Lat point < 90)%R →
  point ∈ SearchRange (Insert root point depth) point radiusKm depth results.
Proof.
  intros Hinv Hr Hlat. apply SearchRange_complete.
  - by apply Insert_inv.
  - rewrite Insert_points. apply elem_of_cons; by left.
  - unfold within. rewrite Haversine_self. done.
  - by apply box_centre.
Qed.

Lemma Insert_then_SearchRange_witness :
  origin ∈ SearchRange (Insert Nil origin 0) origin 0 0 [].
Proof.
  apply (Insert_then_SearchRange Nil origin 0 0 []); simpl; [done|lra..].
Defined.

(** X7. [BuildKDTree] builds a balanced tree: it returns nil exactly on
    the empty slice, it stores one node per point, at every node the
    left subtree holds as many points as the right one or one more, and
    the height of the tree is the least possible for its number of
    points, [floor(log2 n) + 1]. *)
Theorem BuildKDTree_balanced {T : Type} (points : list (Point T)) depth :
  (BuildKDTree points depth = Nil ↔ points = []) ∧
  node_count (BuildKDTree points depth) = length points ∧
  balanced (BuildKDTree points depth) ∧
  height (BuildKDTree points depth) = least_height (length points).
Proof.
  destruct (BuildKDTree_rec_shape (length points) points depth) as (Hc & Hb & Hh);
    [done|].
  split_and!; try done.
  split.
  - intros Hnil. unfold BuildKDTree in Hnil. rewrite Hnil in Hc.
    by destruct points.
  - by intros ->.
Qed.

End KDExtras.

(** ** The disjoint-set forest: further facts *)

Module UFMore.
Import UF UFFacts UFSeq UFSealed.
Section More.
Context {T : Type} `{Countable T}.
Variable zero : T.

Abbreviation UnionFind := (@UnionFind T _ _).
Abbreviation parent_of := (parent_of zero).
Abbreviation FindSet_rec := (FindSet_rec zero).
Abbreviation FindSet := (FindSet zero).
Abbreviation UnionSet := (UnionSet zero).
Abbreviation UnionAll := (UnionAll zero).
Abbreviation IsSameSet := (IsSameSet zero).
Abbreviation SizeOfSet := (SizeOfSet zero).
Abbreviation Apply_keys := (Apply_keys zero).
Abbreviation root_of := (root_of zero).
Abbreviation same_set := (same_set zero).
Abbreviation uf_wf := (uf_wf zero).
Abbreviation same_forest := (same_forest zero).
Abbreviation sealed := (sealed zero).
Abbreviation counted := (counted zero).
Abbreviation roots_set := (roots_set zero).

Implicit Types (uf : UnionFind) (i j k r s x y : T) (D : gset T).

(** *** A second [FindSet] *)

Lemma set_parent_id uf i r : parent uf !! i = Some r → set_parent uf i r = uf.
Proof.
  intros Hi. destruct uf as [p rk sz n fl]. unfold set_parent. simpl in *.
  f_equal. by apply insert_id.
Qed.

Lemma FindSet_rec_root depth uf r :
  parent_of uf r = r → FindSet_rec (S depth) uf r = Some (uf, r).
Proof.
  intros Hr. simpl. destruct (decide (parent_of uf r ≠ r)) as [Hne|_]; [done|].
  simpl. by rewrite Hr.
Qed.

Lemma FindSet_rec_step depth uf i :
  parent_of uf i ≠ i →
  FindSet_rec (S depth) uf i =
  '(uf1, r) ← FindSet_rec depth uf (parent_of uf i);
  Some (set_parent uf1 i r, parent_of (set_parent uf1 i r) i).
Proof.
  intros Hi. simpl. rewrite decide_True by done.
  by destruct (FindSet_rec depth uf (parent_of uf i)) as [[uf1 r]|].
Qed.

Lemma FindSet_root uf r : parent_of uf r = r → FindSet uf r = Some (uf, r).
Proof. apply FindSet_rec_root. Qed.

Lemma FindSet_again uf i uf' r :
  uf_wf uf → FindSet uf i = Some (uf', r) →
  FindSet uf' i = Some (uf', r) ∧ FindSet uf' r = Some (uf', r).
Proof.
  intros Hwf Hf.
  destruct (FindSet_spec zero uf i Hwf) as (uf1 & r1 & Hf1 & Hroot & Hsf & Hwf1 & Hlw & Hcomp).
  simplify_eq.
  assert (Hr : parent_of uf r = r) by by eapply root_in_root.
  assert (Hr' : parent_of uf' r = r) by by apply (same_forest_is_root zero uf).
  split; [|by apply FindSet_root].
  destruct (decide (parent_of uf i = i)) as [Hi|Hi].
  - assert (r = i) as -> by (eapply root_in_of_root; done).
    rewrite (FindSet_root uf i Hi) in Hf. simplify_eq. by apply FindSet_root.
  - specialize (Hcomp Hi).
    assert (Hpi : parent_of uf' i = r) by (unfold UF.parent_of; by rewrite Hcomp).
    assert (Hne : r ≠ i) by (intros ->; done).
    unfold UF.FindSet, max_depth.
    rewrite FindSet_rec_step by (by rewrite Hpi).
    rewrite Hpi, (FindSet_rec_root _ uf' r Hr'). simpl.
    rewrite (set_parent_id uf' i r Hcomp). by rewrite Hpi.
Qed.

(** *** The sizes *)

Lemma attach_size uf c r :
  size (attach uf c r) = <[r := wrap_int (size_of uf r + size_of uf c)]> (size uf).
Proof. done. Qed.

Lemma same_forest_size_of uf uf' i : same_forest uf uf' → size_of uf' i = size_of uf i.
Proof. intros Hsf. unfold size_of. by rewrite (sf_size _ _ _ Hsf). Qed.

Lemma UnionSet_size uf x y uf' rx ry :
  uf_wf uf → UnionSet uf x y = Some uf' → root_of uf x rx → root_of uf y ry →
  rx ≠ ry →
  size uf' = <[survivor uf rx ry :=
                 wrap_int (size_of uf (survivor uf rx ry)
                           + size_of uf (absorbed uf rx ry))]> (size uf).
Proof.
  intros Hwf Hu Hrx Hry Hne.
  destruct (FindSet_spec zero uf x Hwf) as (uf1 & rx' & Hf1 & Hrx' & Hsf1 & Hwf1 & _).
  destruct (FindSet_spec zero uf1 y Hwf1) as (uf2 & ry' & Hf2 & Hry' & Hsf2 & _).
  apply Hsf1 in Hry'.
  assert (rx' = rx) as -> by by eapply root_of_det.
  assert (ry' = ry) as -> by by eapply root_of_det.
  pose proof (same_forest_trans _ _ _ _ Hsf1 Hsf2) as Hsf.
  unfold UF.UnionSet in Hu. rewrite Hf1 in Hu. simpl in Hu. rewrite Hf2 in Hu.
  simpl in Hu. rewrite decide_False in Hu by done.
  unfold absorbed, survivor.
  rewrite <- !(same_forest_preferred zero uf uf2) by done.
  rewrite <- !(same_forest_rank_of zero uf uf2) by done.
  rewrite <- !(same_forest_size_of uf uf2) by done.
  rewrite <- (sf_size _ _ _ Hsf).
  change (preferred (set_numSets uf2 ?v)) with (preferred uf2) in Hu.
  change (rank_of (set_numSets uf2 ?v)) with (rank_of uf2) in Hu.
  destruct (preferred uf2 rx && negb (preferred uf2 ry)) eqn:E1.
  { rewrite decide_True by done. by simplify_eq. }
  destruct (preferred uf2 ry && negb (preferred uf2 rx)) eqn:E2.
  { rewrite decide_False by done. by simplify_eq. }
  destruct (bool_decide (rank_of uf2 rx > rank_of uf2 ry)) eqn:E3.
  { rewrite decide_True by done. by simplify_eq. }
  rewrite decide_False by done.
  case_match; by simplify_eq.
Qed.

Lemma InitKeys_size uf ids k :
  size (InitKeys uf ids) !! k =
  if decide (k ∈ ids) then Some 1 else size uf !! k.
Proof.
  revert uf. induction ids as [|k' ids IH]; intros uf.
  - case_decide as Hk; [by apply elem_of_nil in Hk|done].
  - change (InitKeys uf (k' :: ids)) with (InitKeys (InitKey uf k') ids).
    rewrite IH. simpl. rewrite lookup_insert.
    repeat case_decide; simplify_eq; try done; set_solver.
Qed.

(** [sized uf D]: the size stored at a root is the number of keys of
    its set. *)
Definition sized uf D : Prop :=
  ∀ r, r ∈ D → parent_of uf r = r →
    ∃ ms : gset T, (∀ k, k ∈ ms ↔ k ∈ D ∧ root_of uf k r) ∧
                   size_of uf r = Z.of_nat (base.size ms).

Lemma InitKeys_sized (ids : list T) :
  sized (InitKeys NewUnionFind ids) (list_to_set ids).
Proof.
  intros r Hr _. apply elem_of_list_to_set in Hr. exists {[r]}. split.
  - intros k. rewrite elem_of_singleton, elem_of_list_to_set. split.
    + intros ->. split; [done|]. by apply InitKeys_root.
    + intros [Hk Hroot]. eapply root_of_det; [|done]. by apply InitKeys_root.
  - unfold size_of. rewrite InitKeys_size, decide_True by done.
    by rewrite size_singleton.
Qed.

Lemma same_forest_sized uf uf' D : same_forest uf uf' → sized uf D → sized uf' D.
Proof.
  intros Hsf Hsz r Hr Hroot.
  destruct (Hsz r Hr) as (ms & Hms & Hsize).
  { by apply (same_forest_is_root zero uf uf'). }
  exists ms. split.
  - intros k. rewrite Hms. by rewrite (sf_roots _ _ _ Hsf).
  - by rewrite (same_forest_size_of uf uf').
Qed.

Lemma UnionSet_sized uf D x y uf' :
  sealed uf D → Z.of_nat (base.size D) ≤ int_max → x ∈ D → y ∈ D →
  sized uf D → UnionSet uf x y = Some uf' → sized uf' D.
Proof.
  intros Hs Hmax Hx Hy Hsz Hu.
  destruct (UnionSet_spec zero uf x y (sealed_wf _ _ _ Hs))
    as (uf2 & rx & ry & Hu2 & Hrx & Hry & _ & _ & _ & Heq & Hne).
  simplify_eq.
  destruct (decide (rx = ry)) as [Hxy|Hxy].
  { eapply same_forest_sized; [by apply Heq|done]. }
  destruct (Hne Hxy) as [_ Hroots].
  pose proof (UnionSet_size uf x y uf' rx ry (sealed_wf _ _ _ Hs) Hu Hrx Hry Hxy) as Hsize.
  set (l := absorbed uf rx ry) in *. set (w := survivor uf rx ry) in *.
  assert (Hlw : (w = rx ∧ l = ry) ∨ (w = ry ∧ l = rx)) by by apply survivor_cases.
  assert (Hrx_root : parent_of uf rx = rx) by by eapply root_in_root.
  assert (Hry_root : parent_of uf ry = ry) by by eapply root_in_root.
  assert (Hrxd : rx ∈ D) by exact (sealed_root zero uf D x rx Hs Hrx Hx).
  assert (Hryd : ry ∈ D) by exact (sealed_root zero uf D y ry Hs Hry Hy).
  assert (Hl_root : parent_of uf l = l) by (destruct Hlw as [[_ ->]|[_ ->]]; done).
  assert (Hw_root : parent_of uf w = w) by (destruct Hlw as [[-> _]|[-> _]]; done).
  assert (Hl_ne : l ≠ w) by (destruct Hlw as [[-> ->]|[-> ->]]; done).
  assert (Hl_D : l ∈ D) by (destruct Hlw as [[_ ->]|[_ ->]]; done).
  assert (Hw_D : w ∈ D) by (destruct Hlw as [[-> _]|[-> _]]; done).
  clearbody l w.
  intros r Hr Hroot'.
  assert (Hrl : r ≠ l).
  { intros ->. apply root_in_self, Hroots in Hroot'.
    destruct Hroot' as [[_ ?]|[_ ?]]; done. }
  assert (Hroot : parent_of uf r = r).
  { apply root_in_self, Hroots in Hroot'. destruct Hroot' as [[Hk _]|[_ ->]]; [|done].
    by eapply root_in_root. }
  destruct (Hsz r Hr Hroot) as (ms & Hms & Hmsize).
  destruct (decide (r = w)) as [->|Hrw].
  - destruct (Hsz l Hl_D Hl_root) as (ml & Hml & Hmlsize).
    exists (ms ∪ ml). split.
    + intros k. rewrite elem_of_union, Hms, Hml, Hroots. naive_solver.
    + unfold size_of at 1. rewrite Hsize, lookup_insert_eq. simpl.
      assert (Hdisj : ms ## ml).
      { intros k Hk1 Hk2. apply Hms in Hk1 as [_ Hk1]. apply Hml in Hk2 as [_ Hk2].
        apply Hl_ne. by eapply root_of_det. }
      assert (Hsub : ms ∪ ml ⊆ D).
      { intros k [Hk|Hk]%elem_of_union; [by apply Hms in Hk as [? _]|by apply Hml in Hk as [? _]]. }
      apply subseteq_size in Hsub.
      rewrite size_union in * by done.
      rewrite Hmsize, Hmlsize. rewrite wrap_int_id; [lia|].
      unfold in_int_range, int_min, int_max in *. lia.
  - exists ms. split.
    + intros k. rewrite Hms, Hroots. naive_solver.
    + unfold size_of at 1. rewrite Hsize, lookup_insert_ne by done. done.
Qed.

(** Every [UnionSet] of a sequence on registered keys keeps the forest
    sealed, its sizes and its counter right. *)
Lemma UnionAll_registered uf D pairs :
  sealed uf D → Z.of_nat (base.size D) ≤ int_max →
  (∀ x y, (x, y) ∈ pairs → x ∈ D ∧ y ∈ D) →
  ∃ uf', UnionAll uf pairs = Some uf' ∧ sealed uf' D ∧
         (sized uf D → sized uf' D) ∧ (counted uf → counted uf').
Proof.
  intros Hs Hmax. revert uf Hs.
  induction pairs as [|[x y] pairs IH]; intros uf Hs Hreg.
  { exists uf. done. }
  destruct (Hreg x y) as [Hx Hy]; [set_solver|].
  destruct (UnionSet_sealed zero uf D x y Hs Hx Hy) as (uf1 & Hu & Hs1).
  destruct (IH uf1 Hs1) as (uf' & Hrun & Hs' & Hsz' & Hc'); [set_solver|].
  exists uf'. simpl. rewrite Hu. simpl. split_and!; [done..| |].
  - intros Hsz. apply Hsz'. exact (UnionSet_sized uf D x y uf1 Hs Hmax Hx Hy Hsz Hu).
  - intros Hc. apply Hc'. exact (UnionSet_counted zero uf D x y uf1 Hs Hx Hy Hc Hu).
Qed.

(** *** [Apply] *)

(** [compressed uf k]: the key is stored with its root as parent. *)
Definition compressed uf k : Prop :=
  ∃ r, root_of uf k r ∧ parent uf !! k = Some r.

Lemma FindSet_compressed uf i uf' r k :
  uf_wf uf → FindSet uf i = Some (uf', r) →
  compressed uf k → compressed uf' k.
Proof.
  intros Hwf Hf (rk & Hrk & Hk).
  destruct (FindSet_spec zero uf i Hwf) as (uf1 & r1 & Hf1 & Hroot & Hsf & Hwf1 & Hlw & _).
  simplify_eq. exists rk. split; [by apply Hsf|].
  assert (Hkd : k ∈ dom (parent uf')).
  { apply (lw_keep _ _ _ _ Hlw). by apply elem_of_dom. }
  apply elem_of_dom in Hkd as [v Hv].
  destruct (lw_vals _ _ _ _ Hlw _ _ Hv) as [Hold|Hin]; [by simplify_eq|].
  apply elem_of_singleton in Hin as ->.
  rewrite Hv. f_equal.
  assert (Hr' : parent_of uf' r = r).
  { apply (same_forest_is_root zero uf); [done|]. by eapply root_in_root. }
  apply Hsf in Hrk.
  destruct (decide (k = r)) as [->|Hkr].
  - symmetry. by eapply root_in_of_root.
  - eapply root_of_det; [|done].
    apply root_in_step; unfold UF.parent_of; rewrite Hv; simpl; [done|].
    by apply root_in_self.
Qed.

Lemma FindSet_compresses uf i uf' r :
  uf_wf uf → i ∈ dom (parent uf) → FindSet uf i = Some (uf', r) →
  compressed uf' i.
Proof.
  intros Hwf Hi Hf.
  destruct (FindSet_spec zero uf i Hwf) as (uf1 & r1 & Hf1 & Hroot & Hsf & Hwf1 & Hlw & Hcomp).
  simplify_eq. exists r. split; [by apply Hsf|].
  destruct (decide (parent_of uf i = i)) as [Hroot_i|Hne]; [|by apply Hcomp].
  assert (r = i) as -> by (eapply root_in_of_root; done).
  rewrite (FindSet_root uf i Hroot_i) in Hf. simplify_eq.
  apply elem_of_dom in Hi as [v Hv]. unfold UF.parent_of in Hroot_i.
  rewrite Hv in Hroot_i. simpl in Hroot_i. by subst.
Qed.

Lemma Apply_collect {B : Type} (g : T → T → B) uf keys (out : list B) :
  uf_wf uf → (∀ k, k ∈ keys → k ∈ dom (parent uf)) →
  ∃ uf' roots,
    Apply_keys keys (λ key parent out, Some (out ++ [g key parent])) uf out
    = Some (uf', out ++ zip_with g keys roots) ∧
    Forall2 (root_of uf) keys roots ∧
    same_forest uf uf' ∧ uf_wf uf' ∧ dom (parent uf') = dom (parent uf) ∧
    (∀ k, k ∈ keys ∨ compressed uf k → compressed uf' k).
Proof.
  revert uf out. induction keys as [|key keys IH]; intros uf out Hwf Hkeys.
  { exists uf, []. simpl. rewrite app_nil_r.
    split_and!; [done|constructor|apply same_forest_refl|done|done|].
    intros k [Hk|?]; [by apply elem_of_nil in Hk|done]. }
  destruct (FindSet_spec zero uf key Hwf) as (uf1 & r & Hf & Hroot & Hsf & Hwf1 & Hlw & _).
  assert (Hkey : key ∈ dom (parent uf)) by (apply Hkeys; set_solver).
  assert (Hdom1 : dom (parent uf1) = dom (parent uf)).
  { apply set_eq. intros k. split; [|apply (lw_keep _ _ _ _ Hlw)].
    intros Hk. apply (lw_keys _ _ _ _ Hlw) in Hk. set_solver. }
  destruct (IH uf1 (out ++ [g key r]) Hwf1)
    as (uf' & roots & Hrun & Hroots & Hsf' & Hwf' & Hdom' & Hcomp).
  { intros k Hk. rewrite Hdom1. apply Hkeys. set_solver. }
  exists uf', (r :: roots). simpl. rewrite Hf. simpl.
  split_and!.
  - rewrite Hrun. by rewrite <- (assoc_L (++)).
  - constructor; [done|]. eapply Forall2_impl; [done|].
    intros k rk. by apply Hsf.
  - by eapply same_forest_trans.
  - done.
  - by rewrite Hdom', Hdom1.
  - intros k Hk. apply Hcomp. rewrite elem_of_cons in Hk.
    destruct Hk as [[->|Hk]|Hk]; [right|by left|right].
    + exact (FindSet_compresses uf key uf1 r Hwf Hkey Hf).
    + exact (FindSet_compressed uf key uf1 r k Hwf Hf Hk).
Qed.

Lemma size_list_to_set_le (ids : list T) :
  (base.size (list_to_set ids : gset T) ≤ length ids)%nat.
Proof.
  induction ids as [|k ids IH].
  - change (list_to_set [] : gset T) with (∅ : gset T). by rewrite size_empty.
  - change (list_to_set (k :: ids) : gset T) with ({[k]} ∪ list_to_set ids : gset T).
    rewrite size_union_alt, size_singleton. simpl.
    assert (Hsub : list_to_set ids ∖ {[k]} ⊆ (list_to_set ids : gset T)) by set_solver.
    apply subseteq_size in Hsub. lia.
Qed.

(** *** Sequences of unions *)

Lemma UnionAll_app uf (pairs1 pairs2 : list (T * T)) :
  UnionAll uf (pairs1 ++ pairs2) = uf' ← UnionAll uf pairs1; UnionAll uf' pairs2.
Proof.
  revert uf. induction pairs1 as [|[x y] pairs1 IH]; intros uf; simpl; [done|].
  destruct (UnionSet uf x y) as [uf1|]; simpl; [apply IH|done].
Qed.

Lemma UnionSet_roots_subset uf D x y uf' :
  sealed uf D → x ∈ D → y ∈ D → UnionSet uf x y = Some uf' →
  roots_set uf' ⊆ roots_set uf.
Proof.
  intros Hs Hx Hy Hu.
  destruct (UnionSet_sealed zero uf D x y Hs Hx Hy) as (uf1 & Hu1 & Hs1).
  destruct (UnionSet_spec zero uf x y (sealed_wf _ _ _ Hs))
    as (uf2 & rx & ry & Hu2 & Hrx & Hry & _ & _ & _ & Heq & Hne).
  simplify_eq.
  assert (Hdom : dom (parent uf') = dom (parent uf))
    by by rewrite (sealed_dom zero uf' D Hs1), (sealed_dom zero uf D Hs).
  destruct (decide (rx = ry)) as [Hxy|Hxy].
  { by rewrite (same_forest_roots_set zero uf uf') by auto. }
  destruct (Hne Hxy) as [_ Hroots].
  assert (Hlw : (survivor uf rx ry = rx ∧ absorbed uf rx ry = ry) ∨
                (survivor uf rx ry = ry ∧ absorbed uf rx ry = rx))
    by by apply survivor_cases.
  assert (Hw_root : parent_of uf (survivor uf rx ry) = survivor uf rx ry).
  { destruct Hlw as [[-> _]|[-> _]]; by eapply root_in_root. }
  intros k. unfold roots_set. rewrite !elem_of_filter, Hdom.
  intros [Hk Hkd]. split; [|done].
  apply root_in_self, Hroots in Hk. destruct Hk as [[Hk _]|[_ ->]]; [|done].
  by eapply root_in_root.
Qed.

Lemma UnionAll_roots_subset uf D pairs uf' :
  sealed uf D → (∀ x y, (x, y) ∈ pairs → x ∈ D ∧ y ∈ D) →
  UnionAll uf pairs = Some uf' → roots_set uf' ⊆ roots_set uf.
Proof.
  revert uf. induction pairs as [|[x y] pairs IH]; intros uf Hs Hreg Hrun.
  { simpl in Hrun. by simplify_eq. }
  destruct (Hreg x y) as [Hx Hy]; [set_solver|].
  destruct (UnionSet_sealed zero uf D x y Hs Hx Hy) as (uf1 & Hu & Hs1).
  simpl in Hrun. rewrite Hu in Hrun. simpl in Hrun.
  etrans; [eapply (IH uf1); [done| |done]|].
  - intros a b Hab. apply Hreg. set_solver.
  - exact (UnionSet_roots_subset uf D x y uf1 Hs Hx Hy Hu).
Qed.

End More.
End UFMore.

(** ** The disjoint-set forest: further properties *)

Module UFExtras.
Import UF UFFacts UFSeq UFSealed UFMore.
Section Extras.
Context {T : Type} `{Countable T}.
Variable zero : T.

Abbreviation UnionFind := (@UnionFind T _ _).
Abbreviation parent_of := (parent_of zero).
Abbreviation FindSet := (FindSet zero).
Abbreviation UnionSet := (UnionSet zero).
Abbreviation UnionAll := (UnionAll zero).
Abbreviation IsSameSet := (IsSameSet zero).
Abbreviation SizeOfSet := (SizeOfSet zero).
Abbreviation Apply_keys := (Apply_keys zero).
Abbreviation root_of := (root_of zero).
Abbreviation same_set := (same_set zero).
Abbreviation reachable := (UFClaims.reachable zero).

Implicit Types (uf : UnionFind) (i j k r s x y a b c : T).

Lemma registered_forest (ids : list T) (pairs : list (T * T)) :
  Z.of_nat (length ids) ≤ int_max →
  (∀ x y, (x, y) ∈ pairs → x ∈ ids ∧ y ∈ ids) →
  ∃ uf, UnionAll (InitKeys NewUnionFind ids) pairs = Some uf ∧
        sealed zero uf (list_to_set ids) ∧ sized zero uf (list_to_set ids) ∧
        (NoDup ids → counted zero uf) ∧
        (∀ a b, a ∈ ids → b ∈ ids → same_set uf a b ↔ connected pairs a b).
Proof.
  intros Hmax Hreg.
  assert (Hsize : Z.of_nat (base.size (list_to_set ids : gset T)) ≤ int_max).
  { pose proof (size_list_to_set_le ids). lia. }
  destruct (UnionAll_registered zero (InitKeys NewUnionFind ids) (list_to_set ids) pairs)
    as (uf & Hrun & Hs & Hsz & Hc); [apply InitKeys_sealed|done| |].
  { intros x y Hxy. rewrite !elem_of_list_to_set. by apply Hreg. }
  destruct (UnionAll_connected zero ids (InitKeys NewUnionFind ids) [] pairs)
    as (uf' & Hrun' & _ & Hconn); [| |done|].
  { apply InitKeys_wf, NewUnionFind_wf. }
  { intros a b Ha Hb. rewrite connected_nil.
    rewrite (same_set_root zero _ a b a) by by apply InitKeys_root.
    split; [|intros <-; by apply InitKeys_root].
    intros Hb'. symmetry. eapply root_of_det; [by apply InitKeys_root|done]. }
  simplify_eq. exists uf. split_and!; [done|done| | |done].
  - apply Hsz, InitKeys_sized.
  - intros Hnd. apply Hc. by apply InitKeys_counted.
Qed.

(** X8. [SizeOfSet] counts the members of a set.  After [InitKey] on
    the ids and any sequence of [UnionSet] calls on registered ids,
    [SizeOfSet(a)] returns, for every registered [a], the number of
    registered ids that the unions connect with [a] ([a] itself
    included), provided the number of ids fits a Go [int]. *)
Theorem SizeOfSet_counts_members (ids : list T) (pairs : list (T * T)) :
  Z.of_nat (length ids) ≤ int_max →
  (∀ x y, (x, y) ∈ pairs → x ∈ ids ∧ y ∈ ids) →
  ∃ uf, UnionAll (InitKeys NewUnionFind ids) pairs = Some uf ∧
        ∀ a, a ∈ ids →
          ∃ uf' (members : gset T),
            SizeOfSet uf a = Some (uf', Z.of_nat (base.size members)) ∧
            ∀ b, b ∈ members ↔ b ∈ ids ∧ connected pairs a b.
Proof.
  intros Hmax Hreg.
  destruct (registered_forest ids pairs Hmax Hreg) as (uf & Hrun & Hs & Hsz & _ & Hconn).
  exists uf. split; [done|]. intros a Ha.
  destruct (FindSet_sealed zero uf (list_to_set ids) a Hs)
    as (uf' & r & Hf & Hr & Hrd & Hsf & _); [by apply elem_of_list_to_set|].
  destruct (Hsz r Hrd) as (ms & Hms & Hsize); [by eapply root_in_root|].
  exists uf', ms. split.
  - unfold UF.SizeOfSet. rewrite Hf. simpl.
    by rewrite (same_forest_size_of zero uf uf'), Hsize.
  - intros b. rewrite Hms, elem_of_list_to_set.
    split; intros [Hb Hab]; (split; [done|]).
    + apply Hconn; [done..|]. by exists r.
    + apply Hconn in Hab; [|done..]. by apply (same_set_root zero uf a b r).
Qed.

(** X9. [NumDisjointSets] counts the sets.  After [InitKey] on distinct
    ids and any sequence of [UnionSet] calls on registered ids, the
    counter is the number of roots, and the roots are one
    representative for each class of ids that the unions connect. *)
Theorem NumDisjointSets_counts_sets (ids : list T) (pairs : list (T * T)) :
  NoDup ids → Z.of_nat (length ids) ≤ int_max →
  (∀ x y, (x, y) ∈ pairs → x ∈ ids ∧ y ∈ ids) →
  ∃ uf (reps : gset T),
    UnionAll (InitKeys NewUnionFind ids) pairs = Some uf ∧
    NumDisjointSets uf = Z.of_nat (base.size reps) ∧
    (∀ r, r ∈ reps → r ∈ ids ∧ parent_of uf r = r) ∧
    (∀ a, a ∈ ids →
       ∃ r, r ∈ reps ∧ connected pairs a r ∧
            ∀ r', r' ∈ reps → connected pairs a r' → r' = r).
Proof.
  intros Hnd Hmax Hreg.
  destruct (registered_forest ids pairs Hmax Hreg) as (uf & Hrun & Hs & _ & Hc & Hconn).
  exists uf, (roots_set zero uf).
  assert (Hreps : ∀ r, r ∈ roots_set zero uf → r ∈ ids ∧ parent_of uf r = r).
  { intros r. unfold roots_set. rewrite elem_of_filter, (sealed_dom _ _ _ Hs).
    rewrite elem_of_list_to_set. tauto. }
  split_and!; [done|by apply Hc|done|].
  intros a Ha.
  destruct (wf_total _ _ (sealed_wf _ _ _ Hs) a) as [r Hr].
  assert (Hrd : r ∈ ids).
  { assert (Hrs : r ∈ (list_to_set ids : gset T)).
    { eapply (sealed_root zero uf); [done..|]. by apply elem_of_list_to_set. }
    by apply elem_of_list_to_set in Hrs. }
  assert (Hroot : parent_of uf r = r) by by eapply root_in_root.
  exists r. split_and!.
  - unfold roots_set. apply elem_of_filter. split; [done|].
    rewrite (sealed_dom _ _ _ Hs). by apply elem_of_list_to_set.
  - apply Hconn; [done..|]. exists r. split; [done|by apply root_in_self].
  - intros r' Hr' Har'. destruct (Hreps r' Hr') as [Hr'd Hroot'].
    apply Hconn in Har'; [|done..].
    apply (same_set_root zero uf a r' r) in Har'; [|done].
    symmetry. exact (root_in_of_root _ _ _ Hroot' Har').
Qed.

(** X10. [IsSameSet] is an equivalence.  In every state the package can
    produce, [IsSameSet] returns; it answers true for a key and itself,
    the same for [(a, b)] as for [(b, a)], and true for [(a, c)] when it
    does for [(a, b)] and [(b, c)]; and the path compression of a query
    changes the answer of no later query. *)
Theorem IsSameSet_is_an_equivalence uf :
  reachable uf →
  (∀ a, ∃ uf', IsSameSet uf a a = Some (uf', true)) ∧
  (∀ a b, ∃ uf1 uf2 res,
      IsSameSet uf a b = Some (uf1, res) ∧ IsSameSet uf b a = Some (uf2, res)) ∧
  (∀ a b c uf1 uf2,
      IsSameSet uf a b = Some (uf1, true) → IsSameSet uf b c = Some (uf2, true) →
      ∃ uf3, IsSameSet uf a c = Some (uf3, true)) ∧
  (∀ a b uf1 res1,
      IsSameSet uf a b = Some (uf1, res1) →
      reachable uf1 ∧
      ∀ c d, ∃ uf2 uf3 res,
        IsSameSet uf c d = Some (uf2, res) ∧ IsSameSet uf1 c d = Some (uf3, res)).
Proof.
  intros Hreach. pose proof (UFClaims.reachable_wf zero uf Hreach) as Hwf.
  assert (Hbool : ∀ (b1 b2 : bool), (b1 = true ↔ b2 = true) → b1 = b2).
  { intros [] [] [? ?]; try done; [symmetry|]; auto. }
  split_and!.
  - intros a. destruct (IsSameSet_spec zero uf a a Hwf) as (uf' & res & Hs & Hres & _).
    exists uf'. rewrite Hs. do 2 f_equal. apply Hres. by apply same_set_refl.
  - intros a b.
    destruct (IsSameSet_spec zero uf a b Hwf) as (uf1 & res1 & Hs1 & Hres1 & _).
    destruct (IsSameSet_spec zero uf b a Hwf) as (uf2 & res2 & Hs2 & Hres2 & _).
    exists uf1, uf2, res1. split; [done|]. rewrite Hs2. do 2 f_equal.
    apply Hbool. rewrite Hres1, Hres2. split; apply same_set_sym.
  - intros a b c uf1 uf2 Hab Hbc.
    destruct (IsSameSet_spec zero uf a b Hwf) as (? & res1 & Hs1 & Hres1 & _).
    destruct (IsSameSet_spec zero uf b c Hwf) as (? & res2 & Hs2 & Hres2 & _).
    destruct (IsSameSet_spec zero uf a c Hwf) as (uf3 & res3 & Hs3 & Hres3 & _).
    simplify_eq. exists uf3. rewrite Hs3. do 2 f_equal. apply Hres3.
    eapply same_set_trans; [by apply Hres1|by apply Hres2].
  - intros a b uf1 res1 Hab.
    destruct (IsSameSet_spec zero uf a b Hwf) as (? & ? & Hs1 & _ & Hwf1 & Hsf).
    simplify_eq. split.
    + unfold UF.IsSameSet in Hab.
      destruct (FindSet uf a) as [[ufa ra]|] eqn:Hfa; [|done]. simpl in Hab.
      destruct (FindSet ufa b) as [[ufb rb]|] eqn:Hfb; [|done]. simpl in Hab.
      simplify_eq. eapply UFClaims.reach_FindSet; [|done].
      by eapply UFClaims.reach_FindSet.
    + intros c d.
      destruct (IsSameSet_spec zero uf c d Hwf) as (uf2 & res & Hs2 & Hres & _).
      destruct (IsSameSet_spec zero uf1 c d Hwf1) as (uf3 & res' & Hs3 & Hres' & _).
      exists uf2, uf3, res. split; [done|]. rewrite Hs3. do 2 f_equal.
      apply Hbool. rewrite Hres, Hres'.
      by rewrite (same_forest_same_set zero uf uf1).
Qed.

(** X11. [UnionSet] joins, never splits, and is idempotent.  In every
    state the package can produce, [UnionSet(x, y)] returns; afterwards
    [IsSameSet(x, y)] is true, keys that were in the same set still are,
    and a second [UnionSet(x, y)] changes neither the counter nor the
    root of any key. *)
Theorem UnionSet_joins uf x y :
  reachable uf →
  ∃ uf1, UnionSet uf x y = Some uf1 ∧
         (∃ uf2, IsSameSet uf1 x y = Some (uf2, true)) ∧
         (∀ a b, same_set uf a b → same_set uf1 a b) ∧
         ∃ uf3, UnionSet uf1 x y = Some uf3 ∧
                NumDisjointSets uf3 = NumDisjointSets uf1 ∧
                ∀ j s, root_of uf3 j s ↔ root_of uf1 j s.
Proof.
  intros Hreach. pose proof (UFClaims.reachable_wf zero uf Hreach) as Hwf.
  destruct (UnionSet_same_set zero uf x y Hwf) as (uf1 & Hu & Hwf1 & Hm).
  assert (Hxy : same_set uf1 x y).
  { apply Hm. right. left. split; by apply same_set_refl. }
  exists uf1. split_and!; [done| | |].
  - destruct (IsSameSet_spec zero uf1 x y Hwf1) as (uf2 & res & Hs & Hres & _).
    exists uf2. rewrite Hs. do 2 f_equal. by apply Hres.
  - intros a b Hab. apply Hm. by left.
  - destruct (UnionSet_spec zero uf1 x y Hwf1)
      as (uf3 & rx & ry & Hu3 & Hrx & Hry & _ & _ & _ & Heq & _).
    assert (rx = ry) as Hrxy.
    { apply (same_set_root zero uf1 x y rx) in Hxy; [|done].
      exact (root_of_det zero uf1 y rx ry Hxy Hry). }
    destruct (Heq Hrxy) as [_ _ Hn _ Hroots].
    exists uf3. split_and!; done.
Qed.

(** X12. [UnionSet] is commutative on the partition.  [UnionSet(x, y)]
    and [UnionSet(y, x)] leave the same keys in the same sets and the
    same counter (the root that represents the merged set may differ:
    with equal ranks the root of the second argument survives). *)
Theorem UnionSet_commutes uf x y :
  reachable uf →
  ∃ uf1 uf2,
    UnionSet uf x y = Some uf1 ∧ UnionSet uf y x = Some uf2 ∧
    (∀ a b, same_set uf1 a b ↔ same_set uf2 a b) ∧
    NumDisjointSets uf1 = NumDisjointSets uf2.
Proof.
  intros Hreach. pose proof (UFClaims.reachable_wf zero uf Hreach) as Hwf.
  destruct (UnionSet_same_set zero uf x y Hwf) as (uf1 & Hu1 & _ & Hm1).
  destruct (UnionSet_same_set zero uf y x Hwf) as (uf2 & Hu2 & _ & Hm2).
  exists uf1, uf2. split_and!; [done..| |].
  - intros a b. rewrite Hm1, Hm2. unfold merged. tauto.
  - destruct (UnionSet_spec zero uf x y Hwf)
      as (? & rx & ry & ? & Hrx & Hry & _ & _ & _ & Heq1 & Hne1).
    destruct (UnionSet_spec zero uf y x Hwf)
      as (? & ry' & rx' & ? & Hry' & Hrx' & _ & _ & _ & Heq2 & Hne2).
    simplify_eq.
    assert (rx' = rx) as -> by exact (root_of_det zero uf x rx' rx Hrx' Hrx).
    assert (ry' = ry) as -> by exact (root_of_det zero uf y ry' ry Hry' Hry).
    unfold NumDisjointSets. destruct (decide (rx = ry)) as [Hxy|Hxy].
    + destruct (Heq1 Hxy) as [_ _ -> _ _].
      by destruct (Heq2 (eq_sym Hxy)) as [_ _ -> _ _].
    + destruct (Hne1 Hxy) as [-> _].
      assert (ry ≠ rx) as Hyx by (intros ->; done).
      by destruct (Hne2 Hyx) as [-> _].
Qed.

(** X13. [Apply] calls back once for every key it ranges over, in that
    order, with the key and the root of its set; it changes neither the
    sets nor the counter, and it leaves every key it has visited stored
    directly below its root. *)
Theorem Apply_visits_every_key uf (keys : list T) :
  reachable uf → (∀ k, k ∈ keys → k ∈ dom (parent uf)) →
  ∃ uf' roots,
    Apply_keys keys (λ key parent calls, Some (calls ++ [(key, parent)])) uf []
    = Some (uf', zip keys roots) ∧
    Forall2 (root_of uf) keys roots ∧
    (∀ j s, root_of uf' j s ↔ root_of uf j s) ∧
    NumDisjointSets uf' = NumDisjointSets uf ∧
    (∀ k, k ∈ keys → ∃ r, root_of uf k r ∧ parent uf' !! k = Some r).
Proof.
  intros Hreach Hkeys. pose proof (UFClaims.reachable_wf zero uf Hreach) as Hwf.
  destruct (Apply_collect zero pair uf keys [] Hwf Hkeys)
    as (uf' & roots & Hrun & Hroots & Hsf & _ & _ & Hcomp).
  exists uf', roots. split_and!; [done|done|apply Hsf|by destruct Hsf| ].
  intros k Hk. destruct (Hcomp k (or_introl Hk)) as (r & Hr & Hp).
  exists r. split; [by apply Hsf|done].
Qed.

(** X14. A second [FindSet] changes nothing.  After [FindSet(i)] has
    returned [r], the path of [i] is compressed: [FindSet(i)] and
    [FindSet(r)] return [r] again and leave the forest exactly as it
    is. *)
Theorem FindSet_twice uf i uf' r :
  reachable uf → FindSet uf i = Some (uf', r) →
  FindSet uf' i = Some (uf', r) ∧ FindSet uf' r = Some (uf', r).
Proof.
  intros Hreach. apply FindSet_again. by apply UFClaims.reachable_wf.
Qed.

End Extras.

(** *** Instances on [UnionFind[string]] *)

Definition uf_xy : UnionFind (T := string) :=
  InitKey (InitKey NewUnionFind "x") "y".

Lemma uf_xy_reachable : UFClaims.reachable "" uf_xy.
Proof. repeat constructor. Qed.

Lemma SizeOfSet_counts_members_witness :
  ∃ uf, UnionAll "" (InitKeys NewUnionFind ["x"; "y"; "z"]) [("x", "y")] = Some uf ∧
        ∀ a, a ∈ ["x"; "y"; "z"] →
          ∃ uf' (members : gset string),
            SizeOfSet "" uf a = Some (uf', Z.of_nat (base.size members)) ∧
            ∀ b, b ∈ members ↔ b ∈ ["x"; "y"; "z"] ∧ connected [("x", "y")] a b.
Proof.
  apply (SizeOfSet_counts_members "" ["x"; "y"; "z"] [("x", "y")]).
  - by vm_compute.
  - intros x y Hxy. apply list_elem_of_singleton in Hxy. simplify_eq. set_solver.
Defined.

Lemma NumDisjointSets_counts_sets_witness :
  ∃ uf (reps : gset string),
    UnionAll "" (InitKeys NewUnionFind ["x"; "y"; "z"]) [("x", "y")] = Some uf ∧
    NumDisjointSets uf = Z.of_nat (base.size reps) ∧
    (∀ r, r ∈ reps → r ∈ ["x"; "y"; "z"] ∧ parent_of "" uf r = r) ∧
    (∀ a, a ∈ ["x"; "y"; "z"] →
       ∃ r, r ∈ reps ∧ connected [("x", "y")] a r ∧
            ∀ r', r' ∈ reps → connected [("x", "y")] a r' → r' = r).
Proof.
  apply (NumDisjointSets_counts_sets "" ["x"; "y"; "z"] [("x", "y")]).
  - repeat constructor; set_solver.
  - by vm_compute.
  - intros x y Hxy. apply list_elem_of_singleton in Hxy. simplify_eq. set_solver.
Defined.

Lemma IsSameSet_is_an_equivalence_witness :
  (∃ uf', IsSameSet "" uf_xy "x" "x" = Some (uf', true)) ∧
  (∃ uf1 uf2 res, IsSameSet "" uf_xy "x" "y" = Some (uf1, res) ∧
                  IsSameSet "" uf_xy "y" "x" = Some (uf2, res)).
Proof.
  destruct (IsSameSet_is_an_equivalence "" uf_xy uf_xy_reachable) as (Hrefl & Hsym & _).
  split; [apply (Hrefl "x")|apply (Hsym "x" "y")].
Defined.

Lemma UnionSet_joins_witness :
  ∃ uf1, UnionSet "" uf_xy "x" "y" = Some uf1 ∧
         (∃ uf2, IsSameSet "" uf1 "x" "y" = Some (uf2, true)) ∧
         (∀ a b, same_set "" uf_xy a b → same_set "" uf1 a b) ∧
         ∃ uf3, UnionSet "" uf1 "x" "y" = Some uf3 ∧
                NumDisjointSets uf3 = NumDisjointSets uf1 ∧
                ∀ j s, root_of "" uf3 j s ↔ root_of "" uf1 j s.
Proof. apply (UnionSet_joins "" uf_xy "x" "y" uf_xy_reachable). Defined.

Lemma UnionSet_commutes_witness :
  ∃ uf1 uf2,
    UnionSet "" uf_xy "x" "y" = Some uf1 ∧ UnionSet "" uf_xy "y" "x" = Some uf2 ∧
    (∀ a b, same_set "" uf1 a b ↔ same_set "" uf2 a b) ∧
    NumDisjointSets uf1 = NumDisjointSets uf2.
Proof. apply (UnionSet_commutes "" uf_xy "x" "y" uf_xy_reachable). Defined.

Lemma uf_xy_keys k : k ∈ ["x"; "y"] → k ∈ dom (parent uf_xy).
Proof.
  intros Hk. unfold uf_xy. simpl. rewrite !dom_insert_L. set_solver.
Qed.

Lemma Apply_visits_every_key_witness :
  ∃ uf' roots,
    Apply_keys "" ["x"; "y"] (λ key parent calls, Some (calls ++ [(key, parent)]))
               uf_xy []
    = Some (uf', zip ["x"; "y"] roots) ∧
    Forall2 (root_of "" uf_xy) ["x"; "y"] roots ∧
    (∀ j s, root_of "" uf' j s ↔ root_of "" uf_xy j s) ∧
    NumDisjointSets uf' = NumDisjointSets uf_xy ∧
    (∀ k, k ∈ ["x"; "y"] → ∃ r, root_of "" uf_xy k r ∧ parent uf' !! k = Some r).
Proof.
  apply (Apply_visits_every_key "" uf_xy ["x"; "y"] uf_xy_reachable uf_xy_keys).
Defined.

Lemma FindSet_twice_witness :
  FindSet "" uf_xy "x" = Some (uf_xy, "x") ∧ FindSet "" uf_xy "x" = Some (uf_xy, "x").
Proof.
  apply (FindSet_twice "" uf_xy "x" uf_xy "x" uf_xy_reachable).
  apply FindSet_root. by vm_compute.
Defined.

(** X15. [Print] prints one line for every key it ranges over, in that
    order: the key, [" -> "], the root of the set of the key, and a
    newline. *)
Theorem Print_lists_every_key (uf : UnionFind (T := string)) (keys : list string) :
  UFClaims.reachable "" uf → (∀ k, k ∈ keys → k ∈ dom (parent uf)) →
  ∃ uf' roots,
    Print keys uf
    = Some (uf', zip_with (λ key root, key +:+ " -> " +:+ root +:+ newline)%string
                          keys roots) ∧
    Forall2 (root_of "" uf) keys roots.
Proof.
  intros Hreach Hkeys. pose proof (UFClaims.reachable_wf "" uf Hreach) as Hwf.
  destruct (Apply_collect "" (λ key root, key +:+ " -> " +:+ root +:+ newline)%string
                          uf keys [] Hwf Hkeys)
    as (uf' & roots & Hrun & Hroots & _).
  by exists uf', roots.
Qed.

Lemma Print_lists_every_key_witness :
  ∃ uf' roots,
    Print ["x"; "y"] uf_xy
    = Some (uf', zip_with (λ key root, key +:+ " -> " +:+ root +:+ newline)%string
                          ["x"; "y"] roots) ∧
    Forall2 (root_of "" uf_xy) ["x"; "y"] roots.
Proof.
  apply (Print_lists_every_key uf_xy ["x"; "y"] uf_xy_reachable uf_xy_keys).
Defined.

End UFExtras.

(** ** The processor: the unions it makes *)

Module EPSMore.
Import UF UFFacts UFSeq UFSealed UFMore EPS EPSFacts EPSFeed.
Section Pairs.
Variable normalize : string → string.
Variable Ratio : string → string → Z.

Abbreviation Feed := (gmap string gtfs.Stop).
Abbreviation UnionFind := (UnionFind (T := string)).
Abbreviation propose := (propose normalize Ratio).
Abbreviation unite_results := (unite_results normalize Ratio).

Implicit Types (feed F G : Feed) (uf : UnionFind) (s o stop : gtfs.Stop)
  (k q key a b : string) (D : gset string).

(** The [UnionSet] calls of the second loop. *)
Definition seed_pairs (stops : list (string * gtfs.Stop)) : list (string * string) :=
  omap (λ ks, (λ parent, (gtfs.Id ks.2, parent)) <$> gtfs.Parent_station ks.2) stops.

Lemma seed_UnionAll stops uf : seed stops uf = UnionAll "" uf (seed_pairs stops).
Proof.
  revert uf. induction stops as [|[k s] stops IH]; intros uf; [done|].
  unfold seed_pairs. simpl.
  destruct (gtfs.Parent_station s) as [parent|]; simpl.
  - destruct (UnionSet "" uf (gtfs.Id s) parent) as [uf1|]; simpl; [apply IH|done].
  - apply IH.
Qed.

Lemma elem_of_seed_pairs stops a b :
  (a, b) ∈ seed_pairs stops ↔
  ∃ k s, (k, s) ∈ stops ∧ a = gtfs.Id s ∧ gtfs.Parent_station s = Some b.
Proof.
  unfold seed_pairs. rewrite list_elem_of_omap. split.
  - intros ([k s] & Hin & Hsome). simpl in Hsome.
    destruct (gtfs.Parent_station s) as [parent|] eqn:Hp; simplify_eq/=.
    by exists k, s.
  - intros (k & s & Hin & -> & Hp). exists (k, s). split; [done|].
    simpl. by rewrite Hp.
Qed.

(** The point that the third loop searches around. *)
Definition query_of s : KD.Point gtfs.Stop :=
  KD.mkPoint (gtfs.Lat s) (gtfs.Lon s) s.

(** The test of the third loop on a stop and a search result. *)
Definition same_name s (p : KD.Point gtfs.Stop) : bool :=
  ConsiderSame normalize Ratio (normalize (gtfs.Name s))
               (normalize (gtfs.Name (KD.Data p))) TOL_IS_SAME.

(** The [UnionSet] calls of the third loop. *)
Definition match_pairs s (norm : string) (results : list (KD.Point gtfs.Stop))
  : list (string * string) :=
  omap (λ p, if ConsiderSame normalize Ratio norm (normalize (gtfs.Name (KD.Data p)))
                             TOL_IS_SAME
             then Some (gtfs.Id s, gtfs.Id (KD.Data p)) else None) results.

Lemma unite_results_UnionAll s norm results uf :
  unite_results s norm results uf = UnionAll "" uf (match_pairs s norm results).
Proof.
  revert uf. induction results as [|p results IH]; intros uf; [done|].
  unfold match_pairs. simpl.
  destruct (ConsiderSame normalize Ratio norm _ TOL_IS_SAME); simpl.
  - destruct (UnionSet "" uf (gtfs.Id s) _) as [uf1|]; simpl; [apply IH|done].
  - apply IH.
Qed.

Definition propose_pairs (root : KD.Node gtfs.Stop) (stops : list (string * gtfs.Stop))
  : list (string * string) :=
  stops ≫= λ ks, match_pairs ks.2 (normalize (gtfs.Name ks.2))
                   (KD.SearchRange root (query_of ks.2) radiusKm 0 []).

Lemma propose_UnionAll root stops uf :
  propose root stops uf = UnionAll "" uf (propose_pairs root stops).
Proof.
  revert uf. induction stops as [|[k s] stops IH]; intros uf; [done|].
  unfold propose_pairs. simpl. rewrite UnionAll_app, unite_results_UnionAll.
  unfold query_of.
  destruct (UnionAll "" uf _) as [uf1|]; simpl; [apply IH|done].
Qed.

Lemma elem_of_propose_pairs root stops a b :
  (a, b) ∈ propose_pairs root stops ↔
  ∃ k s p, (k, s) ∈ stops ∧
           p ∈ KD.SearchRange root (query_of s) radiusKm 0 [] ∧
           same_name s p = true ∧ a = gtfs.Id s ∧ b = gtfs.Id (KD.Data p).
Proof.
  unfold propose_pairs, match_pairs, same_name.
  rewrite list_elem_of_bind. split.
  - intros ([k s] & Hin & Hs). simpl in Hin. apply list_elem_of_omap in Hin.
    destruct Hin as (p & Hp & Hsome). case_match; simplify_eq.
    by exists k, s, p.
  - intros (k & s & p & Hs & Hp & Hsame & -> & ->). exists (k, s). split; [|done].
    simpl. apply list_elem_of_omap. exists p. split; [done|]. by rewrite Hsame.
Qed.
End Pairs.

Section Clusters.
Variable normalize : string → string.
Variable Ratio : string → string → Z.
Variable range_Stops : nat → gmap string gtfs.Stop → list (string * gtfs.Stop).
Variable range_parent : gmap string string → list string.
Hypothesis Hranges : ranges_ok range_Stops range_parent.

Abbreviation Feed := (gmap string gtfs.Stop).
Abbreviation UnionFind := (UnionFind (T := string)).
Abbreviation seeded := (seeded range_Stops).
Abbreviation clustered := (clustered normalize Ratio range_Stops).

Implicit Types (feed F G : Feed) (uf : UnionFind) (s o stop : gtfs.Stop)
  (k q key a b : string) (D : gset string).

(** The index that [Run] searches. *)
Definition index G : KD.Node gtfs.Stop :=
  BuildKDTreeParallelLimited (register (range_Stops 0 G)).1 0.

(** What makes [Run] put two stops into one set: the first refers to the
    second as its parent station, or the search around the first
    reports the second and their names are considered the same.
    [normalize] stands for what the calls of the Go function return; it
    is one function of the name on the feeds whose names are normalised
    alike in every order of the range over the replacement table. *)
Definition linked_stops G a b : Prop :=
  ∃ sa, G !! a = Some sa ∧
        (gtfs.Parent_station sa = Some b ∨
         ∃ p, p ∈ KD.SearchRange (index G) (query_of sa) radiusKm 0 [] ∧
              same_name normalize Ratio sa p = true ∧ b = gtfs.Id (KD.Data p)).

(** The two parts of a link without the test on the names: [a] refers
    to [b] as its parent station; the search around [a] reports [b]. *)
Definition parent_link G a b : Prop :=
  ∃ sa, G !! a = Some sa ∧ gtfs.Parent_station sa = Some b.

Definition in_range G a b : Prop :=
  ∃ sa p, G !! a = Some sa ∧
          p ∈ KD.SearchRange (index G) (query_of sa) radiusKm 0 [] ∧
          b = gtfs.Id (KD.Data p).

Definition may_link G a b : Prop := parent_link G a b ∨ in_range G a b.

Lemma parent_link_linked G a b : parent_link G a b → linked_stops G a b.
Proof. intros (sa & Hsa & Hp). exists sa. split; [done|by left]. Qed.

Lemma linked_may_link G a b : linked_stops G a b → may_link G a b.
Proof.
  intros (sa & Hsa & [Hp|(p & Hp & _ & Hb)]).
  - left. by exists sa.
  - right. by exists sa, p.
Qed.

Definition union_pairs G : list (string * string) :=
  seed_pairs (range_Stops 1 G) ++
  propose_pairs normalize Ratio (index G) (range_Stops 2 G).

Lemma seeded_UnionAll G :
  seeded G = UnionAll "" (InitKeys NewUnionFind (registered_ids (range_Stops 0 G)))
                      (seed_pairs (range_Stops 1 G)).
Proof. unfold EPS.seeded. by rewrite seed_UnionAll, register_spec. Qed.

Lemma clustered_UnionAll G :
  clustered G = UnionAll "" (InitKeys NewUnionFind (registered_ids (range_Stops 0 G)))
                         (union_pairs G).
Proof.
  unfold EPS.clustered, union_pairs. rewrite UnionAll_app, <- seeded_UnionAll.
  destruct (seeded G) as [uf1|]; simpl; [|done].
  by rewrite propose_UnionAll.
Qed.

Lemma unioned_linked G a b :
  feed_wf G → unioned (union_pairs G) a b ↔ linked_stops G a b.
Proof.
  intros Hwf. unfold unioned, union_pairs, linked_stops.
  rewrite elem_of_app, elem_of_seed_pairs, elem_of_propose_pairs. split.
  - intros [(k & s & Hin & -> & Hp)|(k & s & p & Hin & Hp & Hsame & -> & ->)].
    + apply (range_Stops_elem _ _ Hranges) in Hin.
      rewrite (wf_ids _ Hwf _ _ Hin). exists s. split; [done|by left].
    + apply (range_Stops_elem _ _ Hranges) in Hin.
      rewrite (wf_ids _ Hwf _ _ Hin). exists s. split; [done|right]. by exists p.
  - intros (sa & Hsa & [Hp|(p & Hp & Hsame & ->)]).
    + left. exists a, sa. split_and!; [|by rewrite (wf_ids _ Hwf _ _ Hsa)|done].
      by apply (range_Stops_elem _ _ Hranges).
    + right. exists a, sa, p. split_and!; [|done..|by rewrite (wf_ids _ Hwf _ _ Hsa)|done].
      by apply (range_Stops_elem _ _ Hranges).
Qed.

Lemma registered_ids_dom G a :
  feed_wf G → a ∈ registered_ids (range_Stops 0 G) ↔ a ∈ dom G.
Proof.
  intros Hwf. rewrite (registered_ids_keys _ _ Hranges) by done.
  rewrite (range_Stops_keys _ _ Hranges). apply elem_of_elements.
Qed.

Lemma linked_stops_dom G a b : feed_wf G → linked_stops G a b → a ∈ dom G ∧ b ∈ dom G.
Proof.
  intros Hwf (sa & Hsa & Hlink). split; [apply elem_of_dom; by eexists|].
  destruct Hlink as [Hp|(p & Hp & _ & ->)].
  - by eapply wf_refs.
  - apply (index_points _ _ Hranges); [done|].
    apply KDFacts.SearchRange_sound in Hp as [Hp|[Hp _]]; [|done].
    by apply elem_of_nil in Hp.
Qed.

(** The sets of the forest that [Run] applies are the connected
    components of [linked_stops]. *)
Lemma clustered_components G :
  feed_wf G →
  ∃ uf1 uf2,
    seeded G = Some uf1 ∧ clustered G = Some uf2 ∧
    roots_set "" uf2 ⊆ roots_set "" uf1 ∧
    ∀ a b, a ∈ dom G → b ∈ dom G →
           same_set "" uf2 a b ↔ rtsc (linked_stops G) a b.
Proof.
  intros Hwf.
  destruct (clustered_spec normalize Ratio range_Stops range_parent Hranges G Hwf)
    as (uf1 & uf2 & Hseed & Hclus & Hs1 & Hs2 & _).
  exists uf1, uf2. split_and!; [done..| |].
  - unfold EPS.clustered in Hclus. rewrite Hseed in Hclus. simpl in Hclus.
    rewrite propose_UnionAll in Hclus.
    eapply (UnionAll_roots_subset "" uf1 (dom G)); [done| |done].
    intros x y Hxy.
    apply (linked_stops_dom G x y Hwf), unioned_linked; [done|].
    unfold unioned, union_pairs. apply elem_of_app. by right.
  - destruct (UnionAll_connected "" (registered_ids (range_Stops 0 G))
                (InitKeys NewUnionFind (registered_ids (range_Stops 0 G))) []
                (union_pairs G)) as (uf' & Hrun & _ & Hconn).
    + apply InitKeys_wf, NewUnionFind_wf.
    + intros a b Ha Hb. rewrite connected_nil.
      rewrite (same_set_root "" _ a b a) by by apply InitKeys_root.
      split; [|intros <-; by apply InitKeys_root].
      intros Hb'. symmetry. eapply root_of_det; [by apply InitKeys_root|done].
    + intros x y Hxy. rewrite !registered_ids_dom by done.
      by apply (linked_stops_dom G x y Hwf), unioned_linked.
    + rewrite <- clustered_UnionAll in Hrun. simplify_eq.
      intros a b Ha Hb. rewrite Hconn by by apply registered_ids_dom.
      simpl. unfold connected. apply rtsc_pointwise. intros u v.
      by apply unioned_linked.
Qed.
End Clusters.
End EPSMore.

(** ** Stop hierarchies: facts *)

Module HierarchyFacts.
Section Chains.
Abbreviation Feed := (gmap string gtfs.Stop).
Implicit Types (stops F G : Feed) (s : gtfs.Stop) (k q t : string) (l : list string).

(** [chain stops k l t]: the parent pointers lead from [k] through the
    stops [l] ([k] first, unless it has no parent) to the stop [t],
    which has none. *)
Inductive chain stops : string → list string → string → Prop :=
| chain_top t s :
    stops !! t = Some s → gtfs.Parent_station s = None → chain stops t [] t
| chain_up k s q l t :
    stops !! k = Some s → gtfs.Parent_station s = Some q →
    chain stops q l t → chain stops k (k :: l) t.

Lemma chain_det stops k l t l' t' :
  chain stops k l t → chain stops k l' t' → l = l' ∧ t = t'.
Proof.
  intros Hc. revert l' t'.
  induction Hc as [t s Hs Hp|k s q l t Hs Hp Hc IH]; intros l' t' Hc';
    inversion Hc'; simplify_eq; try done.
  destruct (IH _ _ ltac:(done)) as [-> ->]. done.
Qed.

Lemma chain_from_member stops k l t x :
  chain stops k l t → x ∈ l → ∃ l1 l2, l = l1 ++ l2 ∧ chain stops x l2 t.
Proof.
  induction 1 as [t s Hs Hp|k s q l t Hs Hp Hc IH]; intros Hx.
  - by apply elem_of_nil in Hx.
  - destruct (decide (x = k)) as [->|Hne].
    + exists [], (k :: l). split; [done|]. by econstructor.
    + apply elem_of_cons in Hx as [?|Hx]; [done|].
      destruct (IH Hx) as (l1 & l2 & -> & Hc2).
      by exists (k :: l1), l2.
Qed.

Lemma chain_NoDup stops k l t : chain stops k l t → NoDup l.
Proof.
  induction 1 as [t s Hs Hp|k s q l t Hs Hp Hc IH]; [constructor|].
  apply NoDup_cons. split; [|done]. intros Hk.
  destruct (chain_from_member _ _ _ _ _ Hc Hk) as (l1 & l2 & -> & Hc2).
  assert (Hc3 : chain stops k (k :: l1 ++ l2) t) by by econstructor.
  destruct (chain_det _ _ _ _ _ _ Hc2 Hc3) as [Hl _].
  apply (f_equal length) in Hl. rewrite length_cons, length_app in Hl. lia.
Qed.

Lemma chain_members stops k l t x : chain stops k l t → x ∈ l → x ∈ dom stops.
Proof.
  induction 1 as [t s Hs Hp|k s q l t Hs Hp Hc IH]; intros Hx.
  - by apply elem_of_nil in Hx.
  - apply elem_of_cons in Hx as [->|Hx]; [|by apply IH].
    apply elem_of_dom. by eexists.
Qed.

Lemma chain_length stops k l t : chain stops k l t → (length l ≤ size stops)%nat.
Proof.
  intros Hc.
  assert (Hsub : l ⊆+ elements (dom stops)).
  { apply NoDup_submseteq; [by eapply chain_NoDup|].
    intros x Hx. apply elem_of_elements. by eapply chain_members. }
  apply submseteq_length in Hsub.
  change (length (elements (dom stops))) with (size (dom stops)) in Hsub.
  by rewrite size_dom in Hsub.
Qed.

Lemma chain_end stops k l t :
  chain stops k l t → ∃ s, stops !! t = Some s ∧ gtfs.Parent_station s = None.
Proof. induction 1; eauto. Qed.

Lemma TopLevelStop_loop_chain steps stops k l t :
  chain stops k l t → (length l < steps)%nat →
  TopLevelStop_loop steps stops k = Some t.
Proof.
  intros Hc. revert steps.
  induction Hc as [t s Hs Hp|k s q l t Hs Hp Hc IH]; intros [|steps] Hlen;
    simpl in *; try lia.
  - by rewrite Hs; simpl; rewrite Hp.
  - rewrite Hs. simpl. rewrite Hp. apply IH. lia.
Qed.

Lemma TopLevelStop_loop_Some steps stops k t :
  TopLevelStop_loop steps stops k = Some t → ∃ l, chain stops k l t.
Proof.
  revert k. induction steps as [|steps IH]; intros k Hrun; [done|].
  simpl in Hrun. destruct (stops !! k) as [s|] eqn:Hs; [|done]. simpl in Hrun.
  destruct (gtfs.Parent_station s) as [q|] eqn:Hp.
  - destruct (IH q Hrun) as [l Hc]. exists (k :: l). by econstructor.
  - simplify_eq. exists []. by econstructor.
Qed.

Lemma TopLevelStop_chain stops k t :
  TopLevelStop k stops = Some t ↔ ∃ l, chain stops k l t.
Proof.
  split; [apply TopLevelStop_loop_Some|].
  intros [l Hc]. eapply TopLevelStop_loop_chain; [done|].
  apply chain_length in Hc. lia.
Qed.
End Chains.
End HierarchyFacts.

(** ** Names that [normalize] treats alike in every range order *)

Module NormalizeStable.
Import Text.

(** The name when [normalize] reaches its replacement table. *)
Definition before_replacements (Unidecode : string → string) (name : string)
  : list ascii :=
  let name := list_ascii_of_string (Unidecode name) in
  let name := ToLower name in
  let name := strip_parens name in
  let name := ReplaceAll name ["-"%char] [" "%char] in
  let name := strip_punctuation name in
  let name :=
    strip_words ["bussteig"; "gleis"; "bahnsteig"; "bus"; "zug"]%string false name in
  let name :=
    strip_words ["db"; "mvv"; "vrr"; "rmv"; "bvg"; "sbb"; "oebb"; "sncf";
                 "trenitalia"]%string false name in
  Join (Fields name) [" "%char].

(** The loop over the table, and what follows it. *)
Definition replace_each (order : list (string * string)) (name : list ascii)
  : list ascii :=
  foldl (λ name '(k, v),
           ReplaceAll name (list_ascii_of_string k) (list_ascii_of_string v))
        name order.

Definition after_replacements (name : list ascii) : string :=
  let name :=
    strip_words ["s+u"; "s"; "u"; "rb"; "re"; "tram"; "bus"; "bhf"]%string true name in
  let name := Join (Fields name) [" "%char] in
  string_of_list_ascii name.

Lemma normalize_steps Unidecode order name :
  normalize Unidecode order name
  = after_replacements (replace_each order (before_replacements Unidecode name)).
Proof. reflexivity. Qed.

(** No key of the table occurs in [name]. *)
Definition untouched (order : list (string * string)) (name : list ascii) : Prop :=
  Forall (λ kv, ReplaceAll name (list_ascii_of_string kv.1) (list_ascii_of_string kv.2)
                = name) order.

#[global] Instance untouched_dec order name : Decision (untouched order name).
Proof. unfold untouched. apply _. Defined.

Lemma replace_each_untouched order name :
  untouched order name → replace_each order name = name.
Proof.
  unfold untouched, replace_each.
  induction 1 as [|[k v] order Hkv _ IH]; [done|].
  simpl in *. by rewrite Hkv.
Qed.

(** [normalize(name)] returns [norm name] whatever order its range over
    the replacement table takes. *)
Definition call_stable (Unidecode : string → string) (norm : string → string)
    (name : string) : Prop :=
  ∀ order, order ≡ₚ replacements → normalize Unidecode order name = norm name.

(** A name in which, when the table is reached, no key occurs, is
    normalised alike in every order. *)
Lemma untouched_stable Unidecode name :
  untouched replacements (before_replacements Unidecode name) →
  call_stable Unidecode (normalize Unidecode replacements) name.
Proof.
  intros Hun order Hperm. rewrite !normalize_steps.
  rewrite (replace_each_untouched replacements) by done.
  rewrite replace_each_untouched; [done|].
  unfold untouched in *. by rewrite Hperm.
Qed.
End NormalizeStable.

(** ** The processor and the stop hierarchy: further properties *)

Module EPSExtras.
Import UF UFFacts UFSeq UFSealed UFMore EPS EPSFacts EPSFeed EPSMore HierarchyFacts.
Import NormalizeStable.

Lemma par_inj a b : par a = par b → a = b.
Proof. unfold par. intros Heq. by simplify_eq. Qed.

(** Every call of [normalize] that [Run] makes on the feed [G] (on the
    name of a stop, and in [ConsiderSame] on what such a call returned)
    returns what [norm] returns, whatever order its range over the
    replacement table takes. *)
Definition names_stable (Unidecode : string → string) (norm : string → string)
    (G : gmap string gtfs.Stop) : Prop :=
  ∀ k s, G !! k = Some s →
         call_stable Unidecode norm (gtfs.Name s) ∧
         call_stable Unidecode norm (norm (gtfs.Name s)).

Lemma rtsc_subrel {A : Type} (R R' : relation A) (a b : A) :
  (∀ u v, R u v → R' u v) → rtsc R a b → rtsc R' a b.
Proof.
  intros HR. unfold rtsc. apply rtc_subrel. intros u v [?|?]; [left|right]; by apply HR.
Qed.

Section RunExtras.
Variable normalize : string → string.
Variable Ratio : string → string → Z.
Variable range_Stops : nat → gmap string gtfs.Stop → list (string * gtfs.Stop).
Variable range_parent : gmap string string → list string.
Hypothesis Hranges : ranges_ok range_Stops range_parent.

Abbreviation Feed := (gmap string gtfs.Stop).
Abbreviation UnionFind := (UnionFind (T := string)).
Abbreviation Run := (Run normalize Ratio range_Stops range_parent).
Abbreviation linked_stops := (linked_stops normalize Ratio range_Stops).
Abbreviation may_link := (may_link range_Stops).

Implicit Types (feed F G : Feed) (uf : UnionFind) (s o stop : gtfs.Stop)
  (k q r key a b : string).

Lemma Run_forest G :
  feed_wf G →
  ∃ F' uf1 uf2,
    Run G = Some (F', NumDisjointSets uf1, NumDisjointSets uf2) ∧
    sealed "" uf1 (dom G) ∧ sealed "" uf2 (dom G) ∧
    (Z.of_nat (base.size G) ≤ int_max → counted "" uf1 ∧ counted "" uf2) ∧
    roots_set "" uf2 ⊆ roots_set "" uf1 ∧
    (∀ a b, a ∈ dom G → b ∈ dom G →
            same_set "" uf2 a b ↔ rtsc (linked_stops G) a b) ∧
    grown G F' ∧ (∀ k, k ∈ dom G → parented uf2 F' k).
Proof.
  intros Hwf.
  destruct (EPSClaims.Run_spec normalize Ratio range_Stops range_parent Hranges G Hwf)
    as (F' & uf1 & uf2 & Hrun & Hseed & Hclus & Hs1 & Hs2 & Hc & Hg & Hpar & _).
  destruct (clustered_components normalize Ratio range_Stops range_parent Hranges G Hwf)
    as (uf1' & uf2' & Hseed' & Hclus' & Hsub & Hconn).
  simplify_eq. by exists F', uf1, uf2.
Qed.

(** X16. Which stops [Run] puts under one parent.  Call two stops
    linked when the first refers to the second as its parent station, or
    when the range search around the first reports the second and
    [ConsiderSame] accepts their normalised names.  After [Run], every
    two stops of the input feed that a chain of parent references
    connects have the same [Parent_station], and every two stops with
    the same [Parent_station] are connected by a chain of parent
    references and range-search hits; both hold whatever the calls of
    [normalize] return.  If moreover every call of [normalize] on the
    names of the feed returns the same string in every order of its
    range over the replacement table (so that [norm] is what the calls
    return), two stops have the same [Parent_station] exactly when a
    chain of links, followed in either direction, connects them. *)
Theorem Run_clusters_are_components (Unidecode : string → string) G :
  feed_wf G →
  ∃ F' prev after,
    Run G = Some (F', prev, after) ∧
    ∀ a b, a ∈ dom G → b ∈ dom G →
      ∃ sa sb pa pb,
        F' !! a = Some sa ∧ F' !! b = Some sb ∧
        gtfs.Parent_station sa = Some pa ∧ gtfs.Parent_station sb = Some pb ∧
        (rtsc (parent_link G) a b → pa = pb) ∧
        (pa = pb → rtsc (may_link G) a b) ∧
        (names_stable Unidecode normalize G →
         (pa = pb ↔ rtsc (linked_stops G) a b)).
Proof.
  intros Hwf.
  destruct (Run_forest G Hwf) as (F' & uf1 & uf2 & Hrun & _ & _ & _ & _ & Hconn & _ & Hpar).
  eexists F', _, _. split; [done|]. intros a b Ha Hb.
  destruct (Hpar a Ha) as (sa & ra & Hsa & Hpa & Hra & _).
  destruct (Hpar b Hb) as (sb & rb & Hsb & Hpb & Hrb & _).
  exists sa, sb, (par ra), (par rb).
  assert (Hiff : par ra = par rb ↔ rtsc (linked_stops G) a b).
  { rewrite <- Hconn by done. rewrite (same_set_root "" uf2 a b ra) by done.
    split.
    - intros Heq%par_inj. by subst.
    - intros Hrb'. f_equal. exact (root_of_det "" uf2 b ra rb Hrb' Hrb). }
  split_and!; [done..| | |done].
  - intros Hchain. apply Hiff. revert Hchain. apply rtsc_subrel.
    intros u v. apply parent_link_linked.
  - intros Heq. apply Hiff in Heq. revert Heq. apply rtsc_subrel.
    intros u v. apply linked_may_link.
Qed.

(** X17. The numbers that [Run] reports.  The number of sets after the
    name matching is never more than the number before it, which is
    never more than the number of stops; it is at least one when the
    feed has a stop.  (So the branch of the message that prints a
    removal of parent stops only ever prints zero.) *)
Theorem Run_never_reports_more_sets G :
  feed_wf G → Z.of_nat (base.size G) ≤ int_max →
  ∃ F' prev after,
    Run G = Some (F', prev, after) ∧
    0 ≤ after ≤ prev ∧ prev ≤ Z.of_nat (base.size G) ∧ (G ≠ ∅ → 1 ≤ after).
Proof.
  intros Hwf Hsize.
  destruct (Run_forest G Hwf)
    as (F' & uf1 & uf2 & Hrun & Hs1 & Hs2 & Hc & Hsub & _ & _ & _).
  destruct (Hc Hsize) as [Hc1 Hc2].
  eexists F', _, _. split; [done|]. rewrite Hc1, Hc2.
  assert (Hdom1 : roots_set "" uf1 ⊆ dom G).
  { intros k. unfold roots_set. rewrite elem_of_filter, (sealed_dom _ _ _ Hs1). tauto. }
  apply subseteq_size in Hsub, Hdom1. rewrite size_dom in Hdom1.
  split_and!; [lia..|].
  intros Hne.
  destruct (map_choose G Hne) as (k & s & Hk).
  assert (Hkd : k ∈ dom G) by (apply elem_of_dom; by eexists).
  destruct (wf_total _ _ (sealed_wf _ _ _ Hs2) k) as [r Hr].
  assert (Hin : r ∈ roots_set "" uf2).
  { unfold roots_set. apply elem_of_filter. split; [by eapply root_in_root|].
    rewrite (sealed_dom _ _ _ Hs2). exact (sealed_root "" uf2 (dom G) k r Hs2 Hr Hkd). }
  assert (base.size (roots_set "" uf2) ≠ 0%nat); [|lia].
  intros Hz. apply size_empty_inv in Hz. set_solver.
Qed.

(** X18. [Run] only adds to the feed.  Every stop of the input is still
    stored under its key with the same id, name, position, location type
    and timezone (only its [Parent_station] changes); every record that
    [Run] adds is a station (location type 1) without parent, stored
    under its id ["par::" + q] for a stop [q] of the input; and in the
    feed that [Run] leaves every stop is stored under its own id and
    every parent reference points to a stop of the feed. *)
Theorem Run_keeps_the_stops G :
  feed_wf G →
  ∃ F' prev after,
    Run G = Some (F', prev, after) ∧
    (∀ k s, G !! k = Some s →
       ∃ s', F' !! k = Some s' ∧
             gtfs.Id s' = gtfs.Id s ∧ gtfs.Name s' = gtfs.Name s ∧
             gtfs.Lat s' = gtfs.Lat s ∧ gtfs.Lon s' = gtfs.Lon s ∧
             gtfs.Location_type s' = gtfs.Location_type s ∧
             gtfs.Timezone s' = gtfs.Timezone s) ∧
    (∀ k s', F' !! k = Some s' → k ∉ dom G →
       (∃ q, q ∈ dom G ∧ k = par q) ∧ gtfs.Id s' = k ∧
       gtfs.Location_type s' = 1 ∧ gtfs.Parent_station s' = None) ∧
    feed_wf F'.
Proof.
  intros Hwf.
  destruct (Run_forest G Hwf) as (F' & uf1 & uf2 & Hrun & _ & _ & _ & _ & _ & Hg & _).
  eexists F', _, _. split_and!; [done| | |by eapply grown_wf].
  - intros k s Hs. destruct (g_keep _ _ Hg k s Hs) as (s' & Hs' & Hsame).
    exists s'. split; [done|]. unfold same_stop in Hsame. rewrite Hsame.
    by destruct s.
  - intros k s' Hs' Hk. by apply (g_new _ _ Hg).
Qed.

(** X20. After [Run] on a feed in which no stop is named ["par::"]
    followed by the id of another, the top-level stop of every stop of
    the input is the station it was given as parent: [TopLevelStop]
    returns it after one step, and it is one of the added stations. *)
Theorem TopLevelStop_after_Run G :
  feed_wf G → (∀ q, q ∈ dom G → par q ∉ dom G) →
  ∃ F' prev after,
    Run G = Some (F', prev, after) ∧
    ∀ k, k ∈ dom G →
      ∃ s' p sp,
        F' !! k = Some s' ∧ gtfs.Parent_station s' = Some p ∧
        TopLevelStop k F' = Some p ∧
        F' !! p = Some sp ∧ gtfs.Location_type sp = 1 ∧ p ∉ dom G.
Proof.
  intros Hwf Hfresh.
  destruct (Run_forest G Hwf) as (F' & uf1 & uf2 & Hrun & _ & Hs2 & _ & _ & _ & Hg & Hpar).
  eexists F', _, _. split; [done|]. intros k Hk.
  destruct (Hpar k Hk) as (s' & r & Hs' & Hp & Hr & Hrd & Hin).
  rewrite (sealed_dom _ _ _ Hs2) in Hrd.
  apply elem_of_dom in Hin as [sp Hsp].
  destruct (g_new _ _ Hg (par r) sp Hsp (Hfresh r Hrd)) as (_ & _ & Hloc & Hnone).
  exists s', (par r), sp. split_and!; [done..| |done|done|by apply Hfresh].
  apply TopLevelStop_chain. exists [k].
  eapply chain_up; [done..|]. by eapply chain_top.
Qed.

End RunExtras.

(** X19. [TopLevelStop] returns the stop at the end of the chain of
    parent references: it returns [t] exactly when the chain from the
    given stop ends in [t]; the stop it returns has no parent and is its
    own top-level stop; from a stop with a parent it returns what it
    returns from that parent; and when the chain does not end (a cycle
    of parent references) the loop never returns, whatever number of
    iterations it is given. *)
Theorem TopLevelStop_finds_the_top (stops : gmap string gtfs.Stop) (k : string) :
  (∀ t, TopLevelStop k stops = Some t ↔ ∃ l, chain stops k l t) ∧
  (∀ t, TopLevelStop k stops = Some t →
        (∃ s, stops !! t = Some s ∧ gtfs.Parent_station s = None) ∧
        TopLevelStop t stops = Some t) ∧
  (∀ s q, stops !! k = Some s → gtfs.Parent_station s = Some q →
          TopLevelStop k stops = TopLevelStop q stops) ∧
  ((¬ ∃ l t, chain stops k l t) →
   ∀ steps, TopLevelStop_loop steps stops k = None).
Proof.
  split_and!.
  - intros t. apply TopLevelStop_chain.
  - intros t [l Hc]%TopLevelStop_chain.
    destruct (chain_end _ _ _ _ Hc) as (s & Hs & Hp). split; [by exists s|].
    apply TopLevelStop_chain. exists []. by econstructor.
  - intros s q Hs Hp.
    destruct (TopLevelStop q stops) as [t|] eqn:Hq.
    + apply TopLevelStop_chain in Hq as [l Hc]. apply TopLevelStop_chain.
      exists (k :: l). by econstructor.
    + destruct (TopLevelStop k stops) as [t|] eqn:Hk; [|done].
      apply TopLevelStop_chain in Hk as [l Hc].
      inversion Hc; simplify_eq.
      assert (Hq' : TopLevelStop q stops = Some t)
        by (apply TopLevelStop_chain; by eexists).
      congruence.
  - intros Hno steps.
    destruct (TopLevelStop_loop steps stops k) as [t|] eqn:Hrun; [|done].
    apply TopLevelStop_loop_Some in Hrun as [l Hc]. destruct Hno. by exists l, t.
Qed.

(** *** Concrete feeds *)

Definition range_listed (n : nat) (m : gmap string gtfs.Stop)
  : list (string * gtfs.Stop) := map_to_list m.
Definition range_keys (m : gmap string string) : list string := elements (dom m).

Lemma ranges_listed_ok : ranges_ok range_listed range_keys.
Proof. split; intros; done. Qed.

Definition same_text_Ratio (a b : string) : Z := if String.eqb a b then 100 else 0.

Definition normalize_in_source_order : string → string :=
  normalize (λ name, name) replacements.

Definition platform (id : string) (parent : option string) : gtfs.Stop :=
  gtfs.mkStop id "Markt" 50 8 0 parent "Europe/Berlin".

(** A stop ["P1"] whose parent station is the stop ["S"]. *)
Definition feed_PS : gmap string gtfs.Stop :=
  <["P1" := platform "P1" (Some "S")]> {[ "S" := platform "S" None ]}.

Lemma feed_PS_wf : feed_wf feed_PS.
Proof.
  unfold feed_PS. split.
  - intros k s. rewrite lookup_insert. case_decide; [by intros [= <-]; subst|].
    rewrite lookup_singleton. case_decide; [|done]. by intros [= <-]; subst.
  - intros k s q. rewrite lookup_insert. case_decide.
    + intros [= <-] [= <-]. rewrite dom_insert_L, dom_singleton_L. set_solver.
    + rewrite lookup_singleton. case_decide; [|done]. by intros [= <-].
Qed.

Lemma feed_PS_fresh q : q ∈ dom feed_PS → par q ∉ dom feed_PS.
Proof.
  unfold feed_PS. rewrite dom_insert_L, dom_singleton_L.
  rewrite !elem_of_union, !elem_of_singleton.
  intros [->| ->]; unfold par; simpl; intros [?|?]; done.
Qed.

(** The name of both stops holds no key of the replacement table. *)
Lemma feed_PS_stable : names_stable (λ name, name) normalize_in_source_order feed_PS.
Proof.
  assert (Hname : ∀ k s, feed_PS !! k = Some s → gtfs.Name s = "Markt").
  { intros k s. unfold feed_PS. rewrite lookup_insert. case_decide; [by intros [= <-]|].
    rewrite lookup_singleton. case_decide; [|done]. by intros [= <-]. }
  intros k s Hs. rewrite (Hname k s Hs). split.
  - apply untouched_stable. apply (bool_decide_unpack _). by vm_compute.
  - replace (normalize_in_source_order "Markt") with "markt" by (by vm_compute).
    apply untouched_stable. apply (bool_decide_unpack _). by vm_compute.
Qed.

Lemma Run_clusters_are_components_witness :
  ∃ F' prev after,
    EPS.Run normalize_in_source_order same_text_Ratio range_listed range_keys feed_PS
    = Some (F', prev, after) ∧
    ∀ a b, a ∈ dom feed_PS → b ∈ dom feed_PS →
      ∃ sa sb pa pb,
        F' !! a = Some sa ∧ F' !! b = Some sb ∧
        gtfs.Parent_station sa = Some pa ∧ gtfs.Parent_station sb = Some pb ∧
        (rtsc (EPSMore.parent_link feed_PS) a b → pa = pb) ∧
        (pa = pb → rtsc (EPSMore.may_link range_listed feed_PS) a b) ∧
        (pa = pb ↔
         rtsc (EPSMore.linked_stops normalize_in_source_order same_text_Ratio
                                    range_listed feed_PS) a b).
Proof.
  destruct (Run_clusters_are_components normalize_in_source_order same_text_Ratio
              range_listed range_keys ranges_listed_ok (λ name, name) feed_PS feed_PS_wf)
    as (F' & prev & after & Hrun & Hall).
  exists F', prev, after. split; [exact Hrun|]. intros a b Ha Hb.
  destruct (Hall a b Ha Hb) as (sa & sb & pa & pb & Hsa & Hsb & Hpa & Hpb & H1 & H2 & H3).
  exists sa, sb, pa, pb.
  exact (conj Hsa (conj Hsb (conj Hpa (conj Hpb (conj H1 (conj H2 (H3 feed_PS_stable))))))).
Defined.

Lemma Run_never_reports_more_sets_witness :
  ∃ F' prev after,
    EPS.Run normalize_in_source_order same_text_Ratio range_listed range_keys feed_PS
    = Some (F', prev, after) ∧
    0 ≤ after ≤ prev ∧ prev ≤ Z.of_nat (base.size feed_PS) ∧ (feed_PS ≠ ∅ → 1 ≤ after).
Proof.
  apply (Run_never_reports_more_sets normalize_in_source_order same_text_Ratio
           range_listed range_keys ranges_listed_ok feed_PS feed_PS_wf).
  by vm_compute.
Defined.

Lemma Run_keeps_the_stops_witness :
  ∃ F' prev after,
    EPS.Run normalize_in_source_order same_text_Ratio range_listed range_keys feed_PS
    = Some (F', prev, after) ∧
    (∀ k s, feed_PS !! k = Some s →
       ∃ s', F' !! k = Some s' ∧
             gtfs.Id s' = gtfs.Id s ∧ gtfs.Name s' = gtfs.Name s ∧
             gtfs.Lat s' = gtfs.Lat s ∧ gtfs.Lon s' = gtfs.Lon s ∧
             gtfs.Location_type s' = gtfs.Location_type s ∧
             gtfs.Timezone s' = gtfs.Timezone s) ∧
    (∀ k s', F' !! k = Some s' → k ∉ dom feed_PS →
       (∃ q, q ∈ dom feed_PS ∧ k = par q) ∧ gtfs.Id s' = k ∧
       gtfs.Location_type s' = 1 ∧ gtfs.Parent_station s' = None) ∧
    feed_wf F'.
Proof.
  apply (Run_keeps_the_stops normalize_in_source_order same_text_Ratio
           range_listed range_keys ranges_listed_ok feed_PS feed_PS_wf).
Defined.

Lemma TopLevelStop_after_Run_witness :
  ∃ F' prev after,
    EPS.Run normalize_in_source_order same_text_Ratio range_listed range_keys feed_PS
    = Some (F', prev, after) ∧
    ∀ k, k ∈ dom feed_PS →
      ∃ s' p sp,
        F' !! k = Some s' ∧ gtfs.Parent_station s' = Some p ∧
        TopLevelStop k F' = Some p ∧
        F' !! p = Some sp ∧ gtfs.Location_type sp = 1 ∧ p ∉ dom feed_PS.
Proof.
  apply (TopLevelStop_after_Run normalize_in_source_order same_text_Ratio
           range_listed range_keys ranges_listed_ok feed_PS feed_PS_wf feed_PS_fresh).
Defined.

End EPSExtras.

(** ** Name normalisation: the shape of a normalised name *)

Module NormalizeFacts.
Import Text.
Open Scope char_scope.

Implicit Types (c : ascii) (s cur old new w : list ascii).

(** The characters of a word of a normalised name: lower-case letters,
    digits and the underscore. *)
Definition word_char c : bool := is_lower c || is_digit c || Ascii.eqb c "_".

(** The characters that are left once the punctuation is removed from a
    lower-case name. *)
Definition plain_char c : bool := word_char c || is_unicode_space c.

Lemma is_upper_lower c : is_upper (lower c) = false.
Proof. destruct c as [[] [] [] [] [] [] [] []]; reflexivity. Qed.

Lemma plain_char_kept c :
  is_upper c = false → is_word c || is_space c = true → plain_char c = true.
Proof.
  unfold plain_char, word_char, is_word, is_unicode_space. intros ->.
  destruct (is_lower c), (is_digit c), (Ascii.eqb c "_"), (is_space c); done.
Qed.

Lemma word_char_no_space c :
  plain_char c = true → is_unicode_space c = false → word_char c = true.
Proof. unfold plain_char. intros H1 H2. rewrite H2 in H1. by rewrite orb_false_r in H1. Qed.

Section Kept.
Variable P : ascii → Prop.

Lemma strip_parens_from_Forall skip s :
  Forall P s → Forall P (strip_parens_from skip s).
Proof.
  intros Hs. revert skip.
  induction Hs as [|c s Hc Hs IH]; intros skip; cbn [strip_parens_from]; [done|].
  destruct skip; [|apply IH].
  destruct (paren_match (c :: s)); [apply IH|]. constructor; [done|apply IH].
Qed.

Lemma ReplaceAll_from_Forall skip s old new :
  Forall P s → Forall P new → Forall P (ReplaceAll_from skip s old new).
Proof.
  intros Hs Hnew. revert skip.
  induction Hs as [|c s Hc Hs IH]; intros skip; cbn [ReplaceAll_from]; [done|].
  destruct skip; [|apply IH].
  destruct (is_prefix old (c :: s)).
  - apply Forall_app. split; [done|apply IH].
  - constructor; [done|apply IH].
Qed.

Lemma strip_words_from_Forall alts tail skip prev_word s :
  Forall P s → Forall P (strip_words_from alts tail skip prev_word s).
Proof.
  intros Hs. revert skip prev_word.
  induction Hs as [|c s Hc Hs IH]; intros skip prev_word; cbn [strip_words_from];
    [done|].
  destruct skip; [|apply IH].
  destruct (if prev_word then None else word_match alts (c :: s)); [apply IH|].
  constructor; [done|apply IH].
Qed.

Lemma Fields_from_Forall cur s :
  Forall P cur → Forall P s → Forall (Forall P) (Fields_from cur s).
Proof.
  intros Hcur Hs. revert cur Hcur.
  induction Hs as [|c s Hc Hs IH]; intros cur Hcur; simpl.
  - destruct cur; [constructor|]. by constructor.
  - destruct (is_unicode_space c).
    + destruct cur; [by apply IH|]. constructor; [done|by apply IH].
    + apply IH. apply Forall_app. split; [done|by constructor].
Qed.

Lemma Join_Forall (elems : list (list ascii)) sep :
  Forall (Forall P) elems → Forall P sep → Forall P (Join elems sep).
Proof.
  intros Helems Hsep.
  induction Helems as [|e elems He Helems IH]; simpl; [done|].
  destruct elems as [|e' elems]; [done|].
  apply Forall_app. split; [done|]. apply Forall_app. split; [done|apply IH].
Qed.
End Kept.

(** [strings.Fields] returns non-empty fields without white space. *)
Lemma Fields_from_words cur s :
  Forall (λ c, is_unicode_space c = false) cur →
  Forall (λ w, w ≠ [] ∧ Forall (λ c, is_unicode_space c = false) w)
         (Fields_from cur s).
Proof.
  revert cur. induction s as [|c s IH]; intros cur Hcur; simpl.
  - destruct cur; [constructor|]. by constructor.
  - destruct (is_unicode_space c) eqn:Hc.
    + destruct cur; [by apply IH|]. constructor; [done|by apply IH].
    + apply IH. apply Forall_app. split; [done|by constructor].
Qed.

Lemma replacements_plain :
  Forall (λ kv, Forall (λ c, plain_char c = true) (list_ascii_of_string kv.2))
         replacements.
Proof. repeat constructor. Qed.

Section Normal.
Variable Unidecode : string → string.
Variable range_replacements : list (string * string).

(** The name as it is before the final white-space cleanup. *)
Lemma normalize_words name :
  (∀ kv, kv ∈ range_replacements → kv ∈ replacements) →
  ∃ words,
    list_ascii_of_string (normalize Unidecode range_replacements name)
    = Join words [" "] ∧
    Forall (λ w, w ≠ [] ∧ Forall (λ c, word_char c = true) w) words.
Proof.
  intros Hrr. unfold normalize. cbv zeta.
  rewrite list_ascii_of_string_of_list_ascii.
  set (n2 := ToLower (list_ascii_of_string (Unidecode name))).
  assert (H2 : Forall (λ c, is_upper c = false) n2).
  { unfold n2, ToLower. apply Forall_fmap, Forall_true. intros c. apply is_upper_lower. }
  clearbody n2.
  set (n4 := ReplaceAll (strip_parens n2) ["-"] [" "]).
  assert (H4 : Forall (λ c, is_upper c = false) n4).
  { apply ReplaceAll_from_Forall; [by apply strip_parens_from_Forall|by repeat constructor]. }
  clearbody n4.
  set (n5 := strip_punctuation n4).
  assert (H5 : Forall (λ c, plain_char c = true) n5).
  { unfold n5, strip_punctuation. apply Forall_forall. intros c Hc.
    apply list_elem_of_filter in Hc as [Hc1 Hc2].
    apply plain_char_kept; [|done]. by eapply Forall_forall in H4. }
  clearbody n5.
  set (n8 := Join (Fields (strip_words _ false (strip_words _ false n5))) [" "]).
  assert (H8 : Forall (λ c, plain_char c = true) n8).
  { apply Join_Forall; [|by repeat constructor].
    apply Fields_from_Forall; [constructor|].
    by do 2 apply strip_words_from_Forall. }
  clearbody n8.
  set (n9 := foldl _ n8 range_replacements).
  assert (H9 : Forall (λ c, plain_char c = true) n9).
  { unfold n9. clear n9. revert n8 H8.
    induction range_replacements as [|[k v] rr IH]; intros n8 H8; simpl; [done|].
    apply IH; [intros kv Hkv; apply Hrr; set_solver|].
    apply ReplaceAll_from_Forall; [done|].
    assert (Hkv : (k, v) ∈ replacements) by (apply Hrr; set_solver).
    pose proof replacements_plain as Hplain.
    rewrite Forall_forall in Hplain. exact (Hplain (k, v) Hkv). }
  clearbody n9.
  set (n10 := strip_words _ true n9).
  assert (H10 : Forall (λ c, plain_char c = true) n10)
    by by apply strip_words_from_Forall.
  clearbody n10.
  exists (Fields n10). split; [done|].
  pose proof (Fields_from_words [] n10 ltac:(constructor)) as Hw.
  pose proof (Fields_from_Forall (λ c, plain_char c = true) [] n10 ltac:(constructor) H10) as Hp.
  unfold Fields. revert Hw Hp. generalize (Fields_from [] n10).
  intros words Hw Hp. induction Hw as [|w words [Hne Hns] Hw IH]; [constructor|].
  apply Forall_cons in Hp as [Hpw Hp]. constructor; [|by apply IH].
  split; [done|]. apply Forall_forall. intros c Hc.
  apply word_char_no_space; [by eapply Forall_forall in Hpw|by eapply Forall_forall in Hns].
Qed.
End Normal.
End NormalizeFacts.

Module NormalizeExtras.
Import Text NormalizeFacts.

(** X21. The shape of a normalised name.  Whatever the input name,
    whatever [Unidecode] returns for it and in whatever order the
    replacement table is ranged over, [normalize] returns a sequence of
    non-empty words, made of lower-case letters, digits and underscores
    only, joined by single spaces: no upper-case letter, punctuation or
    other white space is left, and no space leads, trails or repeats. *)
Theorem normalize_returns_plain_words (Unidecode : string → string)
    (range_replacements : list (string * string)) (name : string) :
  range_replacements ≡ₚ replacements →
  ∃ words,
    list_ascii_of_string (normalize Unidecode range_replacements name)
    = Join words [" "%char] ∧
    Forall (λ w, w ≠ [] ∧
                 Forall (λ c, is_lower c || is_digit c || Ascii.eqb c "_" = true) w)
           words.
Proof.
  intros Hperm. apply normalize_words. intros kv Hkv. by rewrite <- Hperm.
Qed.

Lemma normalize_returns_plain_words_witness :
  ∃ words,
    list_ascii_of_string (normalize (λ name, name) replacements "Koeln Hbf (tief)")
    = Join words [" "%char] ∧
    Forall (λ w, w ≠ [] ∧
                 Forall (λ c, is_lower c || is_digit c || Ascii.eqb c "_" = true) w)
           words.
Proof.
  apply (normalize_returns_plain_words (λ name, name) replacements "Koeln Hbf (tief)").
  done.
Defined.

End NormalizeExtras.

(** ** Trips: [NumTrips] and the processor [ExtendTripHeadSign] *)

Module ETHFacts.
Import Trips ETH.
Section Loop.
Variable range_Trips : gmap string Trip → list (string * Trip).

Implicit Types (stops : gmap string gtfs.Stop) (trips acc res : gmap string Trip)
  (t : Trip) (k id : string) (todo : list (string * Trip)).

(** What Go guarantees about the [range] over the trips. *)
Definition range_ok : Prop := ∀ trips, range_Trips trips ≡ₚ map_to_list trips.

(** A trip on which the body of the loop panics: its headsign is nil, or
    it is empty and the trip has no stop time. *)
Definition panics stops t : Prop :=
  deref stops (Headsign t) = None ∨
  (deref stops (Headsign t) = Some "" ∧ StopTimes t = []).

Lemma extend_headsign_None stops t :
  extend_headsign stops t = None ↔ panics stops t.
Proof.
  unfold extend_headsign, panics.
  destruct (deref stops (Headsign t)) as [h|]; simpl; [|naive_solver].
  case_decide as Hh.
  - split; [done|]. intros [?|[[= ->] _]]; done.
  - subst h.
    destruct (last (StopTimes t)) as [st|] eqn:Hl; simpl.
    + split; [done|]. intros [?|[_ Hnil]]; [done|]. by rewrite Hnil in Hl.
    + apply last_None in Hl. naive_solver.
Qed.

Lemma extend_headsign_Some stops t t' :
  extend_headsign stops t = Some t' →
  Route_of t' = Route_of t ∧ StopTimes t' = StopTimes t ∧
  (deref stops (Headsign t) ≠ Some "" → t' = t) ∧
  (deref stops (Headsign t) = Some "" →
   ∃ st, last (StopTimes t) = Some st ∧ Headsign t' = NameOf (Stop st)).
Proof.
  unfold extend_headsign.
  destruct (deref stops (Headsign t)) as [h|]; simpl; [|done].
  case_decide as Hh.
  - intros [= <-]. split_and!; [done..|]. intros [= ->]. done.
  - subst h.
    destruct (last (StopTimes t)) as [st|]; simpl; [|done].
    intros [= <-]. split_and!; [done..| |]; [done|]. intros _. by exists st.
Qed.

Lemma Run_loop_lookup stops todo acc res :
  NoDup todo.*1 → Run_loop stops todo acc = Some res →
  ∀ k, (∀ t, (k, t) ∈ todo → res !! k = extend_headsign stops t) ∧
       (k ∉ todo.*1 → res !! k = acc !! k).
Proof.
  revert acc. induction todo as [|[k0 t0] todo IH]; intros acc Hnd Hrun k.
  { simpl in Hrun. simplify_eq. split; [|done]. intros t Ht. by apply elem_of_nil in Ht. }
  simpl in Hnd. apply NoDup_cons in Hnd as [Hk0 Hnd].
  simpl in Hrun. destruct (extend_headsign stops t0) as [t0'|] eqn:Hext; [|done].
  simpl in Hrun. destruct (IH _ Hnd Hrun k) as [Hin Hout].
  split.
  - intros t. rewrite elem_of_cons. intros [[= -> ->]|Ht]; [|by apply Hin].
    destruct (IH _ Hnd Hrun k0) as [_ Hout0].
    by rewrite Hout0, lookup_insert_eq.
  - simpl. rewrite not_elem_of_cons. intros [Hne Hk].
    by rewrite Hout, lookup_insert_ne.
Qed.

Lemma Run_loop_None stops todo acc :
  Run_loop stops todo acc = None ↔
  ∃ k t, (k, t) ∈ todo ∧ extend_headsign stops t = None.
Proof.
  revert acc. induction todo as [|[k0 t0] todo IH]; intros acc; simpl.
  { split; [done|]. intros (k & t & Hin & _). by apply elem_of_nil in Hin. }
  destruct (extend_headsign stops t0) as [t0'|] eqn:Hext; simpl.
  - rewrite IH. split.
    + intros (k & t & Hin & Hnone). exists k, t. split; [by right|done].
    + intros (k & t & Hin & Hnone). apply elem_of_cons in Hin as [[= -> ->]|Hin].
      * congruence.
      * by exists k, t.
  - split; [|done]. intros _. exists k0, t0. split; [by left|done].
Qed.

Lemma range_Trips_elem trips k t :
  range_ok → (k, t) ∈ range_Trips trips ↔ trips !! k = Some t.
Proof. intros Hr. rewrite (Hr trips). apply elem_of_map_to_list. Qed.

Lemma range_Trips_NoDup trips : range_ok → NoDup (range_Trips trips).*1.
Proof. intros Hr. rewrite (Hr trips). apply NoDup_fst_map_to_list. Qed.

Lemma range_Trips_keys trips k :
  range_ok → k ∈ (range_Trips trips).*1 ↔ k ∈ dom trips.
Proof.
  intros Hr. rewrite list_elem_of_fmap, elem_of_dom. split.
  - intros ([k' t] & -> & Hin). apply range_Trips_elem in Hin; [|done]. by eexists.
  - intros [t Ht]. exists (k, t). split; [done|]. by apply range_Trips_elem.
Qed.

(** The trips that [Run] leaves. *)
Lemma Run_lookup feed feed' k :
  range_ok → Run range_Trips feed = Some feed' →
  Stops feed' = Stops feed ∧
  Trips feed' !! k = (Trips feed !! k) ≫= extend_headsign (Stops feed).
Proof.
  intros Hr Hrun. unfold Run in Hrun.
  destruct (Run_loop _ _ _) as [res|] eqn:Hloop; [|done]. simpl in Hrun.
  simplify_eq. simpl. split; [done|].
  destruct (Run_loop_lookup _ _ _ _ (range_Trips_NoDup _ Hr) Hloop k) as [Hin Hout].
  destruct (Trips feed !! k) as [t|] eqn:Ht; simpl.
  - apply Hin. by apply range_Trips_elem.
  - rewrite Hout; [done|]. rewrite range_Trips_keys by done.
    by apply not_elem_of_dom.
Qed.

Lemma Run_None feed :
  range_ok →
  Run range_Trips feed = None ↔
  ∃ k t, Trips feed !! k = Some t ∧ panics (Stops feed) t.
Proof.
  intros Hr. unfold Run.
  destruct (Run_loop _ _ _) as [res|] eqn:Hloop; simpl.
  - split; [done|]. intros (k & t & Ht & Hp).
    assert (Hnone : Run_loop (Stops feed) (range_Trips (Trips feed)) (Trips feed) = None).
    { apply Run_loop_None. exists k, t. split; [by apply range_Trips_elem|].
      by apply extend_headsign_None. }
    congruence.
  - split; [|done]. intros _. apply Run_loop_None in Hloop as (k & t & Hin & Hnone).
    exists k, t. split; [by apply range_Trips_elem in Hin|by apply extend_headsign_None].
Qed.
End Loop.
End ETHFacts.

Module TripsExtras.
Import Trips ETH ETHFacts.

(** X22. [NumTrips] counts whole headways.  It never returns a negative
    number; it returns 0 when the frequency ends before it starts or
    when the headway is not positive (so it never divides by zero); and
    otherwise it returns the number of whole headways that fit between
    the start and the end. *)
Theorem NumTrips_counts_whole_headways (f : Frequency) :
  in_int_range (Start_time f) → in_int_range (End_time f) →
  in_int_range (End_time f - Start_time f) →
  0 ≤ NumTrips f ∧
  (End_time f < Start_time f ∨ Headway_secs f ≤ 0 → NumTrips f = 0) ∧
  (Start_time f ≤ End_time f → 0 < Headway_secs f →
   NumTrips f * Headway_secs f ≤ End_time f - Start_time f
     < (NumTrips f + 1) * Headway_secs f).
Proof.
  intros Hs He Hd. unfold NumTrips. cbv zeta.
  rewrite (wrap_int_id (End_time f - Start_time f)) by done.
  assert (Hlt : End_time f < Start_time f ↔ End_time f - Start_time f < 0) by lia.
  assert (Hle : Start_time f ≤ End_time f ↔ 0 ≤ End_time f - Start_time f) by lia.
  rewrite Hlt, Hle.
  generalize dependent (End_time f - Start_time f). intros d Hd _ _.
  generalize (Headway_secs f). intros h.
  case_decide as Hc.
  - split_and!; [done|done|]. lia.
  - assert (Hd0 : 0 ≤ d) by lia. assert (Hh0 : 0 < h) by lia.
    rewrite Z.quot_div_nonneg by lia.
    assert (Hq : 0 ≤ d `div` h ≤ d).
    { split; [by apply Z.div_pos|]. apply Z.div_le_upper_bound; [done|].
      rewrite <- (Z.mul_1_l d) at 1. apply Z.mul_le_mono_nonneg_r; lia. }
    rewrite wrap_int_id by (unfold in_int_range, int_min, int_max in *; lia).
    split_and!; [lia|lia|]. intros _ _.
    pose proof (Z.mul_div_le d h Hh0). pose proof (Z.mul_succ_div_gt d h Hh0). lia.
Qed.

Lemma NumTrips_counts_whole_headways_witness :
  let f := mkFrequency 21600 25200 600 in
  0 ≤ NumTrips f ∧
  (End_time f < Start_time f ∨ Headway_secs f ≤ 0 → NumTrips f = 0) ∧
  (Start_time f ≤ End_time f → 0 < Headway_secs f →
   NumTrips f * Headway_secs f ≤ End_time f - Start_time f
     < (NumTrips f + 1) * Headway_secs f).
Proof.
  apply (NumTrips_counts_whole_headways (mkFrequency 21600 25200 600));
    by vm_compute.
Defined.

Section Headsigns.
Variable range_Trips : gmap string Trip → list (string * Trip).
Hypothesis Hrange : range_ok range_Trips.

(** X23. [ExtendTripHeadSign.Run] fills the empty headsigns.  It panics
    exactly when some trip has a nil headsign, or an empty headsign and
    no stop time.  Otherwise it leaves the stops and the set of trips as
    they are, changes no route and no stop time, leaves every trip with
    a non-empty headsign untouched, and makes the headsign of every
    other trip a pointer to the name of the stop of its last stop
    time. *)
Theorem ExtendTripHeadSign_fills_empty_headsigns (feed : Feed) :
  (Run range_Trips feed = None ↔
   ∃ k t, Trips feed !! k = Some t ∧
          (deref (Stops feed) (Headsign t) = None ∨
           (deref (Stops feed) (Headsign t) = Some "" ∧ StopTimes t = []))) ∧
  (∀ feed', Run range_Trips feed = Some feed' →
     Stops feed' = Stops feed ∧ dom (Trips feed') = dom (Trips feed) ∧
     ∀ k t, Trips feed !! k = Some t →
       ∃ t', Trips feed' !! k = Some t' ∧
             Route_of t' = Route_of t ∧ StopTimes t' = StopTimes t ∧
             (deref (Stops feed) (Headsign t) ≠ Some "" → t' = t) ∧
             (deref (Stops feed) (Headsign t) = Some "" →
              ∃ st, last (StopTimes t) = Some st ∧ Headsign t' = NameOf (Stop st))).
Proof.
  split; [by apply Run_None|].
  intros feed' Hrun.
  assert (Hok : ∀ k t, Trips feed !! k = Some t →
                       ∃ t', extend_headsign (Stops feed) t = Some t').
  { intros k t Ht. destruct (extend_headsign (Stops feed) t) as [t'|] eqn:Hext; [by eexists|].
    assert (Run range_Trips feed = None); [|congruence].
    apply Run_None; [done|]. exists k, t. split; [done|]. by apply extend_headsign_None. }
  split_and!.
  - by apply (Run_lookup range_Trips feed feed' "" Hrange Hrun).
  - apply set_eq. intros k. rewrite !elem_of_dom.
    destruct (Run_lookup range_Trips feed feed' k Hrange Hrun) as [_ ->].
    destruct (Trips feed !! k) as [t|] eqn:Ht; simpl.
    + destruct (Hok k t Ht) as [t' ->]. split; by eexists.
    + split; intros [? ?]; done.
  - intros k t Ht.
    destruct (Run_lookup range_Trips feed feed' k Hrange Hrun) as [_ Hk].
    rewrite Ht in Hk. simpl in Hk. destruct (Hok k t Ht) as [t' Hext].
    exists t'. split; [by rewrite Hk|]. by apply extend_headsign_Some.
Qed.

(** X24. [ExtendTripHeadSign.Run] does not depend on the order of the
    range over the trips, and a second run changes nothing: when every
    stop time refers to a stop of the feed, the feed that one run
    returns is returned as it is by a run over it, in whatever order
    either run meets the trips. *)
Theorem ExtendTripHeadSign_is_idempotent
    (range_Trips' : gmap string Trip → list (string * Trip)) (feed feed' : Feed) :
  range_ok range_Trips' →
  (∀ k t st, Trips feed !! k = Some t → st ∈ StopTimes t → Stop st ∈ dom (Stops feed)) →
  Run range_Trips feed = Some feed' →
  Run range_Trips' feed = Some feed' ∧ Run range_Trips' feed' = Some feed'.
Proof.
  intros Hrange' Hstops Hrun.
  assert (Heq : ∀ f1 f2 : Feed, Stops f1 = Stops f2 →
                  (∀ k, Trips f1 !! k = Trips f2 !! k) → f1 = f2).
  { intros [s1 t1] [s2 t2]; simpl. intros -> Ht. f_equal. by apply map_eq. }
  assert (Hsome : ∀ f, (¬ ∃ k t, Trips f !! k = Some t ∧ panics (Stops f) t) →
                       ∃ f', Run range_Trips' f = Some f').
  { intros f Hno. destruct (Run range_Trips' f) as [f'|] eqn:Hr; [by eexists|].
    apply Run_None in Hr; done. }
  split.
  - destruct (Hsome feed) as [f' Hr'].
    { intros Hp. apply (Run_None range_Trips feed Hrange) in Hp. congruence. }
    rewrite Hr'. f_equal. apply Heq.
    + destruct (Run_lookup range_Trips' feed f' "" Hrange' Hr') as [-> _].
      by destruct (Run_lookup range_Trips feed feed' "" Hrange Hrun) as [-> _].
    + intros k.
      destruct (Run_lookup range_Trips' feed f' k Hrange' Hr') as [_ ->].
      by destruct (Run_lookup range_Trips feed feed' k Hrange Hrun) as [_ ->].
  - assert (Hfix : ∀ k t', Trips feed' !! k = Some t' →
                           extend_headsign (Stops feed') t' = Some t').
    { intros k t' Ht'.
      destruct (Run_lookup range_Trips feed feed' k Hrange Hrun) as [Hst Hk].
      rewrite Ht' in Hk. rewrite Hst.
      destruct (Trips feed !! k) as [t|] eqn:Ht; [|done]. simpl in Hk. symmetry in Hk.
      destruct (extend_headsign_Some _ _ _ Hk) as (Hroute & Htimes & Hkeep & Hfill).
      destruct (decide (deref (Stops feed) (Headsign t) = Some "")) as [He|Hne].
      - destruct (Hfill He) as (st & Hlast & Hhead).
        assert (Hin : Stop st ∈ dom (Stops feed)).
        { eapply Hstops; [done|]. apply last_Some in Hlast as [l' ->]. set_solver. }
        apply elem_of_dom in Hin as [s Hs].
        unfold extend_headsign. rewrite Hhead. simpl. rewrite Hs. simpl.
        case_decide; [done|]. rewrite Htimes, Hlast. simpl.
        f_equal. destruct t'. simpl in *. by subst.
      - rewrite (Hkeep Hne) in *. done. }
    destruct (Hsome feed') as [f' Hr'].
    { intros (k & t' & Ht' & Hp). apply extend_headsign_None in Hp.
      rewrite (Hfix k t' Ht') in Hp. done. }
    rewrite Hr'. f_equal. apply Heq.
    + by destruct (Run_lookup range_Trips' feed' f' "" Hrange' Hr') as [-> _].
    + intros k.
      destruct (Run_lookup range_Trips' feed' f' k Hrange' Hr') as [_ ->].
      destruct (Trips feed' !! k) as [t'|] eqn:Ht'; [|done]. simpl.
      by apply (Hfix k).
Qed.
End Headsigns.

(** *** A concrete feed *)

Definition range_listed (m : gmap string Trip) : list (string * Trip) := map_to_list m.

Lemma range_listed_ok : range_ok range_listed.
Proof. intros m. done. Qed.

Definition terminus : gtfs.Stop :=
  gtfs.mkStop "S9" "Endstation" 50 8 0 None "Europe/Berlin".

Definition trip_without_headsign : Trip :=
  mkTrip (mkRoute "R" 3) (OwnString "") [mkStopTime "S9" 28800 28860].

Definition small_feed : Feed :=
  mkFeed {[ "S9" := terminus ]} {[ "T" := trip_without_headsign ]}.

Definition small_feed_done : Feed :=
  mkFeed {[ "S9" := terminus ]}
         {[ "T" := with_Headsign trip_without_headsign (NameOf "S9") ]}.

Lemma small_feed_Run : Run range_listed small_feed = Some small_feed_done.
Proof.
  unfold Run, range_listed, small_feed. simpl. rewrite map_to_list_singleton. simpl.
  unfold small_feed_done. by rewrite insert_singleton_eq.
Qed.

Lemma ExtendTripHeadSign_fills_empty_headsigns_witness :
  (Run range_listed small_feed = None ↔
   ∃ k t, Trips small_feed !! k = Some t ∧
          (deref (Stops small_feed) (Headsign t) = None ∨
           (deref (Stops small_feed) (Headsign t) = Some "" ∧ StopTimes t = []))) ∧
  (∀ feed', Run range_listed small_feed = Some feed' →
     Stops feed' = Stops small_feed ∧ dom (Trips feed') = dom (Trips small_feed) ∧
     ∀ k t, Trips small_feed !! k = Some t →
       ∃ t', Trips feed' !! k = Some t' ∧
             Route_of t' = Route_of t ∧ StopTimes t' = StopTimes t ∧
             (deref (Stops small_feed) (Headsign t) ≠ Some "" → t' = t) ∧
             (deref (Stops small_feed) (Headsign t) = Some "" →
              ∃ st, last (StopTimes t) = Some st ∧ Headsign t' = NameOf (Stop st))).
Proof.
  apply (ExtendTripHeadSign_fills_empty_headsigns range_listed range_listed_ok small_feed).
Defined.

Lemma ExtendTripHeadSign_is_idempotent_witness :
  Run range_listed small_feed = Some small_feed_done ∧
  Run range_listed small_feed_done = Some small_feed_done.
Proof.
  apply (ExtendTripHeadSign_is_idempotent range_listed range_listed_ok range_listed
           small_feed small_feed_done range_listed_ok).
  - intros k t st. unfold small_feed. simpl.
    rewrite lookup_singleton. case_decide; [|done]. intros [= <-]. simpl.
    intros ->%list_elem_of_singleton. simpl. rewrite dom_singleton_L. set_solver.
  - apply small_feed_Run.
Defined.

End TripsExtras.

(** ** The processor [TooFastTripRemover] *)

Module TFTFacts.
Import Trips TFT.
Section Facts.
Variable Feed : Type.
Variable Trips_of : Feed → gmap string Trip.
Variable DeleteTrip : Feed → string → Feed.
Variable CleanTransfers : Feed → Feed.
Variable distSApprox : string → string → R.
Variable GetTypeFromExtended : Z → Z.
Variable range_Trips : nat → gmap string Trip → list (string * Trip).

Abbreviation too_fast := (too_fast GetTypeFromExtended).
Abbreviation first_loop := (first_loop distSApprox GetTypeFromExtended).
Abbreviation first_pass := (first_pass distSApprox GetTypeFromExtended).
Abbreviation second_loop := (second_loop distSApprox GetTypeFromExtended).
Abbreviation second_pass_from :=
  (second_pass_from Feed DeleteTrip distSApprox GetTypeFromExtended).
Abbreviation second_pass :=
  (second_pass Feed DeleteTrip distSApprox GetTypeFromExtended).
Abbreviation for_each_trip := (for_each_trip Feed Trips_of).
Abbreviation Run :=
  (Run Feed Trips_of DeleteTrip CleanTransfers distSApprox GetTypeFromExtended
       range_Trips).

Implicit Types (feed : Feed) (t : Trip) (id k : string) (st prev last from cur : StopTime)
  (rest : list StopTime) (todo : list (string * Trip)) (dist : R).

(** What the library functions do to the trips of the feed, and what Go
    guarantees about a [range] over a map. *)
Record library_ok : Prop := {
  DeleteTrip_trips : ∀ feed id, Trips_of (DeleteTrip feed id) = delete id (Trips_of feed);
  CleanTransfers_trips : ∀ feed, Trips_of (CleanTransfers feed) = Trips_of feed;
  range_Trips_perm : ∀ n m, range_Trips n m ≡ₚ map_to_list m
}.

(** Whether the second pass calls [DeleteTrip] for the trip. *)
Fixpoint second_flag_from t (from_j : list StopTime) : bool :=
  match from_j with
  | [] => false
  | st_j :: rest => second_loop t st_j st_j 0 rest || second_flag_from t rest
  end.

Definition second_flag t : bool :=
  match StopTimes t with
  | [] => false
  | _ :: from_1 => second_flag_from t from_1
  end.

Lemma second_pass_from_trips t id from_j feed :
  library_ok →
  Trips_of (second_pass_from t id from_j feed) =
  if second_flag_from t from_j then delete id (Trips_of feed) else Trips_of feed.
Proof.
  intros Hlib. revert feed. induction from_j as [|st_j rest IH]; intros feed; [done|].
  cbn [TFT.second_pass_from second_flag_from]. rewrite IH.
  destruct (second_loop t st_j st_j 0 rest); simpl.
  - rewrite (DeleteTrip_trips Hlib). by destruct (second_flag_from t rest);
      rewrite ?delete_delete_eq.
  - done.
Qed.

Lemma second_pass_trips t id feed :
  library_ok →
  Trips_of (second_pass t id feed) =
  if second_flag t then delete id (Trips_of feed) else Trips_of feed.
Proof.
  intros Hlib. unfold TFT.second_pass, second_flag.
  destruct (StopTimes t); [done|]. by apply second_pass_from_trips.
Qed.

(** A loop whose body deletes the trips that [flag] picks. *)
Lemma for_each_trip_lookup (body : string → Trip → Feed → Feed) (flag : Trip → bool)
    todo feed k :
  (∀ id t feed, Trips_of (body id t feed) =
                if flag t then delete id (Trips_of feed) else Trips_of feed) →
  NoDup todo.*1 →
  (∀ id t, (id, t) ∈ todo → Trips_of feed !! id = Some t) →
  Trips_of (for_each_trip body todo feed) !! k =
  t ← Trips_of feed !! k;
  if decide (k ∈ todo.*1 ∧ flag t = true) then None else Some t.
Proof.
  intros Hbody. revert feed.
  induction todo as [|[id0 t0] todo IH]; intros feed Hnd Hin.
  { unfold TFT.for_each_trip. cbn [foldl].
    destruct (Trips_of feed !! k) as [t|]; [|done]. cbn [mbind option_bind].
    destruct (decide (k ∈ ([] : list (string * Trip)).*1 ∧ flag t = true))
      as [[Ht _]|_]; [|done].
    by apply elem_of_nil in Ht. }
  simpl in Hnd. apply NoDup_cons in Hnd as [Hid0 Hnd].
  assert (Ht0 : Trips_of feed !! id0 = Some t0) by (apply Hin; by left).
  cbn [TFT.for_each_trip foldl].
  rewrite decide_True by (apply elem_of_dom; by eexists).
  change (foldl _ (body id0 t0 feed) todo) with (for_each_trip body todo (body id0 t0 feed)).
  assert (Hother : ∀ id t, (id, t) ∈ todo → id ≠ id0).
  { intros id t Hidt ->. apply Hid0. apply list_elem_of_fmap. by exists (id0, t). }
  rewrite IH; [|done|].
  - rewrite Hbody. cbn [fmap list_fmap fst]. destruct (decide (k = id0)) as [->|Hne].
    + destruct (flag t0) eqn:Hflag.
      * rewrite lookup_delete_eq, Ht0. simpl. rewrite decide_True; [done|].
        split; [by left|done].
      * rewrite Ht0. simpl. rewrite !decide_False; [done| |]; intros [_ ?]; congruence.
    + assert (Hk : (if flag t0 then delete id0 (Trips_of feed) else Trips_of feed) !! k
                   = Trips_of feed !! k).
      { destruct (flag t0); [by rewrite lookup_delete_ne|done]. }
      rewrite Hk. destruct (Trips_of feed !! k) as [t|]; simpl; [|done].
      destruct (decide (k ∈ todo.*1 ∧ flag t = true)) as [[Hkin Hf]|Hno].
      * rewrite decide_True; [done|]. split; [by right|done].
      * rewrite decide_False; [done|]. intros [Hkin Hf]. apply Hno.
        split; [|done]. by apply elem_of_cons in Hkin as [?|?].
  - intros id t Hidt. rewrite Hbody.
    destruct (flag t0); [rewrite lookup_delete_ne|];
      try (apply Hin; by right). intros ->. by eapply Hother.
Qed.

Lemma for_each_trip_filter (body : string → Trip → Feed → Feed) (flag : Trip → bool)
    n feed :
  library_ok →
  (∀ id t feed, Trips_of (body id t feed) =
                if flag t then delete id (Trips_of feed) else Trips_of feed) →
  Trips_of (for_each_trip body (range_Trips n (Trips_of feed)) feed) =
  filter (λ kt, flag kt.2 = false) (Trips_of feed).
Proof.
  intros Hlib Hbody. apply map_eq. intros k.
  assert (Helem : ∀ id t, (id, t) ∈ range_Trips n (Trips_of feed) ↔
                          Trips_of feed !! id = Some t).
  { intros id t. rewrite (range_Trips_perm Hlib). apply elem_of_map_to_list. }
  rewrite (for_each_trip_lookup body flag); [|done| |by intros id t ?%Helem].
  - rewrite map_lookup_filter.
    destruct (Trips_of feed !! k) as [t|] eqn:Ht; simpl; [|done].
    destruct (flag t) eqn:Hflag.
    + rewrite decide_True.
      * by rewrite option_guard_False.
      * split; [|done]. apply list_elem_of_fmap. exists (k, t).
        split; [done|]. by apply Helem.
    + rewrite decide_False by (intros [_ ?]; congruence).
      by rewrite option_guard_True.
  - rewrite (range_Trips_perm Hlib). apply NoDup_fst_map_to_list.
Qed.

(** The trips that [Run] removes. *)
Definition removed t : bool := first_pass t || second_flag t.

Lemma Run_trips feed :
  library_ok →
  Trips_of (Run feed).1 = filter (λ kt, removed kt.2 = false) (Trips_of feed).
Proof.
  intros Hlib. unfold TFT.Run. cbv zeta. simpl.
  rewrite (CleanTransfers_trips Hlib).
  rewrite (for_each_trip_filter _ second_flag 1);
    [|done|intros; by apply second_pass_trips].
  rewrite (for_each_trip_filter _ first_pass 0); [|done|].
  - apply map_eq. intros k. apply option_eq. intros t.
    rewrite !map_lookup_filter_Some. unfold removed. simpl.
    rewrite orb_false_iff. tauto.
  - intros id t feed'. destruct (first_pass t); [|done].
    apply (DeleteTrip_trips Hlib).
Qed.

(** *** Trips that are never too fast *)

(** The length of the path through the given stop times, in metres. *)
Fixpoint path_length prev rest : R :=
  match rest with
  | [] => 0
  | cur :: rest' => (distSApprox (Stop prev) (Stop cur) + path_length cur rest')%R
  end.

Definition threshold t : R :=
  default 0%R (distanceThresholds !! GetTypeFromExtended (Route_Type (Route_of t))).

Definition listed t : Prop :=
  GetTypeFromExtended (Route_Type (Route_of t)) ∈ dom distanceThresholds.

Lemma too_fast_listed t dist inter : too_fast t dist inter = true → listed t.
Proof.
  unfold TFT.too_fast, listed. cbv zeta.
  rewrite andb_true_iff, !bool_decide_eq_true. intros [_ Hover].
  unfold over_limit in Hover. unfold distanceThresholds.
  repeat (destruct Hover as [[-> _]|Hover]; [by vm_compute|]).
  destruct Hover as [-> _]. by vm_compute.
Qed.

Lemma too_fast_far t dist inter :
  too_fast t dist inter = true → (dist >= 1000 * threshold t)%R.
Proof.
  unfold TFT.too_fast, threshold. cbv zeta.
  rewrite andb_true_iff, !bool_decide_eq_true. tauto.
Qed.

Lemma path_length_nonneg prev rest :
  (∀ a b, (0 <= distSApprox a b)%R) → (0 <= path_length prev rest)%R.
Proof.
  intros Hd. revert prev. induction rest as [|cur rest IH]; intros prev; simpl; [lra|].
  specialize (IH cur). specialize (Hd (Stop prev) (Stop cur)). lra.
Qed.

Lemma first_loop_short t prev last dist rest :
  (∀ a b, (0 <= distSApprox a b)%R) →
  (0 <= dist)%R → (dist + path_length prev rest < 1000 * threshold t)%R →
  first_loop t prev last dist rest = false.
Proof.
  intros Hd. revert prev last dist.
  induction rest as [|cur rest IH]; intros prev last dist Hdist Hshort; [done|].
  cbn [TFT.first_loop]. simpl in Hshort.
  pose proof (path_length_nonneg cur rest Hd) as Hrest.
  pose proof (Hd (Stop prev) (Stop cur)) as Hhop.
  destruct (too_fast t _ _) eqn:Hfast.
  { apply too_fast_far in Hfast. lra. }
  case_decide; apply IH; lra.
Qed.

Lemma second_loop_short t from prev dist rest :
  (∀ a b, (0 <= distSApprox a b)%R) →
  (0 <= dist)%R → (dist + path_length prev rest < 1000 * threshold t)%R →
  second_loop t from prev dist rest = false.
Proof.
  intros Hd. revert prev dist.
  induction rest as [|cur rest IH]; intros prev dist Hdist Hshort; [done|].
  cbn [TFT.second_loop]. simpl in Hshort.
  pose proof (path_length_nonneg cur rest Hd) as Hrest.
  pose proof (Hd (Stop prev) (Stop cur)) as Hhop.
  destruct (too_fast t _ _) eqn:Hfast.
  { apply too_fast_far in Hfast. lra. }
  apply IH; lra.
Qed.

Lemma second_flag_from_short t prev rest :
  (∀ a b, (0 <= distSApprox a b)%R) →
  (path_length prev rest < 1000 * threshold t)%R →
  second_flag_from t rest = false.
Proof.
  intros Hd. revert prev. induction rest as [|cur rest IH]; intros prev Hshort; [done|].
  cbn [second_flag_from]. simpl in Hshort.
  pose proof (Hd (Stop prev) (Stop cur)) as Hhop.
  rewrite (second_loop_short t cur cur 0 rest Hd); [|lra|lra].
  simpl. apply (IH cur). lra.
Qed.

Lemma first_loop_unlisted t prev last dist rest :
  ¬ listed t → first_loop t prev last dist rest = false.
Proof.
  intros Hno. revert prev last dist.
  induction rest as [|cur rest IH]; intros prev last dist; [done|].
  cbn [TFT.first_loop].
  destruct (too_fast t _ _) eqn:Hfast; [by apply too_fast_listed in Hfast|].
  case_decide; apply IH.
Qed.

Lemma second_loop_unlisted t from prev dist rest :
  ¬ listed t → second_loop t from prev dist rest = false.
Proof.
  intros Hno. revert prev dist.
  induction rest as [|cur rest IH]; intros prev dist; [done|].
  cbn [TFT.second_loop].
  destruct (too_fast t _ _) eqn:Hfast; [by apply too_fast_listed in Hfast|].
  apply IH.
Qed.

Lemma second_flag_from_unlisted t rest : ¬ listed t → second_flag_from t rest = false.
Proof.
  intros Hno. induction rest as [|cur rest IH]; [done|].
  cbn [second_flag_from]. by rewrite second_loop_unlisted.
Qed.

Lemma keeps_cases t :
  (∀ a b, (0 <= distSApprox a b)%R) →
  (length (StopTimes t) < 2)%nat ∨ ¬ listed t ∨
  (∃ first rest, StopTimes t = first :: rest ∧
                 (path_length first rest < 1000 * threshold t)%R) →
  removed t = false.
Proof.
  intros Hd Hcase. unfold removed, TFT.first_pass, second_flag.
  destruct Hcase as [Hlen|[Hno|(first & rest & Hst & Hshort)]].
  - destruct (StopTimes t) as [|first [|second rest]]; simpl in *; try done. lia.
  - destruct (StopTimes t) as [|first rest]; [done|].
    by rewrite first_loop_unlisted, second_flag_from_unlisted.
  - rewrite Hst. rewrite (first_loop_short t first first 0 rest Hd); [|lra|lra].
    by rewrite (second_flag_from_short t first rest Hd).
Qed.

(** *** Trips with a hop that is too fast *)

(** The consecutive stop times of a trip. *)
Fixpoint hops prev rest : list (StopTime * StopTime) :=
  match rest with
  | [] => []
  | cur :: rest' => (prev, cur) :: hops cur rest'
  end.

Definition hop_interval (hop : StopTime * StopTime) : Z :=
  wrap_int (Arrival_time hop.2 - Departure_time hop.1).

Definition hop_too_fast t (hop : StopTime * StopTime) : bool :=
  too_fast t (distSApprox (Stop hop.1) (Stop hop.2)) (hop_interval hop).

Lemma first_loop_hops t prev rest :
  (∀ hop, hop ∈ hops prev rest → hop_interval hop ≠ 0) →
  first_loop t prev prev 0 rest = true ↔
  ∃ hop, hop ∈ hops prev rest ∧ hop_too_fast t hop = true.
Proof.
  revert prev. induction rest as [|cur rest IH]; intros prev Hnz.
  { simpl. split; [done|]. intros (hop & Hin & _). by apply elem_of_nil in Hin. }
  cbn [TFT.first_loop hops]. rewrite Rplus_0_l.
  assert (Hhop : hop_interval (prev, cur) ≠ 0) by (apply Hnz; by left).
  unfold hop_interval in Hhop. simpl in Hhop.
  destruct (too_fast t _ _) eqn:Hfast.
  - split; [|done]. intros _. exists (prev, cur). split; [by left|done].
  - rewrite decide_True by done. rewrite IH.
    + split.
      * intros (hop & Hin & Hf). exists hop. split; [by right|done].
      * intros (hop & Hin & Hf). apply elem_of_cons in Hin as [->|Hin].
        -- unfold hop_too_fast, hop_interval in Hf. simpl in Hf. congruence.
        -- by exists hop.
    + intros hop Hin. apply Hnz. by right.
Qed.
End Facts.
End TFTFacts.

Module TFTExtras.
Import Trips TFT TFTFacts.
Section Extras.
Variable Feed : Type.
Variable Trips_of : Feed → gmap string Trip.
Variable DeleteTrip : Feed → string → Feed.
Variable CleanTransfers : Feed → Feed.
Variable distSApprox : string → string → R.
Variable GetTypeFromExtended : Z → Z.
Variable range_Trips : nat → gmap string Trip → list (string * Trip).
(** [feed.DeleteTrip(id)] removes the trip [id] and no other from
    [feed.Trips], [feed.CleanTransfers()] leaves the trips alone, and a
    [range] meets every entry of the map once. *)
Hypothesis Hlib : library_ok Feed Trips_of DeleteTrip CleanTransfers range_Trips.

Abbreviation Run :=
  (Run Feed Trips_of DeleteTrip CleanTransfers distSApprox GetTypeFromExtended
       range_Trips).
Abbreviation first_pass := (first_pass distSApprox GetTypeFromExtended).
Abbreviation second_loop := (second_loop distSApprox GetTypeFromExtended).
Abbreviation removed := (removed distSApprox GetTypeFromExtended).
Abbreviation path_length := (path_length distSApprox).
Abbreviation threshold := (threshold GetTypeFromExtended).

(** X25. [TooFastTripRemover.Run] decides on every trip by itself and
    only deletes.  The trips it leaves are the trips of the input that
    neither pass finds too fast, each as it was, whatever the order of
    the two ranges over the trips; the first pass looks at the stretch
    since the last stop time reached after a non-zero interval, the
    second at every stretch that starts at the second stop time or
    later.  The number it reports is the number of trips deleted, which
    is never negative. *)
Theorem TooFastTripRemover_only_deletes_fast_trips (feed : Feed) :
  Z.of_nat (size (Trips_of feed)) ≤ int_max →
  (∀ k t, Trips_of (Run feed).1 !! k = Some t ↔
          Trips_of feed !! k = Some t ∧
          first_pass t = false ∧
          (∀ before st_j rest, StopTimes t = before ++ st_j :: rest → before ≠ [] →
                               second_loop t st_j st_j 0 rest = false)) ∧
  (Run feed).2 = Z.of_nat (size (Trips_of feed)) - Z.of_nat (size (Trips_of (Run feed).1)) ∧
  0 ≤ (Run feed).2.
Proof.
  intros Hmax.
  pose proof (Run_trips Feed Trips_of DeleteTrip CleanTransfers distSApprox
                GetTypeFromExtended range_Trips feed Hlib) as Htrips.
  assert (Hflag : ∀ t, second_flag distSApprox GetTypeFromExtended t = false ↔
            ∀ before st_j rest, StopTimes t = before ++ st_j :: rest → before ≠ [] →
                                second_loop t st_j st_j 0 rest = false).
  { intros t. unfold second_flag. destruct (StopTimes t) as [|first from_1].
    { split; [|done]. intros _ [|? ?] ? ? ?; done. }
    assert (Hgen : second_flag_from distSApprox GetTypeFromExtended t from_1 = false ↔
              ∀ before st_j rest, from_1 = before ++ st_j :: rest →
                                  second_loop t st_j st_j 0 rest = false).
    { induction from_1 as [|st from_1 IH]; simpl.
      - split; [|done]. intros _ [|? ?] ? ? ?; done.
      - rewrite orb_false_iff, IH. split.
        + intros [Hst Hrest] [|x before] st_j rest [= ? ?]; subst; [done|].
          by eapply Hrest.
        + intros Hall. split; [by apply (Hall [])|].
          intros before st_j rest ->. by apply (Hall (st :: before)). }
    rewrite Hgen. split.
    - intros Hall [|x before] st_j rest [= ? ?] Hne; subst; [done|]. by eapply Hall.
    - intros Hall before st_j rest ->. by apply (Hall (first :: before)). }
  assert (Hsub : Trips_of (Run feed).1 ⊆ Trips_of feed).
  { rewrite Htrips. apply map_filter_subseteq. }
  apply map_subseteq_size in Hsub.
  split_and!.
  - intros k t. rewrite Htrips, map_lookup_filter_Some. unfold TFTFacts.removed. simpl.
    rewrite orb_false_iff, Hflag. tauto.
  - unfold TFT.Run at 1. cbv zeta. simpl. apply wrap_int_id.
    change (Trips_of (CleanTransfers _)) with (Trips_of (Run feed).1).
    unfold in_int_range, int_min, int_max in *. lia.
  - unfold TFT.Run at 1. cbv zeta. simpl. rewrite wrap_int_id.
    + change (Trips_of (CleanTransfers _)) with (Trips_of (Run feed).1). lia.
    + change (Trips_of (CleanTransfers _)) with (Trips_of (Run feed).1).
      unfold in_int_range, int_min, int_max in *. lia.
Qed.

(** X26. Trips that are never deleted.  A trip with fewer than two stop
    times, a trip whose route type is none of the ten types of the
    threshold table, and a trip whose whole path is shorter than the
    distance threshold of its route type (the distances between stops
    not being negative) are in the feed that [Run] leaves. *)
Theorem TooFastTripRemover_keeps_short_trips (feed : Feed) (k : string) (t : Trip) :
  (∀ a b, (0 <= distSApprox a b)%R) →
  Trips_of feed !! k = Some t →
  (length (StopTimes t) < 2)%nat ∨
  GetTypeFromExtended (Route_Type (Route_of t)) ∉ dom distanceThresholds ∨
  (∃ first rest, StopTimes t = first :: rest ∧
                 (path_length first rest
                  < 1000 * default 0%R (distanceThresholds
                                          !! GetTypeFromExtended (Route_Type (Route_of t))))%R) →
  Trips_of (Run feed).1 !! k = Some t.
Proof.
  intros Hd Ht Hcase.
  rewrite (Run_trips Feed Trips_of DeleteTrip CleanTransfers distSApprox
             GetTypeFromExtended range_Trips feed Hlib).
  apply map_lookup_filter_Some. split; [done|]. simpl.
  by apply keeps_cases.
Qed.

(** X27. A hop that is too fast.  If the arrival at every stop differs
    from the departure at the stop before, and some hop between two
    consecutive stops is at least as long as the distance threshold of
    the route type and faster than its speed limit, the trip is not in
    the feed that [Run] leaves. *)
Theorem TooFastTripRemover_deletes_fast_hops (feed : Feed) (k : string) (t : Trip)
    (first : StopTime) (rest : list StopTime) (a b : StopTime) :
  Trips_of feed !! k = Some t → StopTimes t = first :: rest →
  (∀ hop, hop ∈ hops first rest → wrap_int (Arrival_time hop.2 - Departure_time hop.1) ≠ 0) →
  (a, b) ∈ hops first rest →
  (let dist := distSApprox (Stop a) (Stop b) in
   let inter := wrap_int (Arrival_time b - Departure_time a) in
   let routeType := GetTypeFromExtended (Route_Type (Route_of t)) in
   (dist >= 1000 * default 0 (distanceThresholds !! routeType))%R ∧
   over_limit routeType (dist / 1000 / (IZR inter / 3600))%R) →
  Trips_of (Run feed).1 !! k = None.
Proof.
  intros Ht Hst Hnz Hab [Hfar Hover].
  rewrite (Run_trips Feed Trips_of DeleteTrip CleanTransfers distSApprox
             GetTypeFromExtended range_Trips feed Hlib).
  apply map_lookup_filter_None. right. intros t' Ht'. simplify_eq. simpl.
  unfold TFTFacts.removed, TFT.first_pass. rewrite Hst.
  assert (Hfirst : first_loop distSApprox GetTypeFromExtended t first first 0 rest = true).
  { apply first_loop_hops; [done|]. exists (a, b). split; [done|].
    unfold hop_too_fast, hop_interval, too_fast, speed_of. simpl.
    rewrite decide_False by (by apply (Hnz (a, b))).
    apply andb_true_iff. by rewrite !bool_decide_eq_true. }
  by rewrite Hfirst.
Qed.
End Extras.

(** *** A concrete feed *)

(** A feed that is nothing but its trips. *)
Definition range_listed (n : nat) (m : gmap string Trip) : list (string * Trip) :=
  map_to_list m.

Definition Run_trips_only (distSApprox : string → string → R)
    : gmap string Trip → gmap string Trip * Z :=
  TFT.Run (gmap string Trip) (λ feed, feed) (λ feed id, delete id feed) (λ feed, feed)
          distSApprox (λ type, type) range_listed.

Lemma trips_only_ok :
  library_ok (gmap string Trip) (λ feed, feed) (λ feed id, delete id feed)
             (λ feed, feed) range_listed.
Proof. by split. Qed.

(** Every two stops are five kilometres apart. *)
Definition five_km (a b : string) : R := 5000%R.

(** A bus that takes one minute from the first stop to the second. *)
Definition fast_bus : Trip :=
  mkTrip (mkRoute "R" 3) (OwnString "Fast")
         [mkStopTime "S1" 28800 28800; mkStopTime "S2" 28860 28860].

Definition lone_stop_bus : Trip :=
  mkTrip (mkRoute "R" 3) (OwnString "Short") [mkStopTime "S1" 28800 28800].

Definition bus_feed : gmap string Trip :=
  <["fast" := fast_bus]> {[ "short" := lone_stop_bus ]}.

Lemma TooFastTripRemover_only_deletes_fast_trips_witness :
  (∀ k t, (Run_trips_only five_km bus_feed).1 !! k = Some t ↔
          bus_feed !! k = Some t ∧
          first_pass five_km (λ type, type) t = false ∧
          (∀ before st_j rest, StopTimes t = before ++ st_j :: rest → before ≠ [] →
                               second_loop five_km (λ type, type) t st_j st_j 0 rest = false)) ∧
  (Run_trips_only five_km bus_feed).2
  = Z.of_nat (size bus_feed) - Z.of_nat (size (Run_trips_only five_km bus_feed).1) ∧
  0 ≤ (Run_trips_only five_km bus_feed).2.
Proof.
  apply (TooFastTripRemover_only_deletes_fast_trips (gmap string Trip) (λ feed, feed)
           (λ feed id, delete id feed) (λ feed, feed) five_km (λ type, type)
           range_listed trips_only_ok bus_feed).
  by vm_compute.
Defined.

Lemma TooFastTripRemover_keeps_short_trips_witness :
  (Run_trips_only five_km bus_feed).1 !! "short" = Some lone_stop_bus.
Proof.
  apply (TooFastTripRemover_keeps_short_trips (gmap string Trip) (λ feed, feed)
           (λ feed id, delete id feed) (λ feed, feed) five_km (λ type, type)
           range_listed trips_only_ok bus_feed "short" lone_stop_bus).
  - intros a b. unfold five_km. lra.
  - done.
  - left. simpl. lia.
Defined.

Lemma bus_threshold : default 0%R (distanceThresholds !! 3) = 1%R.
Proof. done. Qed.

Lemma TooFastTripRemover_deletes_fast_hops_witness :
  (Run_trips_only five_km bus_feed).1 !! "fast" = None.
Proof.
  apply (TooFastTripRemover_deletes_fast_hops (gmap string Trip) (λ feed, feed)
           (λ feed id, delete id feed) (λ feed, feed) five_km (λ type, type)
           range_listed trips_only_ok bus_feed "fast" fast_bus
           (mkStopTime "S1" 28800 28800) [mkStopTime "S2" 28860 28860]
           (mkStopTime "S1" 28800 28800) (mkStopTime "S2" 28860 28860)).
  - done.
  - done.
  - intros hop Hhop. simpl in Hhop. apply list_elem_of_singleton in Hhop as ->.
    by vm_compute.
  - simpl. apply elem_of_cons. by left.
  - cbv zeta. simpl. rewrite bus_threshold. unfold five_km. split; [lra|].
    unfold over_limit. do 3 right. left. split; [done|].
    replace (wrap_int (28860 - 28800)) with 60 by (by vm_compute).
    lra.
Defined.

End TFTExtras.
